(** * BOTWARS ARENA: the tick engine and the bot sandbox host

    A shallow embedding of the simulation engine (src/engine: types,
    Combat, GameState, Physics, GameLoop; src/utils: math, constants;
    src/arena: terrain sampling) and of the sandbox host
    (src/bots/bot-worker.ts and the BotRunner class), with the properties
    the specification states about them.

    Numbers.  A JavaScript [number] is an IEEE-754 binary64 value, and so is
    Rocq's primitive [float]: [+ - * /], [sqrt] and the comparisons are the
    same operations.  Positions, directions, velocities, radii and momentum
    are [float].  Health, energy, cooldowns, status counters, ticks, ids and
    damage only ever hold integers far below 2^53 (every constant that
    touches them is an integer and [Math.round] is applied to the one
    product that is not), so they are [Z]. *)

From Stdlib Require Import ZArith Floats Bool Ascii String Lia.
From stdpp Require Import base option list gmap strings pretty.

Set Warnings "-inexact-float,-register-all".

Local Open Scope Z_scope.

(** ** JavaScript numeric built-ins *)

Module Js.

(** An integer as a [number]; exact below 2^53. *)
Definition of_Z (z : Z) : float :=
  if z <? 0 then PrimFloat.opp (PrimFloat.of_uint63 (Uint63.of_Z (- z)))
  else PrimFloat.of_uint63 (Uint63.of_Z z).

(** The mathematical value of a finite float is [m * 2^e]. *)
Definition signed (sign : bool) (m : positive) : Z :=
  if sign then Z.neg m else Z.pos m.

(** [Math.floor] *)
Definition floor (f : float) : float :=
  match Prim2SF f with
  | S754_finite sign m e =>
      if 0 <=? e then f else of_Z (Z.shiftl (signed sign m) e)
  | _ => f
  end.

(** [Math.round] of a value that is then used as an integer: the nearest
    integer, ties towards +infinity.  [NaN] and the infinities have no
    integer; the engine never rounds one (the operand is an integer
    damage times a constant), and the model answers 0 there. *)
Definition round (f : float) : Z :=
  match Prim2SF f with
  | S754_finite sign m e =>
      if 0 <=? e then Z.shiftl (signed sign m) e
      else Z.shiftr (2 * signed sign m + Z.shiftl 1 (- e)) (- e + 1)
  | _ => 0
  end.

(** [Math.min] and [Math.max] on numbers: [NaN] is contagious and
    [-0 < +0]. *)
Definition min (a b : float) : float :=
  if PrimFloat.is_nan a || PrimFloat.is_nan b then PrimFloat.nan
  else if PrimFloat.ltb a b then a
  else if PrimFloat.ltb b a then b
  else if PrimFloat.ltb (PrimFloat.div PrimFloat.one a) PrimFloat.zero then a
  else b.

Definition max (a b : float) : float :=
  if PrimFloat.is_nan a || PrimFloat.is_nan b then PrimFloat.nan
  else if PrimFloat.ltb a b then b
  else if PrimFloat.ltb b a then a
  else if PrimFloat.ltb (PrimFloat.div PrimFloat.one a) PrimFloat.zero then b
  else a.

(** [a > b] and [a >= b] are [b < a] and [b <= a], also on [NaN]. *)
Definition gtb (a b : float) : bool := PrimFloat.ltb b a.
Definition geb (a b : float) : bool := PrimFloat.leb b a.

(** [a === b] and [a !== b] on numbers. *)
Definition eqb (a b : float) : bool := PrimFloat.eqb a b.

(** The decimal text of an integer-valued number, as a template literal
    prints it. *)
Definition show (z : Z) : string := pretty z.

End Js.

(** ** src/utils/math.ts *)

Record Vec2 := mkVec2 { vx : float; vy : float }.

Definition vec2 (x y : float) : Vec2 := mkVec2 x y.

Section VectorMath.
Local Open Scope float_scope.

Definition add (a b : Vec2) : Vec2 := mkVec2 (vx a + vx b) (vy a + vy b).
Definition sub (a b : Vec2) : Vec2 := mkVec2 (vx a - vx b) (vy a - vy b).
Definition scale (v : Vec2) (s : float) : Vec2 := mkVec2 (vx v * s) (vy v * s).

(** [length] in math.ts *)
Definition vlength (v : Vec2) : float := PrimFloat.sqrt (vx v * vx v + vy v * vy v).

Definition distance (a b : Vec2) : float := vlength (sub a b).

Definition normalize (v : Vec2) : Vec2 :=
  let len := vlength v in
  if Js.eqb len 0 then mkVec2 0 0 else mkVec2 (vx v / len) (vy v / len).

Definition dot (a b : Vec2) : float := vx a * vx b + vy a * vy b.

Definition clamp (value lo hi : float) : float := Js.max lo (Js.min hi value).

(** Does the segment p1 -> p2 meet the circle? *)
Definition lineSegmentIntersectsCircle (p1 p2 center : Vec2) (radius : float) : bool :=
  let d := sub p2 p1 in
  let f := sub p1 center in
  let lenSq := dot d d in
  if Js.eqb lenSq 0 then vlength f <=? radius
  else
    let t := clamp (- dot f d / lenSq) 0 1 in
    let closest := mkVec2 (vx p1 + t * vx d) (vy p1 + t * vy d) in
    distance closest center <=? radius.

(** [Math.cos((fovDegrees / 2) * Math.PI / 180)].  The engine calls it with
    [BOT_FOV = 160] only; the cosine is taken as an argument so that the
    one value used is a constant of the model (see [halfFovCos160]). *)
Definition isInFieldOfView (facing from to : Vec2) (halfFovCos : float) : bool :=
  let dir := sub to from in
  let len := vlength dir in
  if Js.eqb len 0 then true
  else
    let normalized := mkVec2 (vx dir / len) (vy dir / len) in
    Js.geb (dot facing normalized) halfFovCos.

End VectorMath.

Record Circle := mkCircle { c_position : Vec2; c_radius : float }.

Definition hasLineOfSight (from to : Vec2) (obstacles : list Circle) : bool :=
  negb (existsb (fun o => lineSegmentIntersectsCircle from to (c_position o) (c_radius o))
          obstacles).

(** ** src/utils/constants.ts *)

Module Const.
Local Open Scope float_scope.

Definition ARENA_SIZE : float := 40.
Definition ARENA_HALF : float := ARENA_SIZE / 2.
Definition MAX_TICKS : Z := 2400.

Definition BOT_HP : Z := 1000.
Definition BOT_ENERGY : Z := 100.
Definition BOT_RADIUS : float := 1.0.
Definition BOT_SPEED : float := 0.3.
Definition ENERGY_REGEN : Z := 1.
(** [Math.cos((BOT_FOV / 2) * Math.PI / 180)] with [BOT_FOV = 160]. *)
Definition halfFovCos160 : float := 0.17364817766693041.

Definition MELEE_DAMAGE : Z := 9.
Definition MELEE_ENERGY : Z := 12.
Definition MELEE_COOLDOWN : Z := 10.
Definition MELEE_RANGE : float := 2.0.

Definition RANGED_DAMAGE : Z := 8.
Definition RANGED_ENERGY : Z := 14.
Definition RANGED_COOLDOWN : Z := 15.
Definition PROJECTILE_SPEED : float := 0.8.

Definition SPECIAL_DAMAGE : Z := 12.
Definition SPECIAL_ENERGY : Z := 40.
Definition SPECIAL_COOLDOWN : Z := 50.
Definition SPECIAL_RANGE : float := 8.0.

Definition DEFEND_ENERGY_PER_TICK : Z := 3.
Definition DEFEND_REDUCTION : float := 0.35.

Definition DASH_ENERGY : Z := 15.
Definition DASH_COOLDOWN : Z := 12.
Definition DASH_DISTANCE : float := 5.

Definition HEAL_AMOUNT : Z := 15.
Definition HEAL_ENERGY : Z := 30.
Definition HEAL_COOLDOWN : Z := 40.

Definition TRAP_DAMAGE : Z := 10.
Definition TRAP_ENERGY : Z := 20.
Definition TRAP_COOLDOWN : Z := 25.
Definition TRAP_RADIUS : float := 1.5.
Definition TRAP_MAX_PER_BOT : nat := 2.
Definition TRAP_SLOW_DURATION : Z := 30.
Definition TRAP_LIFETIME : Z := 400.

Definition MELEE_COMMIT_TICKS : Z := 3.
Definition SPECIAL_COMMIT_TICKS : Z := 4.
Definition COMMIT_SPEED_MULT : float := 0.15.

Definition OOC_REGEN_DELAY : Z := 40.
Definition OOC_REGEN_RATE : Z := 2.

Definition MOMENTUM_BUILDUP : float := 0.12.
Definition MOMENTUM_DECAY : float := 0.5.
Definition MOMENTUM_MAX_BONUS : float := 0.5.

Definition BURN_DAMAGE : Z := 1.
Definition BURN_DURATION : Z := 20.

Definition PICKUP_INTERVAL : Z := 100.
Definition MAX_PICKUPS : nat := 3.
Definition HEALTH_PICKUP_AMOUNT : Z := 20.
Definition ENERGY_PICKUP_AMOUNT : Z := 30.
Definition PICKUP_RADIUS : float := 0.8.

Definition DEFAULT_OBSTACLES : list Circle :=
  [ mkCircle (mkVec2 (-8) 0) 2.0;
    mkCircle (mkVec2 8 5) 1.5;
    mkCircle (mkVec2 5 (-8)) 1.8 ].

Definition TERRAIN_SLOPE_MAX : float := 0.6.
End Const.
Import Const.

(** ** src/engine/types.ts *)

Inductive ActionKind := Melee | Ranged | Special | Defend | Dash | Heal | Trap.

(** The key of [actionsUsed] and the literal of the action. *)
Definition action_name (a : ActionKind) : string :=
  match a with
  | Melee => "melee" | Ranged => "ranged" | Special => "special"
  | Defend => "defend" | Dash => "dash" | Heal => "heal" | Trap => "trap"
  end.

Record BotAction := mkBotAction {
  move : Vec2;
  aim : Vec2;
  action : option ActionKind;
}.

Record Cooldowns := mkCooldowns {
  cd_melee : Z; cd_ranged : Z; cd_special : Z;
  cd_dash : Z; cd_heal : Z; cd_trap : Z;
}.

Record Status := mkStatus {
  burning : Z;
  slowed : Z;
  shielded : bool;
  attackCommit : Z;
}.

Record BotData := mkBot {
  id : nat;
  name : string;
  hp : Z;
  energy : Z;
  position : Vec2;
  facing : Vec2;
  velocity : Vec2;
  cooldowns : Cooldowns;
  status : Status;
  lastCombatTick : Z;
  momentum : float;
  isDefending : bool;
  lastAction : option BotAction;
  damageDealt : Z;
  damageTaken : Z;
  actionsUsed : gmap string Z;
}.

Record Projectile := mkProjectile {
  p_id : nat;
  p_ownerId : nat;
  p_position : Vec2;
  p_velocity : Vec2;
  p_damage : Z;
  p_lifetime : Z;
}.

Inductive PickupType := Health | Energy.

Definition pickup_name (t : PickupType) : string :=
  match t with Health => "health" | Energy => "energy" end.

Record Pickup := mkPickup {
  k_id : nat;
  k_position : Vec2;
  k_type : PickupType;
  k_active : bool;
}.

Record TrapData := mkTrap {
  t_id : nat;
  t_ownerId : nat;
  t_position : Vec2;
  t_lifetime : Z;
  t_active : bool;
}.

Inductive EventType :=
  | melee_hit | ranged_fire | ranged_hit | special_use | special_hit
  | defend_start | defend_end | pickup | burn_tick | ko | miss
  | dash_use | heal_use | trap_place | trap_trigger
  | lost_sight | gained_sight.

Record GameEvent := mkEvent {
  e_type : EventType;
  e_attacker : option nat;
  e_target : option nat;
  e_damage : option Z;
  e_position : option Vec2;
  e_text : string;
}.

Inductive ObstacleType := pillar | rock | wall | crate | platform.

Record ObstacleData := mkObstacle {
  o_position : Vec2;
  o_radius : float;
  o_type : ObstacleType;
  o_height : float;
  o_destructible : bool;
  o_hp : option float;
}.

(** [heightmap] is a [Float32Array]; its entries read as numbers. *)
Record TerrainData := mkTerrain {
  heightmap : list float;
  resolution : float;
  arenaSize : float;
}.

Inductive BiomeType := volcanic | ice | cyber | forest | desert.

Record ArenaConfig := mkArena {
  biome : BiomeType;
  obstacles : list ObstacleData;
  terrain : TerrainData;
  spawnPoints : Vec2 * Vec2;
  bounds : float * float;
}.

#[global] Instance EventType_eq_dec : EqDecision EventType.
Proof. solve_decision. Defined.

#[global] Instance ActionKind_eq_dec : EqDecision ActionKind.
Proof. solve_decision. Defined.

(** ** src/arena/ArenaGenerator.ts: terrain sampling *)

Section Terrain.
Local Open Scope float_scope.

(** [heightmap[i]] for a number [i]: the entry when [i] is an index of the
    array, [undefined] otherwise, which the arithmetic that follows turns
    into [NaN]. *)
Definition heightmap_at (hm : list float) (i : float) : float :=
  match Prim2SF i with
  | S754_zero _ => nth 0 hm PrimFloat.nan
  | S754_finite false m e =>
      if (0 <=? e)%Z then nth (Z.to_nat (Z.shiftl (Z.pos m) e)) hm PrimFloat.nan
      else if Js.eqb (Js.floor i) i
           then nth (Z.to_nat (Z.shiftl (Z.pos m) e)) hm PrimFloat.nan
           else PrimFloat.nan
  | _ => PrimFloat.nan
  end.

Definition sampleTerrainHeight (terrain : TerrainData) (wx wy : float) : float :=
  let res := resolution terrain in
  let gx := ((wx / arenaSize terrain) + 0.5) * (res - 1) in
  let gy := ((wy / arenaSize terrain) + 0.5) * (res - 1) in
  let ix := Js.floor gx in
  let iy := Js.floor gy in
  let fx := gx - ix in
  let fy := gy - iy in
  let ix0 := Js.max 0 (Js.min (res - 1) ix) in
  let ix1 := Js.max 0 (Js.min (res - 1) (ix + 1)) in
  let iy0 := Js.max 0 (Js.min (res - 1) iy) in
  let iy1 := Js.max 0 (Js.min (res - 1) (iy + 1)) in
  let h00 := heightmap_at (heightmap terrain) (iy0 * res + ix0) in
  let h10 := heightmap_at (heightmap terrain) (iy0 * res + ix1) in
  let h01 := heightmap_at (heightmap terrain) (iy1 * res + ix0) in
  let h11 := heightmap_at (heightmap terrain) (iy1 * res + ix1) in
  h00 * (1 - fx) * (1 - fy) +
  h10 * fx * (1 - fy) +
  h01 * (1 - fx) * fy +
  h11 * fx * fy.

Definition sampleTerrainSlope (terrain : TerrainData) (wx wy : float) : float :=
  let d := 0.5 in
  let hL := sampleTerrainHeight terrain (wx - d) wy in
  let hR := sampleTerrainHeight terrain (wx + d) wy in
  let hD := sampleTerrainHeight terrain wx (wy - d) in
  let hU := sampleTerrainHeight terrain wx (wy + d) in
  let dx := (hR - hL) / (2 * d) in
  let dy := (hU - hD) / (2 * d) in
  PrimFloat.sqrt (dx * dx + dy * dy).

End Terrain.

(** Field updates, one per field the engine assigns. *)

Definition set_cd_melee (v : _) (c : Cooldowns) : Cooldowns :=
  mkCooldowns v (cd_ranged c) (cd_special c) (cd_dash c) (cd_heal c) (cd_trap c) .
Definition set_cd_ranged (v : _) (c : Cooldowns) : Cooldowns :=
  mkCooldowns (cd_melee c) v (cd_special c) (cd_dash c) (cd_heal c) (cd_trap c) .
Definition set_cd_special (v : _) (c : Cooldowns) : Cooldowns :=
  mkCooldowns (cd_melee c) (cd_ranged c) v (cd_dash c) (cd_heal c) (cd_trap c) .
Definition set_cd_dash (v : _) (c : Cooldowns) : Cooldowns :=
  mkCooldowns (cd_melee c) (cd_ranged c) (cd_special c) v (cd_heal c) (cd_trap c) .
Definition set_cd_heal (v : _) (c : Cooldowns) : Cooldowns :=
  mkCooldowns (cd_melee c) (cd_ranged c) (cd_special c) (cd_dash c) v (cd_trap c) .
Definition set_cd_trap (v : _) (c : Cooldowns) : Cooldowns :=
  mkCooldowns (cd_melee c) (cd_ranged c) (cd_special c) (cd_dash c) (cd_heal c) v.

Definition set_burning (v : _) (st : Status) : Status :=
  mkStatus v (slowed st) (shielded st) (attackCommit st) .
Definition set_slowed (v : _) (st : Status) : Status :=
  mkStatus (burning st) v (shielded st) (attackCommit st) .
Definition set_shielded (v : _) (st : Status) : Status :=
  mkStatus (burning st) (slowed st) v (attackCommit st) .
Definition set_attackCommit (v : _) (st : Status) : Status :=
  mkStatus (burning st) (slowed st) (shielded st) v.

Definition set_hp (v : _) (b : BotData) : BotData :=
  mkBot (id b) (name b) v (energy b) (position b) (facing b) (velocity b) (cooldowns b)
    (status b) (lastCombatTick b) (momentum b) (isDefending b) (lastAction b)
    (damageDealt b) (damageTaken b) (actionsUsed b) .
Definition set_energy (v : _) (b : BotData) : BotData :=
  mkBot (id b) (name b) (hp b) v (position b) (facing b) (velocity b) (cooldowns b)
    (status b) (lastCombatTick b) (momentum b) (isDefending b) (lastAction b)
    (damageDealt b) (damageTaken b) (actionsUsed b) .
Definition set_position (v : _) (b : BotData) : BotData :=
  mkBot (id b) (name b) (hp b) (energy b) v (facing b) (velocity b) (cooldowns b)
    (status b) (lastCombatTick b) (momentum b) (isDefending b) (lastAction b)
    (damageDealt b) (damageTaken b) (actionsUsed b) .
Definition set_facing (v : _) (b : BotData) : BotData :=
  mkBot (id b) (name b) (hp b) (energy b) (position b) v (velocity b) (cooldowns b)
    (status b) (lastCombatTick b) (momentum b) (isDefending b) (lastAction b)
    (damageDealt b) (damageTaken b) (actionsUsed b) .
Definition set_velocity (v : _) (b : BotData) : BotData :=
  mkBot (id b) (name b) (hp b) (energy b) (position b) (facing b) v (cooldowns b)
    (status b) (lastCombatTick b) (momentum b) (isDefending b) (lastAction b)
    (damageDealt b) (damageTaken b) (actionsUsed b) .
Definition set_cooldowns (v : _) (b : BotData) : BotData :=
  mkBot (id b) (name b) (hp b) (energy b) (position b) (facing b) (velocity b) v
    (status b) (lastCombatTick b) (momentum b) (isDefending b) (lastAction b)
    (damageDealt b) (damageTaken b) (actionsUsed b) .
Definition set_status (v : _) (b : BotData) : BotData :=
  mkBot (id b) (name b) (hp b) (energy b) (position b) (facing b) (velocity b)
    (cooldowns b) v (lastCombatTick b) (momentum b) (isDefending b) (lastAction b)
    (damageDealt b) (damageTaken b) (actionsUsed b) .
Definition set_lastCombatTick (v : _) (b : BotData) : BotData :=
  mkBot (id b) (name b) (hp b) (energy b) (position b) (facing b) (velocity b)
    (cooldowns b) (status b) v (momentum b) (isDefending b) (lastAction b)
    (damageDealt b) (damageTaken b) (actionsUsed b) .
Definition set_momentum (v : _) (b : BotData) : BotData :=
  mkBot (id b) (name b) (hp b) (energy b) (position b) (facing b) (velocity b)
    (cooldowns b) (status b) (lastCombatTick b) v (isDefending b) (lastAction b)
    (damageDealt b) (damageTaken b) (actionsUsed b) .
Definition set_isDefending (v : _) (b : BotData) : BotData :=
  mkBot (id b) (name b) (hp b) (energy b) (position b) (facing b) (velocity b)
    (cooldowns b) (status b) (lastCombatTick b) (momentum b) v (lastAction b)
    (damageDealt b) (damageTaken b) (actionsUsed b) .
Definition set_damageDealt (v : _) (b : BotData) : BotData :=
  mkBot (id b) (name b) (hp b) (energy b) (position b) (facing b) (velocity b)
    (cooldowns b) (status b) (lastCombatTick b) (momentum b) (isDefending b)
    (lastAction b) v (damageTaken b) (actionsUsed b) .
Definition set_damageTaken (v : _) (b : BotData) : BotData :=
  mkBot (id b) (name b) (hp b) (energy b) (position b) (facing b) (velocity b)
    (cooldowns b) (status b) (lastCombatTick b) (momentum b) (isDefending b)
    (lastAction b) (damageDealt b) v (actionsUsed b) .
Definition set_actionsUsed (v : _) (b : BotData) : BotData :=
  mkBot (id b) (name b) (hp b) (energy b) (position b) (facing b) (velocity b)
    (cooldowns b) (status b) (lastCombatTick b) (momentum b) (isDefending b)
    (lastAction b) (damageDealt b) (damageTaken b) v.

(** ** src/engine/GameState.ts: the state *)

Record GameState := mkState {
  bots : list BotData;
  projectiles : list Projectile;
  pickups : list Pickup;
  traps : list TrapData;
  tick : Z;
  events : list GameEvent;
  gameOver : bool;
  winner : option nat;
  arenaConfig : option ArenaConfig;
  lastKnownEnemyPos : list Vec2;
  enemyVisible : list bool;
  nextProjectileId : nat;
  nextPickupId : nat;
  nextTrapId : nat;
}.

Definition set_bots (v : _) (s : GameState) : GameState :=
  mkState v (projectiles s) (pickups s) (traps s) (tick s) (events s) (gameOver s)
    (winner s) (arenaConfig s) (lastKnownEnemyPos s) (enemyVisible s)
    (nextProjectileId s) (nextPickupId s) (nextTrapId s) .
Definition set_projectiles (v : _) (s : GameState) : GameState :=
  mkState (bots s) v (pickups s) (traps s) (tick s) (events s) (gameOver s) (winner s)
    (arenaConfig s) (lastKnownEnemyPos s) (enemyVisible s) (nextProjectileId s)
    (nextPickupId s) (nextTrapId s) .
Definition set_pickups (v : _) (s : GameState) : GameState :=
  mkState (bots s) (projectiles s) v (traps s) (tick s) (events s) (gameOver s)
    (winner s) (arenaConfig s) (lastKnownEnemyPos s) (enemyVisible s)
    (nextProjectileId s) (nextPickupId s) (nextTrapId s) .
Definition set_traps (v : _) (s : GameState) : GameState :=
  mkState (bots s) (projectiles s) (pickups s) v (tick s) (events s) (gameOver s)
    (winner s) (arenaConfig s) (lastKnownEnemyPos s) (enemyVisible s)
    (nextProjectileId s) (nextPickupId s) (nextTrapId s) .
Definition set_tick (v : _) (s : GameState) : GameState :=
  mkState (bots s) (projectiles s) (pickups s) (traps s) v (events s) (gameOver s)
    (winner s) (arenaConfig s) (lastKnownEnemyPos s) (enemyVisible s)
    (nextProjectileId s) (nextPickupId s) (nextTrapId s) .
Definition set_events (v : _) (s : GameState) : GameState :=
  mkState (bots s) (projectiles s) (pickups s) (traps s) (tick s) v (gameOver s)
    (winner s) (arenaConfig s) (lastKnownEnemyPos s) (enemyVisible s)
    (nextProjectileId s) (nextPickupId s) (nextTrapId s) .
Definition set_gameOver (v : _) (s : GameState) : GameState :=
  mkState (bots s) (projectiles s) (pickups s) (traps s) (tick s) (events s) v
    (winner s) (arenaConfig s) (lastKnownEnemyPos s) (enemyVisible s)
    (nextProjectileId s) (nextPickupId s) (nextTrapId s) .
Definition set_winner (v : _) (s : GameState) : GameState :=
  mkState (bots s) (projectiles s) (pickups s) (traps s) (tick s) (events s)
    (gameOver s) v (arenaConfig s) (lastKnownEnemyPos s) (enemyVisible s)
    (nextProjectileId s) (nextPickupId s) (nextTrapId s) .
Definition set_arenaConfig (v : _) (s : GameState) : GameState :=
  mkState (bots s) (projectiles s) (pickups s) (traps s) (tick s) (events s)
    (gameOver s) (winner s) v (lastKnownEnemyPos s) (enemyVisible s)
    (nextProjectileId s) (nextPickupId s) (nextTrapId s) .
Definition set_lastKnownEnemyPos (v : _) (s : GameState) : GameState :=
  mkState (bots s) (projectiles s) (pickups s) (traps s) (tick s) (events s)
    (gameOver s) (winner s) (arenaConfig s) v (enemyVisible s) (nextProjectileId s)
    (nextPickupId s) (nextTrapId s) .
Definition set_enemyVisible (v : _) (s : GameState) : GameState :=
  mkState (bots s) (projectiles s) (pickups s) (traps s) (tick s) (events s)
    (gameOver s) (winner s) (arenaConfig s) (lastKnownEnemyPos s) v
    (nextProjectileId s) (nextPickupId s) (nextTrapId s) .
Definition set_nextProjectileId (v : _) (s : GameState) : GameState :=
  mkState (bots s) (projectiles s) (pickups s) (traps s) (tick s) (events s)
    (gameOver s) (winner s) (arenaConfig s) (lastKnownEnemyPos s) (enemyVisible s) v
    (nextPickupId s) (nextTrapId s) .
Definition set_nextPickupId (v : _) (s : GameState) : GameState :=
  mkState (bots s) (projectiles s) (pickups s) (traps s) (tick s) (events s)
    (gameOver s) (winner s) (arenaConfig s) (lastKnownEnemyPos s) (enemyVisible s)
    (nextProjectileId s) v (nextTrapId s) .
Definition set_nextTrapId (v : _) (s : GameState) : GameState :=
  mkState (bots s) (projectiles s) (pickups s) (traps s) (tick s) (events s)
    (gameOver s) (winner s) (arenaConfig s) (lastKnownEnemyPos s) (enemyVisible s)
    (nextProjectileId s) (nextPickupId s) v.


(** A bot is an object held by reference in [state.bots]; the model names it
    by its index and writes every mutation back into the array. *)
Definition upd_bot (i : nat) (f : BotData -> BotData) (s : GameState) : GameState :=
  set_bots (alter f i (bots s)) s.

(** [state.events.push(e)] *)
Definition push_event (e : GameEvent) (s : GameState) : GameState :=
  set_events (events s ++ [e]) s.

(** ** src/engine/Physics.ts *)

Section Physics.
Local Open Scope float_scope.

Definition applyMovement (bot : BotData) (mv : Vec2) (terrain : option TerrainData)
  : BotData :=
  let mx := vx mv in
  let my := vy mv in
  let mag := PrimFloat.sqrt (mx * mx + my * my) in
  let '(mx, my) := if Js.gtb mag 1 then (mx / mag, my / mag) else (mx, my) in
  let speed := if (0 <? slowed (status bot))%Z then BOT_SPEED * 0.5 else BOT_SPEED in
  let speed :=
    match terrain with
    | None => speed
    | Some terrain =>
        let slope := sampleTerrainSlope terrain (vx (position bot)) (vy (position bot)) in
        if Js.gtb slope TERRAIN_SLOPE_MAX then speed * 0.1
        else if Js.gtb slope 0.1 then
          let hCurrent :=
            sampleTerrainHeight terrain (vx (position bot)) (vy (position bot)) in
          let hAhead :=
            sampleTerrainHeight terrain
              (vx (position bot) + mx * 0.5) (vy (position bot) + my * 0.5) in
          if Js.gtb hAhead hCurrent
          then speed * Js.max 0.4 (1.0 - slope * 0.8)
          else speed * Js.min 1.4 (1.0 + slope * 0.3)
        else speed
    end in
  let oldVelMag :=
    PrimFloat.sqrt (vx (velocity bot) * vx (velocity bot)
                    + vy (velocity bot) * vy (velocity bot)) in
  let newMoveMag := PrimFloat.sqrt (mx * mx + my * my) in
  let momentum1 :=
    if Js.gtb oldVelMag 0.01 && Js.gtb newMoveMag 0.01 then
      let alignment :=
        (vx (velocity bot) * mx + vy (velocity bot) * my) / (oldVelMag * newMoveMag) in
      if Js.gtb alignment 0.7
      then Js.min 1.0 (momentum bot + MOMENTUM_BUILDUP)
      else momentum bot * MOMENTUM_DECAY
    else momentum bot * MOMENTUM_DECAY in
  let '(speed, momentum2) :=
    if (0 <? attackCommit (status bot))%Z
    then (speed * COMMIT_SPEED_MULT, 0)
    else (speed * (1.0 + momentum1 * MOMENTUM_MAX_BONUS), momentum1) in
  let vel := mkVec2 (mx * speed) (my * speed) in
  set_position (mkVec2 (vx (position bot) + vx vel) (vy (position bot) + vy vel))
    (set_velocity vel (set_momentum momentum2 bot)).

Definition applyFacing (bot : BotData) (am : Vec2) : BotData :=
  let len := PrimFloat.sqrt (vx am * vx am + vy am * vy am) in
  if Js.gtb len 0 then set_facing (mkVec2 (vx am / len) (vy am / len)) bot else bot.

Definition clampToBounds (bot : BotData) : BotData :=
  let limit := ARENA_HALF - BOT_RADIUS in
  set_position
    (mkVec2 (Js.max (- limit) (Js.min limit (vx (position bot))))
            (Js.max (- limit) (Js.min limit (vy (position bot)))))
    bot.

(** Both bots are moved; the pair is written back by the caller. *)
Definition resolveBotCollision (a b : BotData) : BotData * BotData :=
  let dist := distance (position a) (position b) in
  let minDist := BOT_RADIUS * 2 in
  if (dist <? minDist) && Js.gtb dist 0 then
    let dir := normalize (sub (position b) (position a)) in
    let overlap := (minDist - dist) / 2 in
    (set_position (mkVec2 (vx (position a) - vx dir * overlap)
                          (vy (position a) - vy dir * overlap)) a,
     set_position (mkVec2 (vx (position b) + vx dir * overlap)
                          (vy (position b) + vy dir * overlap)) b)
  else (a, b).

(** [dynamicObstacles ? dynamicObstacles.map(...) : DEFAULT_OBSTACLES] *)
Definition obstacle_circles (dynamicObstacles : option (list ObstacleData))
  : list Circle :=
  match dynamicObstacles with
  | Some l => map (fun o => mkCircle (o_position o) (o_radius o)) l
  | None => DEFAULT_OBSTACLES
  end.

Definition pushOutOf (bot : BotData) (obs : Circle) : BotData :=
  let obsPos := vec2 (vx (c_position obs)) (vy (c_position obs)) in
  let dist := distance (position bot) obsPos in
  let minDist := BOT_RADIUS + c_radius obs in
  if (dist <? minDist) && Js.gtb dist 0 then
    let dir := normalize (sub (position bot) obsPos) in
    let overlap := minDist - dist in
    set_position (mkVec2 (vx (position bot) + vx dir * overlap)
                         (vy (position bot) + vy dir * overlap)) bot
  else bot.

Definition resolveObstacleCollision (bot : BotData)
    (dynamicObstacles : option (list ObstacleData)) : BotData :=
  fold_left pushOutOf (obstacle_circles dynamicObstacles) bot.

(** The filter callback moves the projectile, then decides whether it
    stays. *)
Definition stepProjectile (p : Projectile) : Projectile :=
  mkProjectile (p_id p) (p_ownerId p)
    (mkVec2 (vx (p_position p) + vx (p_velocity p))
            (vy (p_position p) + vy (p_velocity p)))
    (p_velocity p) (p_damage p) (p_lifetime p - 1)%Z.

Definition projectileStays (obstacles : list Circle) (p : Projectile) : bool :=
  if Js.gtb (PrimFloat.abs (vx (p_position p))) ARENA_HALF
     || Js.gtb (PrimFloat.abs (vy (p_position p))) ARENA_HALF
  then false
  else if existsb (fun obs =>
                     distance (p_position p)
                              (mkVec2 (vx (c_position obs)) (vy (c_position obs)))
                     <? c_radius obs) obstacles
  then false
  else (0 <? p_lifetime p)%Z.

Definition updateProjectiles (ps : list Projectile)
    (dynamicObstacles : option (list ObstacleData)) : list Projectile :=
  filter (fun p => projectileStays (obstacle_circles dynamicObstacles) p = true)
         (map stepProjectile ps).

End Physics.

(** ** src/engine/GameState.ts: the methods *)

Section GameStateMethods.
Local Open Scope float_scope.

Definition createBot (id : nat) (name : string) (pos : Vec2) : BotData :=
  {| id := id;
     name := name;
     hp := BOT_HP;
     energy := BOT_ENERGY;
     position := mkVec2 (vx pos) (vy pos);
     facing := mkVec2 (if Nat.eqb id 0 then 1 else -1) 0;
     velocity := mkVec2 0 0;
     cooldowns := mkCooldowns 0 0 0 0 0 0;
     status := mkStatus 0 0 false 0;
     lastCombatTick := 0;
     momentum := 0;
     isDefending := false;
     lastAction := None;
     damageDealt := 0;
     damageTaken := 0;
     actionsUsed := ∅ |}.

(** [init] keeps [arenaConfig], which main.ts assigns before [start]. *)
Definition init (cfg : option ArenaConfig) (bot1Name bot2Name : string) : GameState :=
  let spawn1 := match cfg with Some c => fst (spawnPoints c) | None => vec2 (-10) 0 end in
  let spawn2 := match cfg with Some c => snd (spawnPoints c) | None => vec2 10 0 end in
  {| bots := [createBot 0 bot1Name spawn1; createBot 1 bot2Name spawn2];
     projectiles := [];
     pickups := [];
     traps := [];
     tick := 0;
     events := [];
     gameOver := false;
     winner := None;
     arenaConfig := cfg;
     lastKnownEnemyPos := [spawn2; spawn1];
     enemyVisible := [true; true];
     nextProjectileId := 0;
     nextPickupId := 0;
     nextTrapId := 0 |}.

Definition arena_circles (s : GameState) : list Circle :=
  obstacle_circles (option_map obstacles (arenaConfig s)).

(** One round of the loop of [updateVisibility].  [this.bots] holds two
    bots from [init] on; with fewer the source would throw on
    [this.bots[enemyId].position], and the model leaves the state alone. *)
Definition canSee (s : GameState) (botId : nat) : option bool :=
  let enemyId := (1 - botId)%nat in
  match bots s !! botId, bots s !! enemyId with
  | Some me, Some enemy =>
      Some (hasLineOfSight (position me) (position enemy) (arena_circles s)
            && isInFieldOfView (facing me) (position me) (position enemy) halfFovCos160)
  | _, _ => None
  end.

Definition updateVisibilityOf (s : GameState) (botId : nat) : GameState :=
  let enemyId := (1 - botId)%nat in
  match canSee s botId, bots s !! enemyId with
  | Some sees, Some enemy =>
      let s := set_enemyVisible (<[botId := sees]> (enemyVisible s)) s in
      if sees
      then set_lastKnownEnemyPos
             (<[botId := mkVec2 (vx (position enemy)) (vy (position enemy))]>
                (lastKnownEnemyPos s)) s
      else s
  | _, _ => s
  end.

Definition updateVisibility (s : GameState) : GameState :=
  fold_left updateVisibilityOf [0%nat; 1%nat] s.

Definition addProjectile (ownerId : nat) (pos vel : Vec2) (damage : Z) (s : GameState)
  : GameState :=
  set_nextProjectileId (S (nextProjectileId s))
    (set_projectiles
       (projectiles s ++
          [ {| p_id := nextProjectileId s;
               p_ownerId := ownerId;
               p_position := mkVec2 (vx pos) (vy pos);
               p_velocity := mkVec2 (vx vel) (vy vel);
               p_damage := damage;
               p_lifetime := 60 |} ]) s).

(** The three values [Math.random()] returns when [trySpawnPickup] gets
    past its guards, in the order it asks for them. *)
Record Draws := mkDraws { r_type : float; r_x : float; r_y : float }.

Definition count_active_pickups (s : GameState) : nat :=
  length (filter (fun p => k_active p = true) (pickups s)).

Definition trySpawnPickup (rnd : Draws) (s : GameState) : GameState :=
  if negb (Z.rem (tick s) PICKUP_INTERVAL =? 0)%Z || (tick s =? 0)%Z then s
  else if (MAX_PICKUPS <=? count_active_pickups s)%nat then s
  else
    let type := if Js.gtb (r_type rnd) 0.5 then Health else Energy in
    let pos := mkVec2 ((r_x rnd - 0.5) * (ARENA_SIZE - 6))
                      ((r_y rnd - 0.5) * (ARENA_SIZE - 6)) in
    if existsb (fun obs =>
                  distance pos (mkVec2 (vx (c_position obs)) (vy (c_position obs)))
                  <? c_radius obs + 2) (arena_circles s)
    then s
    else
      set_nextPickupId (S (nextPickupId s))
        (set_pickups
           (pickups s ++
              [ {| k_id := nextPickupId s; k_position := pos;
                   k_type := type; k_active := true |} ]) s).

Definition deactivatePickup (p : Pickup) : Pickup :=
  mkPickup (k_id p) (k_position p) (k_type p) false.

Definition grantPickup (t : PickupType) (bot : BotData) : BotData :=
  match t with
  | Health => set_hp (Z.min BOT_HP (hp bot + HEALTH_PICKUP_AMOUNT)) bot
  | Energy => set_energy (Z.min BOT_ENERGY (energy bot + ENERGY_PICKUP_AMOUNT)) bot
  end.

(** The body of the inner loop of [checkPickups]: there is no [break], so
    every bot in reach collects the pickup of this round. *)
Definition collectPickup (pi : nat) (pk : Pickup) (s : GameState) (bi : nat)
  : GameState :=
  match bots s !! bi with
  | Some bot =>
      if distance (position bot) (k_position pk) <? PICKUP_RADIUS + 1.0 then
        let s := set_pickups (alter deactivatePickup pi (pickups s)) s in
        let s := upd_bot bi (grantPickup (k_type pk)) s in
        push_event
          {| e_type := pickup; e_attacker := None; e_target := Some (id bot);
             e_damage := None;
             e_position := Some (mkVec2 (vx (k_position pk)) (vy (k_position pk)));
             e_text := name bot +:+ " picked up " +:+ pickup_name (k_type pk) +:+ "!" |}
          s
      else s
  | None => s
  end.

Definition checkPickup (s : GameState) (pi : nat) : GameState :=
  match pickups s !! pi with
  | Some pk =>
      if k_active pk
      then fold_left (collectPickup pi pk) (seq 0 (length (bots s))) s
      else s
  | None => s
  end.

Definition checkPickups (s : GameState) : GameState :=
  fold_left checkPickup (seq 0 (length (pickups s))) s.

Definition addTrap (ownerId : nat) (pos : Vec2) (s : GameState) : GameState :=
  set_nextTrapId (S (nextTrapId s))
    (set_traps
       (traps s ++
          [ {| t_id := nextTrapId s; t_ownerId := ownerId;
               t_position := mkVec2 (vx pos) (vy pos);
               t_lifetime := 0; t_active := true |} ]) s).

Definition ageTrap (t : TrapData) : TrapData :=
  mkTrap (t_id t) (t_ownerId t) (t_position t) (t_lifetime t + 1)%Z (t_active t).

Definition deactivateTrap (t : TrapData) : TrapData :=
  mkTrap (t_id t) (t_ownerId t) (t_position t) (t_lifetime t) false.

Definition trapVictim (dmg : Z) (now : Z) (bot : BotData) : BotData :=
  set_lastCombatTick now
    (set_status (set_slowed TRAP_SLOW_DURATION (status bot))
       (set_damageTaken (damageTaken bot + dmg)%Z
          (set_hp (hp bot - dmg)%Z bot))).

Definition creditDamage (dmg : Z) (now : Z) (bot : BotData) : BotData :=
  set_lastCombatTick now (set_damageDealt (damageDealt bot + dmg)%Z bot).

(** [this.bots.find(b => b.id === ownerId)], with the index it is at. *)
Definition findBotById (ownerId : nat) (s : GameState) : option (nat * BotData) :=
  list_find (fun b => id b = ownerId) (bots s).

(** The body of the inner loop of [checkTraps]. *)
Definition triggerTrap (ti : nat) (trap : TrapData) (s : GameState) (bi : nat)
  : GameState :=
  match bots s !! bi with
  | Some bot =>
      if Nat.eqb (id bot) (t_ownerId trap) then s
      else if distance (position bot) (t_position trap) <? TRAP_RADIUS + 1.0 then
        let s := set_traps (alter deactivateTrap ti (traps s)) s in
        let dmg := TRAP_DAMAGE in
        let s := upd_bot bi (trapVictim dmg (tick s)) s in
        let s := match findBotById (t_ownerId trap) s with
                 | Some (oi, _) => upd_bot oi (creditDamage dmg (tick s)) s
                 | None => s
                 end in
        push_event
          {| e_type := trap_trigger; e_attacker := Some (t_ownerId trap);
             e_target := Some (id bot); e_damage := Some dmg;
             e_position := Some (mkVec2 (vx (t_position trap)) (vy (t_position trap)));
             e_text := name bot +:+ " triggered a trap! -" +:+ Js.show dmg
                       +:+ " + slowed!" |}
          s
      else s
  | None => s
  end.

Definition checkTrap (s : GameState) (ti : nat) : GameState :=
  match traps s !! ti with
  | Some trap =>
      if t_active trap then
        let s := set_traps (alter ageTrap ti (traps s)) s in
        fold_left (triggerTrap ti trap) (seq 0 (length (bots s))) s
      else s
  | None => s
  end.

Definition checkTraps (s : GameState) : GameState :=
  fold_left checkTrap (seq 0 (length (traps s))) s.

Definition clearEvents (s : GameState) : GameState := set_events [] s.

End GameStateMethods.

(** ** src/engine/Combat.ts *)

Section Combat.
Local Open Scope float_scope.

Definition dec (z : Z) : Z := if (0 <? z)%Z then (z - 1)%Z else z.

Definition tickCooldowns (c : Cooldowns) : Cooldowns :=
  mkCooldowns (dec (cd_melee c)) (dec (cd_ranged c)) (dec (cd_special c))
              (dec (cd_dash c)) (dec (cd_heal c)) (dec (cd_trap c)).

(** [bot.actionsUsed[k] = (bot.actionsUsed[k] || 0) + 1] *)
Definition countUse (a : ActionKind) (bot : BotData) : BotData :=
  set_actionsUsed
    (<[action_name a := (default 0%Z (actionsUsed bot !! action_name a) + 1)%Z]>
       (actionsUsed bot)) bot.

(** The head of [processAction]: reset defending, tick the cooldowns and
    the attack commitment, regenerate energy. *)
Definition beginTurn (bot : BotData) : BotData :=
  set_energy (Z.min 100 (energy bot + ENERGY_REGEN))
    (set_status (set_attackCommit (dec (attackCommit (status bot)))
                   (set_shielded false (status bot)))
       (set_cooldowns (tickCooldowns (cooldowns bot))
          (set_isDefending false bot))).

Definition burnTick (now : Z) (bot : BotData) : BotData :=
  set_lastCombatTick now
    (set_damageTaken (damageTaken bot + BURN_DAMAGE)%Z
       (set_hp (hp bot - BURN_DAMAGE)%Z
          (set_status (set_burning (burning (status bot) - 1)%Z (status bot)) bot))).

Definition slowTick (bot : BotData) : BotData :=
  set_status (set_slowed (dec (slowed (status bot))) (status bot)) bot.

Definition oocRegen (now : Z) (bot : BotData) : BotData :=
  if (burning (status bot) =? 0)%Z && (OOC_REGEN_DELAY <=? now - lastCombatTick bot)%Z
  then set_hp (Z.min BOT_HP (hp bot + OOC_REGEN_RATE)) bot
  else bot.

Definition statusEffects (i : nat) (s : GameState) : GameState :=
  match bots s !! i with
  | Some bot =>
      let s :=
        if (0 <? burning (status bot))%Z then
          push_event
            {| e_type := burn_tick; e_attacker := None; e_target := Some (id bot);
               e_damage := Some BURN_DAMAGE;
               e_position := Some (mkVec2 (vx (position bot)) (vy (position bot)));
               e_text := name bot +:+ " is burning! -" +:+ Js.show BURN_DAMAGE |}
            (upd_bot i (burnTick (tick s)) s)
        else s in
      upd_bot i (oocRegen (tick s)) (upd_bot i slowTick s)
  | None => s
  end.

(** [if (enemy.isDefending) dmg = Math.round(dmg * DEFEND_REDUCTION)] *)
Definition defended (target : BotData) (dmg : Z) : Z :=
  if isDefending target then Js.round (Js.of_Z dmg * DEFEND_REDUCTION) else dmg.

Definition takeHit (dmg : Z) (now : Z) (bot : BotData) : BotData :=
  set_lastCombatTick now
    (set_damageTaken (damageTaken bot + dmg)%Z (set_hp (hp bot - dmg)%Z bot)).

Definition missEvent (bot : BotData) (text : string) : GameEvent :=
  {| e_type := miss; e_attacker := Some (id bot); e_target := None;
     e_damage := None;
     e_position := Some (mkVec2 (vx (position bot)) (vy (position bot)));
     e_text := name bot +:+ text |}.

(** The swing: what [processMelee] does between its gate and its range
    check. *)
Definition swingMelee (bot : BotData) : BotData :=
  set_momentum 0
    (set_status (set_attackCommit MELEE_COMMIT_TICKS (status bot))
       (countUse Melee
          (set_cooldowns (set_cd_melee MELEE_COOLDOWN (cooldowns bot))
             (set_energy (energy bot - MELEE_ENERGY)%Z bot)))).

(** [bot] is [state.bots[i]] and [enemy] is [state.bots[j]]. *)
Definition processMelee (i j : nat) (s : GameState) : GameState :=
  match bots s !! i, bots s !! j with
  | Some bot, Some enemy =>
      if (0 <? cd_melee (cooldowns bot))%Z || (energy bot <? MELEE_ENERGY)%Z then s
      else
        let s := upd_bot i swingMelee s in
        let dist := distance (position bot) (position enemy) in
        if Js.gtb dist MELEE_RANGE then
          push_event (missEvent bot " swings and misses!") s
        else
          let toEnemy := normalize (sub (position enemy) (position bot)) in
          let facingDot := dot (facing bot) toEnemy in
          if facingDot <? 0.3 then
            push_event (missEvent bot " swings in the wrong direction!") s
          else
            let dmg := defended enemy MELEE_DAMAGE in
            let s := upd_bot j (takeHit dmg (tick s)) s in
            let s := upd_bot i (creditDamage dmg (tick s)) s in
            push_event
              {| e_type := melee_hit; e_attacker := Some (id bot);
                 e_target := Some (id enemy); e_damage := Some dmg;
                 e_position :=
                   Some (mkVec2 (vx (position enemy)) (vy (position enemy)));
                 e_text := name bot +:+ " hits " +:+ name enemy +:+ " for "
                           +:+ Js.show dmg +:+ " melee damage!" |}
              s
  | _, _ => s
  end.

Definition fireRanged (bot : BotData) : BotData :=
  countUse Ranged
    (set_cooldowns (set_cd_ranged RANGED_COOLDOWN (cooldowns bot))
       (set_energy (energy bot - RANGED_ENERGY)%Z bot)).

Definition processRanged (i j : nat) (s : GameState) : GameState :=
  match bots s !! i with
  | Some bot =>
      if (0 <? cd_ranged (cooldowns bot))%Z || (energy bot <? RANGED_ENERGY)%Z then s
      else
        let s := upd_bot i fireRanged s in
        let vel := mkVec2 (vx (facing bot) * PROJECTILE_SPEED)
                          (vy (facing bot) * PROJECTILE_SPEED) in
        let s := addProjectile (id bot) (position bot) vel RANGED_DAMAGE s in
        push_event
          {| e_type := ranged_fire; e_attacker := Some (id bot); e_target := None;
             e_damage := None;
             e_position := Some (mkVec2 (vx (position bot)) (vy (position bot)));
             e_text := name bot +:+ " fires a shot!" |}
          s
  | None => s
  end.

Definition swingSpecial (bot : BotData) : BotData :=
  set_momentum 0
    (set_status (set_attackCommit SPECIAL_COMMIT_TICKS (status bot))
       (countUse Special
          (set_cooldowns (set_cd_special SPECIAL_COOLDOWN (cooldowns bot))
             (set_energy (energy bot - SPECIAL_ENERGY)%Z bot)))).

Definition burnHit (dmg : Z) (now : Z) (bot : BotData) : BotData :=
  set_lastCombatTick now
    (set_damageTaken (damageTaken bot + dmg)%Z
       (set_status (set_burning BURN_DURATION (status bot))
          (set_hp (hp bot - dmg)%Z bot))).

Definition processSpecial (i j : nat) (s : GameState) : GameState :=
  match bots s !! i, bots s !! j with
  | Some bot, Some enemy =>
      if (0 <? cd_special (cooldowns bot))%Z || (energy bot <? SPECIAL_ENERGY)%Z then s
      else
        let s := upd_bot i swingSpecial s in
        let dist := distance (position bot) (position enemy) in
        let s :=
          push_event
            {| e_type := special_use; e_attacker := Some (id bot); e_target := None;
               e_damage := None;
               e_position := Some (mkVec2 (vx (position bot)) (vy (position bot)));
               e_text := name bot +:+ " unleashes a SPECIAL attack!" |}
            s in
        if dist <=? SPECIAL_RANGE then
          let dmg := defended enemy SPECIAL_DAMAGE in
          let s := upd_bot j (burnHit dmg (tick s)) s in
          let s := upd_bot i (creditDamage dmg (tick s)) s in
          push_event
            {| e_type := special_hit; e_attacker := Some (id bot);
               e_target := Some (id enemy); e_damage := Some dmg;
               e_position := Some (mkVec2 (vx (position enemy)) (vy (position enemy)));
               e_text := name bot +:+ "'s special HITS " +:+ name enemy +:+ " for "
                         +:+ Js.show dmg +:+ "! " +:+ name enemy +:+ " is BURNING!" |}
            s
        else s
  | _, _ => s
  end.

Definition raiseShield (bot : BotData) : BotData :=
  countUse Defend
    (set_status (set_shielded true (status bot))
       (set_isDefending true
          (set_energy (energy bot - DEFEND_ENERGY_PER_TICK)%Z bot))).

Definition processDefend (i : nat) (s : GameState) : GameState :=
  match bots s !! i with
  | Some bot =>
      if (energy bot <? DEFEND_ENERGY_PER_TICK)%Z then s
      else upd_bot i raiseShield s
  | None => s
  end.

Definition dashForward (bot : BotData) : BotData :=
  set_position
    (mkVec2 (vx (position bot) + vx (facing bot) * DASH_DISTANCE)
            (vy (position bot) + vy (facing bot) * DASH_DISTANCE))
    (countUse Dash
       (set_cooldowns (set_cd_dash DASH_COOLDOWN (cooldowns bot))
          (set_energy (energy bot - DASH_ENERGY)%Z bot))).

Definition processDash (i : nat) (s : GameState) : GameState :=
  match bots s !! i with
  | Some bot =>
      if (0 <? cd_dash (cooldowns bot))%Z || (energy bot <? DASH_ENERGY)%Z then s
      else
        let s := upd_bot i dashForward s in
        push_event
          {| e_type := dash_use; e_attacker := Some (id bot); e_target := None;
             e_damage := None;
             e_position := Some (position (dashForward bot));
             e_text := name bot +:+ " dashes forward!" |}
          s
  | None => s
  end.

Definition healSelf (bot : BotData) : BotData :=
  set_hp (Z.min BOT_HP (hp bot + HEAL_AMOUNT))
    (countUse Heal
       (set_cooldowns (set_cd_heal HEAL_COOLDOWN (cooldowns bot))
          (set_energy (energy bot - HEAL_ENERGY)%Z bot))).

Definition processHeal (i : nat) (s : GameState) : GameState :=
  match bots s !! i with
  | Some bot =>
      if (0 <? cd_heal (cooldowns bot))%Z || (energy bot <? HEAL_ENERGY)%Z then s
      else
        let healed := Z.min HEAL_AMOUNT (BOT_HP - hp bot) in
        let s := upd_bot i healSelf s in
        push_event
          {| e_type := heal_use; e_attacker := Some (id bot); e_target := None;
             e_damage := Some healed;
             e_position := Some (mkVec2 (vx (position bot)) (vy (position bot)));
             e_text := name bot +:+ " heals for " +:+ Js.show healed +:+ " HP!" |}
          s
  | None => s
  end.

Definition layTrap (bot : BotData) : BotData :=
  countUse Trap
    (set_cooldowns (set_cd_trap TRAP_COOLDOWN (cooldowns bot))
       (set_energy (energy bot - TRAP_ENERGY)%Z bot)).

(** [state.traps.filter(t => t.ownerId === bot.id && t.active).length] *)
Definition activeTrapsOf (owner : nat) (s : GameState) : nat :=
  length (filter (fun t => t_ownerId t = owner /\ t_active t = true) (traps s)).

Definition processTrap (i : nat) (s : GameState) : GameState :=
  match bots s !! i with
  | Some bot =>
      if (0 <? cd_trap (cooldowns bot))%Z || (energy bot <? TRAP_ENERGY)%Z then s
      else if (TRAP_MAX_PER_BOT <=? activeTrapsOf (id bot) s)%nat then s
      else
        let s := upd_bot i layTrap s in
        let s := addTrap (id bot) (position bot) s in
        push_event
          {| e_type := trap_place; e_attacker := Some (id bot); e_target := None;
             e_damage := None;
             e_position := Some (mkVec2 (vx (position bot)) (vy (position bot)));
             e_text := name bot +:+ " placed a trap!" |}
          s
  | None => s
  end.

(** [state.bots.filter(b => b.id !== bot.id)[0]], with its index. *)
Definition firstEnemy (bot : BotData) (s : GameState) : option (nat * BotData) :=
  list_find (fun b => id b <> id bot) (bots s).

Definition processAction (i : nat) (act : option ActionKind) (s : GameState)
  : GameState :=
  match bots s !! i with
  | Some bot =>
      let s := statusEffects i (upd_bot i beginTurn s) in
      match act with
      | None => s
      | Some a =>
          match firstEnemy bot s with
          | None => s
          | Some (j, _) =>
              match a with
              | Melee => processMelee i j s
              | Ranged => processRanged i j s
              | Special => processSpecial i j s
              | Defend => processDefend i s
              | Dash => processDash i s
              | Heal => processHeal i s
              | Trap => processTrap i s
              end
          end
      end
  | None => s
  end.

(** The first bot in array order that a projectile hits: the inner loop of
    [processProjectileHits] skips the owner and breaks on the first hit. *)
Definition projectileTarget (proj : Projectile) (s : GameState)
  : option (nat * BotData) :=
  list_find (fun b => id b <> p_ownerId proj
                      /\ (distance (p_position proj) (position b) <? 1.3) = true)
            (bots s).

Definition shooterName (s : GameState) (proj : Projectile) : string :=
  match findBotById (p_ownerId proj) s with
  | Some (_, attacker) => name attacker
  | None => "undefined"
  end.

(** One projectile: the state after it, and whether it is kept. *)
Definition projectileHit (acc : GameState * list Projectile) (proj : Projectile)
  : GameState * list Projectile :=
  let '(s, remaining) := acc in
  match projectileTarget proj s with
  | Some (bi, bot) =>
      let dmg := defended bot (p_damage proj) in
      let s := upd_bot bi (takeHit dmg (tick s)) s in
      let s := match findBotById (p_ownerId proj) s with
               | Some (ai, _) => upd_bot ai (creditDamage dmg (tick s)) s
               | None => s
               end in
      (push_event
         {| e_type := ranged_hit; e_attacker := Some (p_ownerId proj);
            e_target := Some (id bot); e_damage := Some dmg;
            e_position := Some (mkVec2 (vx (p_position proj)) (vy (p_position proj)));
            e_text := shooterName s proj +:+ "'s shot hits " +:+ name bot +:+ " for "
                      +:+ Js.show dmg +:+ "!" |}
         s,
       remaining)
  | None => (s, remaining ++ [proj])
  end.

Definition processProjectileHits (s : GameState) : GameState :=
  let '(s, remaining) := fold_left projectileHit (projectiles s) (s, []) in
  set_projectiles remaining s.

(** The body of the loop of [checkKO]. *)
Definition knockOut (s : GameState) (i : nat) : GameState :=
  match bots s !! i with
  | Some bot =>
      if (hp bot <=? 0)%Z then
        let s := upd_bot i (set_hp 0%Z) s in
        let s := set_gameOver true s in
        let s := set_winner
                   (match firstEnemy bot s with
                    | Some (_, w) => Some (id w)
                    | None => None
                    end) s in
        push_event
          {| e_type := ko; e_attacker := None; e_target := Some (id bot);
             e_damage := None; e_position := None;
             e_text := name bot +:+ " has been KNOCKED OUT!" |}
          s
      else s
  | None => s
  end.

Definition checkKO (s : GameState) : GameState :=
  fold_left knockOut (seq 0 (length (bots s))) s.

End Combat.

(** ** src/engine/GameLoop.ts *)

Module GameLoop.
Local Open Scope float_scope.

(** The loop object.  [tickTimer] and [lastTickTime] are wall-clock
    bookkeeping of the scheduler and of the renderer and are left out. *)
Record t := mk {
  state : GameState;
  running : bool;
  prevPositions : list Vec2;
  currPositions : list Vec2;
}.

Definition neutral : BotAction := mkBotAction (mkVec2 0 0) (mkVec2 0 0) None.

(** What one tick takes from outside the engine: the outcome of
    [await this.getAction(i, this.state)] for each bot ([None] when the
    promise rejects) and the values of [Math.random()]. *)
Record Input := mkInput {
  decisions : list (option BotAction);
  draws : Draws;
}.

(** The [try]/[catch] around [getAction]. *)
Definition actionOf (inp : Input) (i : nat) : BotAction :=
  match decisions inp !! i with
  | Some (Some a) => a
  | _ => neutral
  end.

Definition start (cfg : option ArenaConfig) (bot1Name bot2Name : string) : t :=
  let s := init cfg bot1Name bot2Name in
  {| state := s; running := true;
     prevPositions := map position (bots s);
     currPositions := map position (bots s) |}.

(** The body of the "apply actions" loop. *)
Definition applyAction (inp : Input) (s : GameState) (i : nat) : GameState :=
  let a := actionOf inp i in
  let terrain := option_map terrain (arenaConfig s) in
  let s := upd_bot i (fun bot => applyFacing (applyMovement bot (move a) terrain) (aim a)) s in
  processAction i (action a) s.

Definition physics (s : GameState) : GameState :=
  let dynObstacles := option_map obstacles (arenaConfig s) in
  let s := set_bots
             (map (fun bot => clampToBounds (resolveObstacleCollision bot dynObstacles))
                  (bots s)) s in
  match bots s !! 0%nat, bots s !! 1%nat with
  | Some a, Some b =>
      let '(a, b) := resolveBotCollision a b in
      set_bots (<[1%nat := b]> (<[0%nat := a]> (bots s))) s
  | _, _ => s
  end.

Definition botName (s : GameState) (i : nat) : string :=
  match bots s !! i with Some b => name b | None => "undefined" end.

(** The body of the loop that compares [prevVisible] with the recomputed
    [enemyVisible]. *)
Definition sightEvent (prevVisible : list bool) (s : GameState) (i : nat) : GameState :=
  let before := default false (prevVisible !! i) in
  let now := default false (enemyVisible s !! i) in
  if before && negb now then
    push_event
      {| e_type := lost_sight; e_attacker := Some i; e_target := Some (1 - i)%nat;
         e_damage := None; e_position := None;
         e_text := botName s i +:+ " lost sight of " +:+ botName s (1 - i) +:+ "!" |} s
  else if negb before && now then
    push_event
      {| e_type := gained_sight; e_attacker := Some i; e_target := Some (1 - i)%nat;
         e_damage := None; e_position := None;
         e_text := botName s i +:+ " spotted " +:+ botName s (1 - i) +:+ "!" |} s
  else s.

Definition visibility (s : GameState) : GameState :=
  let prevVisible := enemyVisible s in
  let s := updateVisibility s in
  fold_left (sightEvent prevVisible) [0%nat; 1%nat] s.

Definition moveProjectiles (s : GameState) : GameState :=
  processProjectileHits
    (set_projectiles
       (updateProjectiles (projectiles s) (option_map obstacles (arenaConfig s))) s).

Definition sweepTraps (s : GameState) : GameState :=
  set_traps
    (filter (fun t => t_active t = true /\ (t_lifetime t < TRAP_LIFETIME)%Z) (traps s)) s.

(** [if (this.state.tick >= MAX_TICKS && !this.state.gameOver)] *)
Definition checkMaxTicks (s : GameState) : GameState :=
  if (MAX_TICKS <=? tick s)%Z && negb (gameOver s) then
    let s := set_gameOver true s in
    match bots s with
    | a :: b :: _ =>
        if (hp b <? hp a)%Z then set_winner (Some (id a)) s
        else if (hp a <? hp b)%Z then set_winner (Some (id b)) s
        else set_winner None s
    | _ => s
    end
  else s.

(** The state that [tick] hands to [onTick]. *)
Definition stepState (inp : Input) (s : GameState) : GameState :=
  let s := clearEvents s in
  let s := set_tick (tick s + 1)%Z s in
  let s := fold_left (applyAction inp) (seq 0 (length (bots s))) s in
  let s := physics s in
  let s := visibility s in
  let s := moveProjectiles s in
  let s := checkPickups (trySpawnPickup (draws inp) s) in
  let s := sweepTraps (checkTraps s) in
  let s := checkKO s in
  checkMaxTicks s.

Definition tick (inp : Input) (g : t) : t :=
  if negb (running g) then g
  else
    let s := stepState inp (state g) in
    {| state := s;
       running := negb (gameOver s);
       prevPositions := map position (bots (state g));
       currPositions := map position (bots s) |}.

(** The loop driven by a finite script of inputs: one tick per entry, and
    nothing more once the match is over ([scheduleTick] is not called). *)
Definition run (inps : list Input) (g : t) : t := fold_left (fun g inp => tick inp g) inps g.

(** What the observer has seen: the event list of every tick that ran. *)
Fixpoint published (inps : list Input) (g : t) : list (list GameEvent) :=
  match inps with
  | [] => []
  | inp :: rest =>
      if running g then events (state (tick inp g)) :: published rest (tick inp g)
      else []
  end.

End GameLoop.

(** ** src/bots/bot-worker.ts: the sandboxed worker *)

Module Worker.

(** *** validateCode *)

(** [\w]: a letter, a digit or the underscore.  The source text is read as
    bytes; every byte of a character outside ASCII is a non-word character,
    as its UTF-16 code units are for the regular expressions below. *)
Definition is_word_char (c : ascii) : bool :=
  let n := nat_of_ascii c in
  ((48 <=? n) && (n <=? 57) || (65 <=? n) && (n <=? 90)
   || (97 <=? n) && (n <=? 122) || (n =? 95))%nat.

Definition is_word (c : option ascii) : bool :=
  match c with Some c => is_word_char c | None => false end.

(** [\b] between two neighbouring characters ([None] at either end of the
    text). *)
Definition word_boundary (before after : option ascii) : bool :=
  xorb (is_word before) (is_word after).

Definition head (s : string) : option ascii :=
  match s with String c _ => Some c | EmptyString => None end.

Fixpoint last (s : string) : option ascii :=
  match s with
  | EmptyString => None
  | String c EmptyString => Some c
  | String _ rest => last rest
  end.

(** [Some rest] when [s] is [lit] followed by [rest]. *)
Fixpoint strip_prefix (lit s : string) : option string :=
  match lit, s with
  | EmptyString, _ => Some s
  | String a lit', String b s' => if Ascii.eqb a b then strip_prefix lit' s' else None
  | String _ _, EmptyString => None
  end.

(** The seven expressions all have the shape [\b] literal, with or
    without a closing [\b]. *)
Record Pattern := mkPattern {
  source : string;
  literal : string;
  closing_boundary : bool;
}.

Definition DANGEROUS_PATTERNS : list Pattern :=
  [ mkPattern "\bpostMessage\b" "postMessage" true;
    mkPattern "\bself\." "self." false;
    mkPattern "\bsetInterval\b" "setInterval" true;
    mkPattern "\bsetTimeout\b" "setTimeout" true;
    mkPattern "\beval\b" "eval" true;
    mkPattern "\bFunction\b" "Function" true;
    mkPattern "\bimportScripts\b" "importScripts" true ].

(** Does the pattern match with its first character at the head of [s],
    [before] being the character in front of it? *)
Definition matches_here (p : Pattern) (before : option ascii) (s : string) : bool :=
  word_boundary before (head s)
  && match strip_prefix (literal p) s with
     | Some rest =>
         if closing_boundary p then word_boundary (last (literal p)) (head rest) else true
     | None => false
     end.

Fixpoint scan (p : Pattern) (before : option ascii) (s : string) : bool :=
  matches_here p before s
  || match s with
     | String c rest => scan p (Some c) rest
     | EmptyString => false
     end.

(** [pattern.test(code)] *)
Definition test (p : Pattern) (code : string) : bool := scan p None code.

Definition quote : string := String (ascii_of_nat 34) EmptyString.

Definition validateCode (code : string) : option string :=
  match List.find (fun p => test p code) DANGEROUS_PATTERNS with
  | Some p =>
      Some ("Blocked: code contains forbidden pattern " +:+ quote +:+ source p +:+ quote)
  | None => None
  end.

(** *** The values a think function can hand back

    Plain data: primitives and objects whose properties are data
    properties.  [JsObject] lists the own properties, the first entry of a
    key being the one that counts. *)
Inductive JsValue :=
  | JsUndefined
  | JsNull
  | JsBool (b : bool)
  | JsNumber (n : float)
  | JsString (s : string)
  | JsSymbol
  | JsObject (props : list (string * JsValue)).

Inductive ThinkOutcome :=
  | Returns (v : JsValue)
  | Throws
  | Hangs.

Inductive CompileResult (F : Type) :=
  | Compiled (fn : F)
  | CompileError (message : string).
Arguments Compiled {F} fn.
Arguments CompileError {F} message.

(** What the JavaScript engine contributes.  [Fn] is a compiled [think]
    closure; calling it yields an outcome and the closure as the call left
    it (the source text may keep variables next to [think]).
    [compileThinkFn] is [new Function(...)()] followed by the [typeof]
    check: the function, or the message of whatever was thrown; the model
    takes it as a function of the source text.  [stringToNumber] is
    [Number] applied to a string. *)
Class JsEngine := {
  Fn : Type;
  TickData : Type;
  call : Fn -> TickData -> ThinkOutcome * Fn;
  compileThinkFn : string -> CompileResult Fn;
  stringToNumber : string -> float;
}.

(** [v?.key]: [undefined] on [null], [undefined] and on every primitive
    (none of the keys read here exists on a wrapper prototype). *)
Definition get (v : JsValue) (key : string) : JsValue :=
  match v with
  | JsObject props =>
      match List.find (fun kv => String.eqb (fst kv) key) props with
      | Some kv => snd kv
      | None => JsUndefined
      end
  | _ => JsUndefined
  end.

(** [Number(v)]; [None] is the [TypeError] that a symbol raises.  A plain
    object converts through ["[object Object]"] to [NaN]. *)
Definition toNumber `{JsEngine} (v : JsValue) : option float :=
  match v with
  | JsUndefined => Some PrimFloat.nan
  | JsNull => Some PrimFloat.zero
  | JsBool b => Some (if b then PrimFloat.one else PrimFloat.zero)
  | JsNumber n => Some n
  | JsString s => Some (stringToNumber s)
  | JsSymbol => None
  | JsObject _ => Some PrimFloat.nan
  end.

(** [n || 0] on a number: 0, -0 and [NaN] are falsy. *)
Definition orZero (n : float) : float :=
  if PrimFloat.is_nan n || PrimFloat.eqb n PrimFloat.zero then PrimFloat.zero else n.

(** [Number(v) || 0] *)
Definition coerce `{JsEngine} (v : JsValue) : option float :=
  option_map orZero (toNumber v).

Definition ACTIONS : list ActionKind := [Melee; Ranged; Special; Defend; Dash; Heal; Trap].

(** [[...].includes(v) ? v : null]: [includes] compares with
    SameValueZero, so only the seven string literals pass. *)
Definition restrictAction (v : JsValue) : option ActionKind :=
  match v with
  | JsString s => List.find (fun a => String.eqb (action_name a) s) ACTIONS
  | _ => None
  end.

(** The "sanitize output" block; [None] when it throws. *)
Definition sanitize `{JsEngine} (result : JsValue) : option BotAction :=
  match coerce (get (get result "move") "x"), coerce (get (get result "move") "y"),
        coerce (get (get result "aim") "x"), coerce (get (get result "aim") "y") with
  | Some mx, Some my, Some ax, Some ay =>
      Some (mkBotAction (mkVec2 mx my) (mkVec2 ax ay) (restrictAction (get result "action")))
  | _, _, _, _ => None
  end.

Definition neutral : BotAction := GameLoop.neutral.

(** *** self.onmessage *)

(** [req] is not part of the message.  It records, for the statements
    below, which call of [getAction] a tick message was posted by and which
    tick message an action answers; no definition reads it. *)
Inductive ToWorker `{JsEngine} :=
  | MsgInit (code : string)
  | MsgRecompile (code : string)
  | MsgTick (req : nat) (data : TickData).

Inductive FromWorker :=
  | MsgReady
  | MsgError (error : string)
  | MsgRecompileError (error : string)
  | MsgRecompiled
  | MsgAction (req : nat) (act : BotAction).

(** The handler returns with a new [thinkFn] and the messages it posted, or
    it never returns. *)
Inductive Handled `{JsEngine} :=
  | Done (thinkFn : option Fn) (posted : list FromWorker)
  | Stuck.

Definition onmessage `{JsEngine} (m : ToWorker) (thinkFn : option Fn) : Handled :=
  match m with
  | MsgInit code =>
      match validateCode code with
      | Some validationError =>
          Done thinkFn [MsgError ("Init error: " +:+ validationError)]
      | None =>
          match compileThinkFn code with
          | Compiled fn => Done (Some fn) [MsgReady]
          | CompileError message => Done thinkFn [MsgError ("Init error: " +:+ message)]
          end
      end
  | MsgRecompile code =>
      match validateCode code with
      | Some validationError => Done thinkFn [MsgRecompileError validationError]
      | None =>
          match compileThinkFn code with
          | Compiled newFn => Done (Some newFn) [MsgRecompiled]
          | CompileError message =>
              Done thinkFn [MsgRecompileError ("Compile error: " +:+ message)]
          end
      end
  | MsgTick req data =>
      match thinkFn with
      | None => Done thinkFn [MsgAction req neutral]
      | Some fn =>
          match call fn data with
          | (Returns result, fn') =>
              match sanitize result with
              | Some act => Done (Some fn') [MsgAction req act]
              | None => Done (Some fn') [MsgAction req neutral]
              end
          | (Throws, fn') => Done (Some fn') [MsgAction req neutral]
          | (Hangs, _) => Stuck
          end
      end
  end.

End Worker.

(** ** src/bots/bot-worker.ts: the BotRunner class

    The runner and its workers talk through message queues, and the runner
    arms timers.  The model is a transition system: an [Event] is a call of
    one of the runner's methods, a worker handling the next message in its
    queue, the runner's event loop dispatching the next message a worker
    posted, or a timer firing.  Time is the order of the events: a timer
    can fire for as long as it is armed. *)

Module BotRunner.
Import Worker.

(** The closures that [worker.onmessage] is set to.  [p] names the promise
    the closure settles. *)
Inductive Handler :=
  | OnInit (p : nat)
  | OnTick
  | OnSwap (p : nat) (code : string) (originalHandler : Handler).

(** A worker: its global [thinkFn], the messages posted to it and by it
    that are still in flight, whether it is stuck in a call that never
    returns, and the [onmessage] property of the runner's [Worker] object. *)
Record Proc `{JsEngine} := mkProc {
  thinkFn : option Fn;
  inbox : list ToWorker;
  outbox : list FromWorker;
  hung : bool;
  onmessage : Handler;
}.
Arguments mkProc {_} _ _ _ _ _.

Inductive Timer :=
  | ActionTimer (botId : nat)
  | SwapTimer
  | InitTimer.

(** The runner.  [workers] and [ready] are sparse arrays and
    [pendingActions] and [currentCode] are [Map]s keyed by the bot id.  A
    resolver stored in [pendingActions] is named by the request whose
    promise it settles.  [actionResults], [swapResults] and [initResults]
    hold the settled promises of [getAction], [hotSwapCode] and [initBot]
    ([Some message] for a rejection). *)
Record t `{JsEngine} := mk {
  workers : gmap nat Proc;
  pendingActions : gmap nat nat;
  ready : gmap nat bool;
  currentCode : gmap nat string;
  timers : gmap nat Timer;
  actionResults : gmap nat BotAction;
  swapResults : gmap nat bool;
  initResults : gmap nat (option string);
  nextId : nat;
}.
Arguments mk {_} _ _ _ _ _ _ _ _ _.

Section Runner.
Context `{JsEngine}.

Definition set_thinkFn (v : _) (w : Proc) : Proc :=
  mkProc v (inbox w) (outbox w) (hung w) (onmessage w).
Definition set_inbox (v : _) (w : Proc) : Proc :=
  mkProc (thinkFn w) v (outbox w) (hung w) (onmessage w).
Definition set_outbox (v : _) (w : Proc) : Proc :=
  mkProc (thinkFn w) (inbox w) v (hung w) (onmessage w).
Definition set_hung (v : _) (w : Proc) : Proc :=
  mkProc (thinkFn w) (inbox w) (outbox w) v (onmessage w).
Definition set_onmessage (v : _) (w : Proc) : Proc :=
  mkProc (thinkFn w) (inbox w) (outbox w) (hung w) v.

Definition set_workers (v : _) (h : t) : t :=
  mk v (pendingActions h) (ready h) (currentCode h) (timers h) (actionResults h)
    (swapResults h) (initResults h) (nextId h).
Definition set_pendingActions (v : _) (h : t) : t :=
  mk (workers h) v (ready h) (currentCode h) (timers h) (actionResults h)
    (swapResults h) (initResults h) (nextId h).
Definition set_ready (v : _) (h : t) : t :=
  mk (workers h) (pendingActions h) v (currentCode h) (timers h) (actionResults h)
    (swapResults h) (initResults h) (nextId h).
Definition set_currentCode (v : _) (h : t) : t :=
  mk (workers h) (pendingActions h) (ready h) v (timers h) (actionResults h)
    (swapResults h) (initResults h) (nextId h).
Definition set_timers (v : _) (h : t) : t :=
  mk (workers h) (pendingActions h) (ready h) (currentCode h) v (actionResults h)
    (swapResults h) (initResults h) (nextId h).
Definition set_actionResults (v : _) (h : t) : t :=
  mk (workers h) (pendingActions h) (ready h) (currentCode h) (timers h) v
    (swapResults h) (initResults h) (nextId h).
Definition set_swapResults (v : _) (h : t) : t :=
  mk (workers h) (pendingActions h) (ready h) (currentCode h) (timers h)
    (actionResults h) v (initResults h) (nextId h).
Definition set_initResults (v : _) (h : t) : t :=
  mk (workers h) (pendingActions h) (ready h) (currentCode h) (timers h)
    (actionResults h) (swapResults h) v (nextId h).
Definition set_nextId (v : _) (h : t) : t :=
  mk (workers h) (pendingActions h) (ready h) (currentCode h) (timers h)
    (actionResults h) (swapResults h) (initResults h) v.

Definition empty : t :=
  {| workers := ∅; pendingActions := ∅; ready := {[ 0%nat := false; 1%nat := false ]};
     currentCode := ∅; timers := ∅; actionResults := ∅; swapResults := ∅;
     initResults := ∅; nextId := 0 |}.

(** A promise is settled once; later calls of [resolve] or [reject] do
    nothing. *)
Definition settle {A} (p : nat) (v : A) (m : gmap nat A) : gmap nat A :=
  match m !! p with
  | Some _ => m
  | None => <[p := v]> m
  end.

Definition clearTimeout (p : nat) (h : t) : t := set_timers (delete p (timers h)) h.

Definition isReady (botId : nat) (h : t) : bool := default false (ready h !! botId).

(** [worker.postMessage(m)] *)
Definition postMessage (botId : nat) (m : ToWorker) (h : t) : t :=
  set_workers (alter (fun w => set_inbox (inbox w ++ [m]) w) botId (workers h)) h.

Definition setHandler (botId : nat) (f : Handler) (h : t) : t :=
  set_workers (alter (set_onmessage f) botId (workers h)) h.

Definition initBot (botId : nat) (code : string) (h : t) : t :=
  let p := nextId h in
  let h := set_nextId (S p) h in
  let h := set_workers (delete botId (workers h)) h in
  let h := set_currentCode (<[botId := code]> (currentCode h)) h in
  let worker := {| thinkFn := None; inbox := []; outbox := []; hung := false;
                   onmessage := OnInit p |} in
  let h := set_workers (<[botId := worker]> (workers h)) h in
  let h := set_timers (<[p := InitTimer]> (timers h)) h in
  postMessage botId (MsgInit code) h.

Definition getCode (botId : nat) (h : t) : option string := currentCode h !! botId.

Definition hotSwapCode (botId : nat) (code : string) (h : t) : t :=
  let p := nextId h in
  let h := set_nextId (S p) h in
  match workers h !! botId with
  | Some worker =>
      if negb (isReady botId h) then set_swapResults (settle p false (swapResults h)) h
      else
        let h := set_timers (<[p := SwapTimer]> (timers h)) h in
        let originalHandler := onmessage worker in
        let h := setHandler botId (OnSwap p code originalHandler) h in
        postMessage botId (MsgRecompile code) h
  | None => set_swapResults (settle p false (swapResults h)) h
  end.

Definition getAction (botId : nat) (data : TickData) (h : t) : t :=
  let r := nextId h in
  let h := set_nextId (S r) h in
  match workers h !! botId with
  | Some worker =>
      if negb (isReady botId h)
      then set_actionResults (settle r neutral (actionResults h)) h
      else
        let h := set_timers (<[r := ActionTimer botId]> (timers h)) h in
        let h := set_pendingActions (<[botId := r]> (pendingActions h)) h in
        postMessage botId (MsgTick r data) h
  | None => set_actionResults (settle r neutral (actionResults h)) h
  end.

Definition terminate (h : t) : t :=
  set_currentCode ∅
    (set_ready {[ 0%nat := false; 1%nat := false ]}
       (set_workers ∅ h)).

(** The runner receives [m] from worker [botId] while [worker.onmessage]
    is [f]. *)
Fixpoint dispatch (f : Handler) (botId : nat) (m : FromWorker) (h : t) : t :=
  match f with
  | OnInit p =>
      match m with
      | MsgReady =>
          let h := clearTimeout p h in
          let h := set_ready (<[botId := true]> (ready h)) h in
          let h := setHandler botId OnTick h in
          set_initResults (settle p None (initResults h)) h
      | MsgError error =>
          let h := clearTimeout p h in
          set_initResults (settle p (Some error) (initResults h)) h
      | _ => h
      end
  | OnTick =>
      match m with
      | MsgAction _ act =>
          match pendingActions h !! botId with
          | Some r =>
              let h := set_pendingActions (delete botId (pendingActions h)) h in
              let h := clearTimeout r h in
              set_actionResults (settle r act (actionResults h)) h
          | None => h
          end
      | _ => h
      end
  | OnSwap p code originalHandler =>
      match m with
      | MsgRecompiled =>
          let h := clearTimeout p h in
          let h := set_currentCode (<[botId := code]> (currentCode h)) h in
          let h := setHandler botId originalHandler h in
          set_swapResults (settle p true (swapResults h)) h
      | MsgRecompileError _ =>
          let h := clearTimeout p h in
          let h := setHandler botId originalHandler h in
          set_swapResults (settle p false (swapResults h)) h
      | _ => dispatch originalHandler botId m h
      end
  end.

(** The event loop of the runner takes the next message of a worker. *)
Definition deliver (botId : nat) (h : t) : t :=
  match workers h !! botId with
  | Some worker =>
      match outbox worker with
      | m :: rest =>
          let h := set_workers (<[botId := set_outbox rest worker]> (workers h)) h in
          dispatch (onmessage worker) botId m h
      | [] => h
      end
  | None => h
  end.

(** The worker takes the next message posted to it. *)
Definition workerStep (botId : nat) (h : t) : t :=
  match workers h !! botId with
  | Some worker =>
      if hung worker then h
      else
        match inbox worker with
        | m :: rest =>
            match Worker.onmessage m (thinkFn worker) with
            | Done fn posted =>
                set_workers
                  (<[botId := set_outbox (outbox worker ++ posted)
                                (set_inbox rest (set_thinkFn fn worker))]> (workers h)) h
            | Stuck =>
                set_workers (<[botId := set_hung true (set_inbox rest worker)]> (workers h)) h
            end
        | [] => h
        end
  | None => h
  end.

Definition timerFires (p : nat) (h : t) : t :=
  match timers h !! p with
  | Some (ActionTimer botId) =>
      let h := clearTimeout p h in
      let h := set_pendingActions (delete botId (pendingActions h)) h in
      set_actionResults (settle p neutral (actionResults h)) h
  | Some SwapTimer =>
      let h := clearTimeout p h in
      set_swapResults (settle p false (swapResults h)) h
  | Some InitTimer =>
      let h := clearTimeout p h in
      set_initResults (settle p (Some "Worker init timeout") (initResults h)) h
  | None => h
  end.

Inductive Event :=
  | CallInitBot (botId : nat) (code : string)
  | CallHotSwapCode (botId : nat) (code : string)
  | CallGetAction (botId : nat) (data : TickData)
  | CallTerminate
  | WorkerStep (botId : nat)
  | Deliver (botId : nat)
  | TimerFires (p : nat).

Definition step (h : t) (e : Event) : t :=
  match e with
  | CallInitBot botId code => initBot botId code h
  | CallHotSwapCode botId code => hotSwapCode botId code h
  | CallGetAction botId data => getAction botId data h
  | CallTerminate => terminate h
  | WorkerStep botId => workerStep botId h
  | Deliver botId => deliver botId h
  | TimerFires p => timerFires p h
  end.

Definition run (h : t) (trace : list Event) : t := fold_left step trace h.

End Runner.
End BotRunner.

(** * Properties *)

(** ** The shape of the state *)

(** [init] installs bot 0 and bot 1, in this order, and no method adds,
    removes or renumbers a bot. *)
Definition two_bots (s : GameState) : Prop :=
  exists a b, bots s = [a; b] /\ id a = 0%nat /\ id b = 1%nat.

Lemma decide_ne_false (n : nat) (A : Type) (x y : A) :
  (if decide (n <> n) then x else y) = y.
Proof. destruct (decide (n <> n)); congruence. Qed.

(** ** Termination of the match *)

Definition koEvent (bot : BotData) : GameEvent :=
  {| e_type := ko; e_attacker := None; e_target := Some (id bot);
     e_damage := None; e_position := None;
     e_text := name bot +:+ " has been KNOCKED OUT!" |}.

(** C10.  When both bots are at hp <= 0 at the knockout check, the match
    is over, bot 0 is the winner (the verdict of the second round of the
    loop overwrites that of the first), one knockout event is pushed for
    each bot, in the order of the array, and both hp are exactly 0. *)
Theorem double_knockout_winner_is_bot0 (s : GameState) (a b : BotData) :
  bots s = [a; b] -> id a = 0%nat -> id b = 1%nat ->
  (hp a <= 0)%Z -> (hp b <= 0)%Z ->
  let s' := GameLoop.checkMaxTicks (checkKO s) in
  gameOver s' = true
  /\ winner s' = Some 0%nat
  /\ map hp (bots s') = [0; 0]%Z
  /\ events s' = events s ++ [koEvent a; koEvent b].
Proof.
  intros Hb Ha Hid Hpa Hpb.
  destruct s as [bs ps ks ts tk ev go w cfg lk vis n1 n2 n3]; simpl in Hb; subst bs.
  destruct a as [ia na ha ea pa fa va ca sa la ma da aa dda dta ua].
  destruct b as [ib nb hb eb pb fb vb cb sb lb mb db ab ddb dtb ub].
  simpl in *; subst ia ib.
  unfold checkKO, knockOut, GameLoop.checkMaxTicks; simpl.
  apply Z.leb_le in Hpa, Hpb. rewrite Hpa; simpl. rewrite Hpb; simpl.
  rewrite andb_false_r. simpl.
  rewrite <- app_assoc. simpl. auto.
Qed.

Lemma double_knockout_witness :
  let s := set_bots [set_hp 0%Z (createBot 0 "A" (vec2 0 0));
                     set_hp (-3)%Z (createBot 1 "B" (vec2 1 0))]
                    (init None "A" "B") in
  winner (GameLoop.checkMaxTicks (checkKO s)) = Some 0%nat.
Proof.
  intros s.
  refine (proj1 (proj2 (double_knockout_winner_is_bot0 s _ _ eq_refl eq_refl eq_refl _ _)));
    simpl; lia.
Defined.

(** C6.  With both bots above 0 hp when the tick counter has reached
    [MAX_TICKS], the match ends, the bot with more hp wins, and there is no
    winner exactly when the two hp are equal. *)
Theorem max_ticks_verdict (s : GameState) (a b : BotData) :
  bots s = [a; b] -> gameOver s = false ->
  (0 < hp a)%Z -> (0 < hp b)%Z -> (MAX_TICKS <= tick s)%Z ->
  let s' := GameLoop.checkMaxTicks (checkKO s) in
  gameOver s' = true
  /\ ((hp b < hp a)%Z -> winner s' = Some (id a))
  /\ ((hp a < hp b)%Z -> winner s' = Some (id b))
  /\ (winner s' = None <-> hp a = hp b)
  /\ map hp (bots s') = [hp a; hp b].
Proof.
  intros Hb Hgo Hpa Hpb Htk.
  destruct s as [bs ps ks ts tk ev go w cfg lk vis n1 n2 n3]; simpl in *; subst bs go.
  assert (Ea : (hp a <=? 0)%Z = false) by (apply Z.leb_gt; lia).
  assert (Eb : (hp b <=? 0)%Z = false) by (apply Z.leb_gt; lia).
  assert (Et : (MAX_TICKS <=? tk)%Z = true) by (apply Z.leb_le; lia).
  unfold checkKO, knockOut, GameLoop.checkMaxTicks; simpl.
  rewrite Ea; simpl. rewrite Eb; simpl. rewrite Et; simpl.
  destruct (Z.ltb_spec (hp b) (hp a)); simpl.
  { repeat split; intros; try reflexivity; try discriminate; lia. }
  destruct (Z.ltb_spec (hp a) (hp b)); simpl.
  { repeat split; intros; try reflexivity; try discriminate; lia. }
  repeat split; intros; try reflexivity; lia.
Qed.

Lemma max_ticks_verdict_witness :
  let s := set_tick MAX_TICKS (init None "A" "B") in
  winner (GameLoop.checkMaxTicks (checkKO s)) = None <-> BOT_HP = BOT_HP.
Proof.
  intros s.
  refine (proj1 (proj2 (proj2 (proj2
            (max_ticks_verdict s _ _ eq_refl eq_refl _ _ _)))));
    simpl; unfold BOT_HP, MAX_TICKS; lia.
Defined.

(** ** Bots keep their place and their id *)

Definition ids (s : GameState) : list nat := map id (bots s).

Lemma ids_alter (f : BotData -> BotData) (i : nat) (l : list BotData) :
  (forall b, id (f b) = id b) -> map id (alter f i l) = map id l.
Proof.
  intros Hf. revert i. induction l as [|b l IH]; intros [|i]; simpl; auto.
  - now rewrite Hf.
  - f_equal. apply IH.
Qed.

Lemma ids_upd_bot (f : BotData -> BotData) (i : nat) (s : GameState) :
  (forall b, id (f b) = id b) -> ids (upd_bot i f s) = ids s.
Proof. intros Hf. unfold ids, upd_bot; simpl. now apply ids_alter. Qed.

Lemma lookup_same_ids (l1 l2 : list BotData) (i : nat) (b : BotData) :
  map id l1 = map id l2 -> l2 !! i = Some b ->
  exists b', l1 !! i = Some b' /\ id b' = id b.
Proof.
  intros Hm Hl.
  assert (Hi : map id l2 !! i = Some (id b)) by (rewrite list_lookup_fmap, Hl; reflexivity).
  rewrite <- Hm, list_lookup_fmap in Hi.
  destruct (l1 !! i) as [b'|]; simpl in Hi; [|discriminate].
  exists b'. split; [reflexivity|congruence].
Qed.

Lemma ids_statusEffects (i : nat) (s : GameState) : ids (statusEffects i s) = ids s.
Proof.
  unfold statusEffects. destruct (bots s !! i) as [bot|]; [|reflexivity].
  rewrite !ids_upd_bot;
    try (intros b; unfold oocRegen; try case_match; reflexivity).
  destruct (0 <? burning (status bot))%Z; [|reflexivity].
  unfold ids, push_event; simpl. now apply ids_alter.
Qed.

Lemma traps_statusEffects (i : nat) (s : GameState) : traps (statusEffects i s) = traps s.
Proof.
  unfold statusEffects. destruct (bots s !! i) as [bot|]; [|reflexivity].
  now destruct (0 <? burning (status bot))%Z.
Qed.

(** ** The trap cap *)

Lemma processTrap_at_cap (s : GameState) (i : nat) (bot : BotData) :
  bots s !! i = Some bot ->
  (TRAP_MAX_PER_BOT <= activeTrapsOf (id bot) s)%nat ->
  processTrap i s = s.
Proof.
  intros Hb Hcap. unfold processTrap. rewrite Hb.
  case_match; [reflexivity|].
  apply Nat.leb_le in Hcap. now rewrite Hcap.
Qed.

(** C9.  A bot that owns [TRAP_MAX_PER_BOT] active traps (or more) and asks
    for a trap: [processTrap] returns the state it was given, so no energy
    is spent, no cooldown set, no trap placed and no event pushed; the whole
    of [processAction] then does what it does for no action at all. *)
Theorem trap_request_at_cap_is_noop (s : GameState) (i : nat) (bot : BotData) :
  bots s !! i = Some bot ->
  (TRAP_MAX_PER_BOT <= activeTrapsOf (id bot) s)%nat ->
  processTrap i s = s
  /\ processAction i (Some Trap) s = processAction i None s.
Proof.
  intros Hb Hcap. split; [now apply processTrap_at_cap with bot|].
  unfold processAction. rewrite Hb.
  set (s1 := statusEffects i (upd_bot i beginTurn s)).
  destruct (firstEnemy bot s1) as [[j e]|]; [|reflexivity].
  assert (Hids : map id (bots s1) = map id (bots s)).
  { unfold s1. fold (ids (statusEffects i (upd_bot i beginTurn s))).
    rewrite ids_statusEffects. now apply ids_upd_bot. }
  destruct (lookup_same_ids _ _ i bot Hids Hb) as (bot' & Hb' & Hid).
  apply processTrap_at_cap with bot'; [assumption|].
  rewrite Hid. unfold activeTrapsOf, s1. now rewrite traps_statusEffects.
Qed.

Definition threeTraps : GameState :=
  addTrap 0 (vec2 0 0) (addTrap 0 (vec2 1 1) (addTrap 1 (vec2 2 2) (init None "A" "B"))).

Lemma trap_request_at_cap_witness :
  processTrap 0 threeTraps = threeTraps
  /\ processAction 0 (Some Trap) threeTraps = processAction 0 None threeTraps.
Proof.
  apply (trap_request_at_cap_is_noop threeTraps 0 (createBot 0 "A" (vec2 (-10) 0))).
  - reflexivity.
  - vm_compute. lia.
Defined.

(** ** Swings that miss *)

Section Swings.
Local Open Scope float_scope.

(** [processMelee]'s range check and facing check, as it evaluates them. *)
Definition meleeOutOfRange (bot enemy : BotData) : bool :=
  Js.gtb (distance (position bot) (position enemy)) MELEE_RANGE.

Definition meleeOffArc (bot enemy : BotData) : bool :=
  dot (facing bot) (normalize (sub (position enemy) (position bot))) <? 0.3.

Definition specialInRange (bot enemy : BotData) : bool :=
  distance (position bot) (position enemy) <=? SPECIAL_RANGE.

Definition specialUseEvent (bot : BotData) : GameEvent :=
  {| e_type := special_use; e_attacker := Some (id bot); e_target := None;
     e_damage := None;
     e_position := Some (mkVec2 (vx (position bot)) (vy (position bot)));
     e_text := name bot +:+ " unleashes a SPECIAL attack!" |}.

Definition meleeGate (bot : BotData) : Prop :=
  cd_melee (cooldowns bot) = 0%Z /\ (MELEE_ENERGY <= energy bot)%Z.

Definition specialGate (bot : BotData) : Prop :=
  cd_special (cooldowns bot) = 0%Z /\ (SPECIAL_ENERGY <= energy bot)%Z.

Lemma meleeGate_open (bot : BotData) :
  meleeGate bot ->
  (0 <? cd_melee (cooldowns bot))%Z || (energy bot <? MELEE_ENERGY)%Z = false.
Proof.
  intros [Hc He]. rewrite Hc. simpl. apply Z.ltb_ge. exact He.
Qed.

Lemma specialGate_open (bot : BotData) :
  specialGate bot ->
  (0 <? cd_special (cooldowns bot))%Z || (energy bot <? SPECIAL_ENERGY)%Z = false.
Proof.
  intros [Hc He]. rewrite Hc. simpl. apply Z.ltb_ge. exact He.
Qed.

(** A melee that passes its gate and misses: the attacker has swung (and
    nothing else in [bots] has changed) and one miss event is pushed. *)
Lemma melee_miss (s : GameState) (i j : nat) (bot enemy : BotData) :
  bots s !! i = Some bot -> bots s !! j = Some enemy ->
  meleeGate bot ->
  meleeOutOfRange bot enemy = true \/ meleeOffArc bot enemy = true ->
  bots (processMelee i j s) = alter swingMelee i (bots s)
  /\ exists text, events (processMelee i j s) = events s ++ [missEvent bot text].
Proof.
  intros Hb He Hg Hmiss. unfold processMelee. rewrite Hb, He, (meleeGate_open _ Hg).
  fold (meleeOutOfRange bot enemy) (meleeOffArc bot enemy).
  destruct (meleeOutOfRange bot enemy).
  - split; [reflexivity|]. now eexists.
  - destruct Hmiss as [Hr|Hf]; [discriminate|]. rewrite Hf.
    split; [reflexivity|]. now eexists.
Qed.

(** A special that passes its gate and is out of range: the attacker has
    swung, nothing else in [bots] has changed, and the one event pushed is
    [special_use]. *)
Lemma special_out_of_range (s : GameState) (i j : nat) (bot enemy : BotData) :
  bots s !! i = Some bot -> bots s !! j = Some enemy ->
  specialGate bot -> specialInRange bot enemy = false ->
  bots (processSpecial i j s) = alter swingSpecial i (bots s)
  /\ events (processSpecial i j s) = events s ++ [specialUseEvent bot].
Proof.
  intros Hb He Hg Hr. unfold processSpecial. rewrite Hb, He, (specialGate_open _ Hg).
  fold (specialInRange bot enemy). rewrite Hr. split; reflexivity.
Qed.

(** A special that passes its gate and is in range hits, wherever the
    attacker faces: [processSpecial] has no facing check. *)
Lemma special_in_range (s : GameState) (i j : nat) (bot enemy : BotData) :
  bots s !! i = Some bot -> bots s !! j = Some enemy -> i <> j ->
  specialGate bot -> specialInRange bot enemy = true ->
  let dmg := defended enemy SPECIAL_DAMAGE in
  bots (processSpecial i j s) !! i
    = Some (creditDamage dmg (tick s) (swingSpecial bot))
  /\ bots (processSpecial i j s) !! j = Some (burnHit dmg (tick s) enemy)
  /\ map e_type (events (processSpecial i j s))
     = map e_type (events s) ++ [special_use; special_hit].
Proof.
  intros Hb He Hij Hg Hr dmg. unfold processSpecial.
  rewrite Hb, He, (specialGate_open _ Hg).
  fold (specialInRange bot enemy). rewrite Hr. fold dmg.
  unfold upd_bot, push_event; simpl. repeat split.
  - rewrite list_lookup_alter_eq, list_lookup_alter_ne, list_lookup_alter_eq, Hb by congruence.
    reflexivity.
  - rewrite list_lookup_alter_ne, list_lookup_alter_eq, list_lookup_alter_ne, He
      by congruence.
    reflexivity.
  - rewrite !map_app. simpl. now rewrite <- app_assoc.
Qed.

(** C1, as the code has it.  Melee: a swing that passes the gate and fails
    the range check or the facing check pushes one miss event, and the
    attacker has paid [MELEE_ENERGY], has its melee cooldown set, is
    committed for [MELEE_COMMIT_TICKS] > 0 ticks and has no momentum.
    Special: a swing that passes the gate always pays [SPECIAL_ENERGY], sets
    the cooldown, commits for [SPECIAL_COMMIT_TICKS] > 0 ticks and zeroes
    momentum; out of range the only event is [special_use] (no miss event)
    and no bot but the attacker changes.  Special has no facing check. *)
Theorem swing_commits_hit_or_miss (s : GameState) (i j : nat) (bot enemy : BotData) :
  bots s !! i = Some bot -> bots s !! j = Some enemy -> i <> j ->
  (meleeGate bot ->
   meleeOutOfRange bot enemy = true \/ meleeOffArc bot enemy = true ->
   let s' := processMelee i j s in
   (exists text, events s' = events s ++ [missEvent bot text])
   /\ exists bot', bots s' !! i = Some bot'
      /\ energy bot' = (energy bot - MELEE_ENERGY)%Z
      /\ cd_melee (cooldowns bot') = MELEE_COOLDOWN
      /\ attackCommit (status bot') = MELEE_COMMIT_TICKS
      /\ (0 < attackCommit (status bot'))%Z
      /\ momentum bot' = 0)
  /\
  (specialGate bot ->
   let s' := processSpecial i j s in
   (exists bot', bots s' !! i = Some bot'
      /\ energy bot' = (energy bot - SPECIAL_ENERGY)%Z
      /\ cd_special (cooldowns bot') = SPECIAL_COOLDOWN
      /\ attackCommit (status bot') = SPECIAL_COMMIT_TICKS
      /\ (0 < attackCommit (status bot'))%Z
      /\ momentum bot' = 0)
   /\ (specialInRange bot enemy = false ->
       events s' = events s ++ [specialUseEvent bot]
       /\ bots s' !! j = Some enemy)).
Proof.
  intros Hb He Hij. split.
  - intros Hg Hmiss s'.
    destruct (melee_miss s i j bot enemy Hb He Hg Hmiss) as [Hbots Hev].
    split; [exact Hev|]. exists (swingMelee bot). unfold s'.
    rewrite Hbots, list_lookup_alter_eq, Hb. repeat split.
  - intros Hg s'. split.
    + destruct (specialInRange bot enemy) eqn:Hr.
      * destruct (special_in_range s i j bot enemy Hb He Hij Hg Hr) as (Hi & _).
        eexists. split; [exact Hi|]. repeat split.
      * destruct (special_out_of_range s i j bot enemy Hb He Hg Hr) as [Hbots _].
        exists (swingSpecial bot). unfold s'.
        rewrite Hbots, list_lookup_alter_eq, Hb. repeat split.
    + intros Hr.
      destruct (special_out_of_range s i j bot enemy Hb He Hg Hr) as [Hbots Hev].
      split; [exact Hev|]. unfold s'.
      now rewrite Hbots, list_lookup_alter_ne by congruence.
Qed.

End Swings.

(** Bot 0 faces away from bot 1, which stands 20 units off: a melee from
    the initial state fails the range check (and the facing check). *)
Definition facingAway : GameState :=
  upd_bot 0 (set_facing (mkVec2 (-1) 0)) (init None "A" "B").

Lemma swing_commits_witness :
  (exists text,
     events (processMelee 0 1 facingAway)
     = events facingAway ++ [missEvent (set_facing (mkVec2 (-1) 0)
                                          (createBot 0 "A" (vec2 (-10) 0))) text])
  /\ events (processSpecial 0 1 facingAway)
     = events facingAway
       ++ [specialUseEvent (set_facing (mkVec2 (-1) 0) (createBot 0 "A" (vec2 (-10) 0)))].
Proof.
  pose proof (swing_commits_hit_or_miss facingAway 0 1
                (set_facing (mkVec2 (-1) 0) (createBot 0 "A" (vec2 (-10) 0)))
                (createBot 1 "B" (vec2 10 0)) eq_refl eq_refl
                ltac:(discriminate)) as [Hm Hs].
  split.
  - apply Hm.
    + split; [reflexivity|]. vm_compute. discriminate.
    + left. vm_compute. reflexivity.
  - apply Hs.
    + split; [reflexivity|]. vm_compute. discriminate.
    + vm_compute. reflexivity.
Defined.

(** C1 as stated fails for special.  From the initial state bot 0 passes the
    gate of special and bot 1 is out of range: the only event is
    [special_use], and no miss event is pushed.  And with bot 1 in range and
    bot 0 facing away from it, the special hits: there is no facing check
    to fail. *)
Definition closeBehind : GameState :=
  upd_bot 1 (set_position (mkVec2 (-5) 0)) facingAway.

Lemma special_miss_pushes_no_miss_event :
  let s := init None "A" "B" in
  (exists bot enemy,
     bots s !! 0%nat = Some bot /\ bots s !! 1%nat = Some enemy
     /\ specialGate bot /\ specialInRange bot enemy = false)
  /\ map e_type (events (processSpecial 0 1 s)) = [special_use]
  /\ ~ In miss (map e_type (events (processSpecial 0 1 s)))
  /\ (exists bot enemy,
        bots closeBehind !! 0%nat = Some bot /\ bots closeBehind !! 1%nat = Some enemy
        /\ specialGate bot /\ meleeOffArc bot enemy = true)
  /\ map e_type (events (processSpecial 0 1 closeBehind)) = [special_use; special_hit].
Proof.
  intros s. split; [|split; [|split; [|split]]].
  - eexists _, _. split; [reflexivity|]. split; [reflexivity|]. split.
    + split; [reflexivity|]. vm_compute. discriminate.
    + vm_compute. reflexivity.
  - vm_compute. reflexivity.
  - vm_compute. intros [H|[]]. discriminate H.
  - eexists _, _. split; [reflexivity|]. split; [reflexivity|]. split.
    + split; [reflexivity|]. vm_compute. discriminate.
    + vm_compute. reflexivity.
  - vm_compute. reflexivity.
Qed.

(** ** What the phases of a tick leave alone

    Every phase but the visibility phase keeps each bot in its place with
    its id, does not touch the visibility flags, the last-known positions,
    the arena or the tick counter, and only appends events that are not
    sight events. *)

Definition is_sight (t : EventType) : bool :=
  match t with lost_sight | gained_sight => true | _ => false end.

Definition no_sight (l : list GameEvent) : Prop :=
  Forall (fun e => is_sight (e_type e) = false) l.

Record frames (s s' : GameState) : Prop := mkFrames {
  fr_ids : ids s' = ids s;
  fr_visible : enemyVisible s' = enemyVisible s;
  fr_lastKnown : lastKnownEnemyPos s' = lastKnownEnemyPos s;
  fr_arena : arenaConfig s' = arenaConfig s;
  fr_tick : tick s' = tick s;
  fr_events : exists new, events s' = events s ++ new /\ no_sight new;
}.

Lemma frames_refl (s : GameState) : frames s s.
Proof.
  split; try reflexivity. exists []. split; [now rewrite app_nil_r|constructor].
Qed.

Lemma frames_trans (s1 s2 s3 : GameState) : frames s1 s2 -> frames s2 s3 -> frames s1 s3.
Proof.
  intros [A1 B1 C1 D1 E1 (n1 & F1 & G1)] [A2 B2 C2 D2 E2 (n2 & F2 & G2)].
  split; try congruence.
  exists (n1 ++ n2). split.
  - now rewrite F2, F1, app_assoc.
  - now apply Forall_app.
Qed.

Definition keeps_id (f : BotData -> BotData) : Prop := forall b, id (f b) = id b.

Lemma frames_upd_bot (f : BotData -> BotData) (i : nat) (s x : GameState) :
  keeps_id f -> frames s x -> frames s (upd_bot i f x).
Proof.
  intros Hf Hx. apply frames_trans with x; [assumption|].
  split; try reflexivity.
  - now apply ids_upd_bot.
  - exists []. split; [now rewrite app_nil_r|constructor].
Qed.

Lemma frames_push_event (e : GameEvent) (s x : GameState) :
  is_sight (e_type e) = false -> frames s x -> frames s (push_event e x).
Proof.
  intros He Hx. apply frames_trans with x; [assumption|].
  split; try reflexivity.
  exists [e]. split; [reflexivity|]. now repeat constructor.
Qed.

(** A change of a field that [frames] does not mention. *)
Lemma frames_other (s x y : GameState) :
  bots y = bots x -> events y = events x -> enemyVisible y = enemyVisible x ->
  lastKnownEnemyPos y = lastKnownEnemyPos x -> arenaConfig y = arenaConfig x ->
  tick y = tick x ->
  frames s x -> frames s y.
Proof.
  intros Hb He Hv Hl Ha Ht Hx. apply frames_trans with x; [assumption|].
  split; try assumption.
  - unfold ids. now rewrite Hb.
  - exists []. split; [now rewrite app_nil_r|constructor].
Qed.

Lemma frames_fold {A} (f : GameState -> A -> GameState) (l : list A) (s x : GameState) :
  (forall y a, frames s y -> frames s (f y a)) ->
  frames s x -> frames s (fold_left f l x).
Proof.
  intros Hf. revert x. induction l as [|a l IH]; intros x Hx; simpl; auto.
Qed.

Lemma keeps_id_compose (f g : BotData -> BotData) :
  keeps_id f -> keeps_id g -> keeps_id (fun b => f (g b)).
Proof. intros Hf Hg b. now rewrite Hf, Hg. Qed.

(** Every updater of the engine is built from field updates other than
    that of the id. *)
Ltac keeps_id_tac :=
  let b := fresh "b" in
  intros b;
  repeat first
    [ reflexivity
    | progress unfold oocRegen, grantPickup, applyFacing, pushOutOf
    | case_match ].

Lemma keeps_id_applyMovement (mv : Vec2) (terrain : option TerrainData) :
  keeps_id (fun b => applyMovement b mv terrain).
Proof. intros b. unfold applyMovement. repeat case_match; reflexivity. Qed.

Lemma keeps_id_resolveObstacleCollision (dyn : option (list ObstacleData)) :
  keeps_id (fun b => resolveObstacleCollision b dyn).
Proof.
  intros b. unfold resolveObstacleCollision.
  generalize (obstacle_circles dyn). intros l. revert b.
  induction l as [|o l IH]; intros b; simpl; [reflexivity|].
  rewrite IH. unfold pushOutOf. now case_match.
Qed.

Ltac frames_setter :=
  lazymatch goal with
  | |- frames _ (set_projectiles _ ?x) => apply (frames_other _ x)
  | |- frames _ (set_pickups _ ?x) => apply (frames_other _ x)
  | |- frames _ (set_traps _ ?x) => apply (frames_other _ x)
  | |- frames _ (set_nextProjectileId _ ?x) => apply (frames_other _ x)
  | |- frames _ (set_nextPickupId _ ?x) => apply (frames_other _ x)
  | |- frames _ (set_nextTrapId _ ?x) => apply (frames_other _ x)
  | |- frames _ (set_gameOver _ ?x) => apply (frames_other _ x)
  | |- frames _ (set_winner _ ?x) => apply (frames_other _ x)
  end; [reflexivity..|].

Ltac frames_tac :=
  repeat first
    [ assumption
    | apply frames_refl
    | apply frames_push_event; [reflexivity|]
    | apply frames_upd_bot; [solve [keeps_id_tac]|]
    | frames_setter
    | case_match ].

Lemma frames_statusEffects (i : nat) (s x : GameState) :
  frames s x -> frames s (statusEffects i x).
Proof. intros Hx. unfold statusEffects. frames_tac. Qed.

Lemma frames_processMelee (i j : nat) (s x : GameState) :
  frames s x -> frames s (processMelee i j x).
Proof. intros Hx. unfold processMelee. frames_tac. Qed.

Lemma frames_processRanged (i j : nat) (s x : GameState) :
  frames s x -> frames s (processRanged i j x).
Proof. intros Hx. unfold processRanged, addProjectile. frames_tac. Qed.

Lemma frames_processSpecial (i j : nat) (s x : GameState) :
  frames s x -> frames s (processSpecial i j x).
Proof. intros Hx. unfold processSpecial. frames_tac. Qed.

Lemma frames_processDefend (i : nat) (s x : GameState) :
  frames s x -> frames s (processDefend i x).
Proof. intros Hx. unfold processDefend. frames_tac. Qed.

Lemma frames_processDash (i : nat) (s x : GameState) :
  frames s x -> frames s (processDash i x).
Proof. intros Hx. unfold processDash. frames_tac. Qed.

Lemma frames_processHeal (i : nat) (s x : GameState) :
  frames s x -> frames s (processHeal i x).
Proof. intros Hx. unfold processHeal. frames_tac. Qed.

Lemma frames_processTrap (i : nat) (s x : GameState) :
  frames s x -> frames s (processTrap i x).
Proof. intros Hx. unfold processTrap, addTrap. frames_tac. Qed.

Lemma frames_processAction (i : nat) (act : option ActionKind) (s x : GameState) :
  frames s x -> frames s (processAction i act x).
Proof.
  intros Hx. unfold processAction.
  destruct (bots x !! i) as [bot|]; [|assumption].
  set (x1 := statusEffects i (upd_bot i beginTurn x)).
  assert (H1 : frames s x1).
  { apply frames_statusEffects. now apply frames_upd_bot. }
  destruct act as [a|]; [|assumption].
  destruct (firstEnemy bot x1) as [[j e]|]; [|assumption].
  destruct a; auto using frames_processMelee, frames_processRanged,
    frames_processSpecial, frames_processDefend, frames_processDash,
    frames_processHeal, frames_processTrap.
Qed.

Lemma frames_set_bots (l : list BotData) (s x : GameState) :
  map id l = map id (bots x) -> frames s x -> frames s (set_bots l x).
Proof.
  intros Hl Hx. apply frames_trans with x; [assumption|].
  split; try reflexivity; [exact Hl|].
  exists []. split; [now rewrite app_nil_r|constructor].
Qed.

Lemma ids_insert (l : list BotData) (i : nat) (b b' : BotData) :
  l !! i = Some b -> id b' = id b -> map id (<[i := b']> l) = map id l.
Proof.
  revert i. induction l as [|c l IH]; intros [|i] Hl Hid; simpl in *; try discriminate.
  - injection Hl as ->. now rewrite Hid.
  - f_equal. now apply IH.
Qed.

Lemma frames_applyAction (inp : GameLoop.Input) (i : nat) (s x : GameState) :
  frames s x -> frames s (GameLoop.applyAction inp x i).
Proof.
  intros Hx. unfold GameLoop.applyAction.
  apply frames_processAction, frames_upd_bot; [|assumption].
  intros b. unfold applyFacing. case_match; apply keeps_id_applyMovement.
Qed.

Lemma resolveBotCollision_ids (a b : BotData) :
  id (fst (resolveBotCollision a b)) = id a /\ id (snd (resolveBotCollision a b)) = id b.
Proof. unfold resolveBotCollision. case_match; split; reflexivity. Qed.

Lemma frames_physics (s x : GameState) : frames s x -> frames s (GameLoop.physics x).
Proof.
  intros Hx. unfold GameLoop.physics.
  set (x1 := set_bots _ x).
  assert (H1 : frames s x1).
  { apply frames_set_bots; [|assumption].
    rewrite map_map. apply map_ext. intros b. simpl.
    apply (keeps_id_resolveObstacleCollision _ b). }
  destruct (bots x1 !! 0%nat) as [a|] eqn:Ea; [|assumption].
  destruct (bots x1 !! 1%nat) as [b|] eqn:Eb; [|assumption].
  destruct (resolveBotCollision_ids a b) as [Ia Ib].
  destruct (resolveBotCollision a b) as [a' b']. simpl in Ia, Ib.
  apply frames_set_bots; [|assumption].
  rewrite (ids_insert _ 1 b b'); auto.
  - now apply ids_insert with a.
  - now rewrite list_lookup_insert_ne.
Qed.

Lemma frames_projectileHit (s : GameState) (acc : GameState * list Projectile)
    (proj : Projectile) :
  frames s (fst acc) -> frames s (fst (projectileHit acc proj)).
Proof.
  destruct acc as [x rem]. simpl. intros Hx. unfold projectileHit.
  destruct (projectileTarget proj x) as [[bi bot]|]; simpl; [|assumption].
  frames_tac.
Qed.

Lemma frames_moveProjectiles (s x : GameState) :
  frames s x -> frames s (GameLoop.moveProjectiles x).
Proof.
  intros Hx. unfold GameLoop.moveProjectiles, processProjectileHits.
  set (x1 := set_projectiles _ x).
  assert (H1 : frames s x1) by (unfold x1; frames_tac).
  assert (H2 : forall l acc, frames s (fst acc) ->
                 frames s (fst (fold_left projectileHit l acc))).
  { induction l as [|p l IH]; intros acc Hacc; simpl; [assumption|].
    apply IH. now apply frames_projectileHit. }
  specialize (H2 (projectiles x1) (x1, []) H1).
  destruct (fold_left projectileHit (projectiles x1) (x1, [])) as [x2 rem].
  simpl in H2. frames_tac.
Qed.

Lemma frames_trySpawnPickup (rnd : Draws) (s x : GameState) :
  frames s x -> frames s (trySpawnPickup rnd x).
Proof. intros Hx. unfold trySpawnPickup. frames_tac. Qed.

Lemma frames_checkPickups (s x : GameState) : frames s x -> frames s (checkPickups x).
Proof.
  intros Hx. unfold checkPickups. apply frames_fold; [|assumption].
  intros y pi Hy. unfold checkPickup.
  destruct (pickups y !! pi) as [pk|]; [|assumption].
  destruct (k_active pk); [|assumption].
  apply frames_fold; [|assumption].
  intros z bi Hz. unfold collectPickup. frames_tac.
Qed.

Lemma frames_checkTraps (s x : GameState) : frames s x -> frames s (checkTraps x).
Proof.
  intros Hx. unfold checkTraps. apply frames_fold; [|assumption].
  intros y ti Hy. unfold checkTrap.
  destruct (traps y !! ti) as [trap|]; [|assumption].
  destruct (t_active trap); [|assumption].
  apply frames_fold; [|frames_tac].
  intros z bi Hz. unfold triggerTrap. frames_tac.
Qed.

Lemma frames_sweepTraps (s x : GameState) : frames s x -> frames s (GameLoop.sweepTraps x).
Proof. intros Hx. unfold GameLoop.sweepTraps. frames_tac. Qed.

Lemma frames_checkKO (s x : GameState) : frames s x -> frames s (checkKO x).
Proof.
  intros Hx. unfold checkKO. apply frames_fold; [|assumption].
  intros y i Hy. unfold knockOut. frames_tac.
Qed.

Lemma frames_checkMaxTicks (s x : GameState) :
  frames s x -> frames s (GameLoop.checkMaxTicks x).
Proof. intros Hx. unfold GameLoop.checkMaxTicks. frames_tac. Qed.

(** ** Sight transitions *)

(** The value [updateVisibility] computes for a bot and its enemy. *)
Definition sees (x : GameState) (me enemy : BotData) : bool :=
  hasLineOfSight (position me) (position enemy) (arena_circles x)
  && isInFieldOfView (facing me) (position me) (position enemy) halfFovCos160.

(** The events the loop after [updateVisibility] pushes for bot [i], by the
    flag before and the flag now. *)
Definition transition (x : GameState) (i : nat) (before now : bool) : list GameEvent :=
  if before && negb now then
    [ {| e_type := lost_sight; e_attacker := Some i; e_target := Some (1 - i)%nat;
         e_damage := None; e_position := None;
         e_text := GameLoop.botName x i +:+ " lost sight of "
                   +:+ GameLoop.botName x (1 - i) +:+ "!" |} ]
  else if negb before && now then
    [ {| e_type := gained_sight; e_attacker := Some i; e_target := Some (1 - i)%nat;
         e_damage := None; e_position := None;
         e_text := GameLoop.botName x i +:+ " spotted "
                   +:+ GameLoop.botName x (1 - i) +:+ "!" |} ]
  else [].

Lemma visibility_spec (x : GameState) (a b : BotData) (v0 v1 : bool) (p0 p1 : Vec2) :
  bots x = [a; b] -> enemyVisible x = [v0; v1] -> lastKnownEnemyPos x = [p0; p1] ->
  let c0 := sees x a b in
  let c1 := sees x b a in
  let x' := GameLoop.visibility x in
  bots x' = bots x
  /\ arenaConfig x' = arenaConfig x
  /\ tick x' = tick x
  /\ enemyVisible x' = [c0; c1]
  /\ lastKnownEnemyPos x'
     = [ if c0 then mkVec2 (vx (position b)) (vy (position b)) else p0;
         if c1 then mkVec2 (vx (position a)) (vy (position a)) else p1 ]
  /\ events x' = events x ++ transition x 0 v0 c0 ++ transition x 1 v1 c1.
Proof.
  intros Hb Hv Hl c0 c1.
  destruct x as [bs ps ks ts tk ev go w cfg lk vis n1 n2 n3]; simpl in Hb, Hv, Hl.
  subst bs vis lk.
  unfold GameLoop.visibility, updateVisibility, updateVisibilityOf, canSee; simpl.
  unfold sees in c0, c1. unfold arena_circles in *. simpl in c0, c1 |- *.
  fold c0. destruct c0; simpl; fold c1; destruct c1; simpl;
    destruct v0, v1; simpl; repeat split;
    rewrite ?app_nil_r, <- ?app_assoc; reflexivity.
Qed.




(** The shape that [init] sets up and every tick keeps. *)
Definition well_formed (s : GameState) : Prop :=
  two_bots s /\ length (enemyVisible s) = 2%nat /\ length (lastKnownEnemyPos s) = 2%nat.

Lemma two_bots_ids (s : GameState) : two_bots s <-> ids s = [0; 1]%nat.
Proof.
  unfold two_bots, ids. split.
  - intros (a & b & -> & Ha & Hb). simpl. now rewrite Ha, Hb.
  - destruct (bots s) as [|a [|b [|c l]]]; simpl; try discriminate.
    intros [= Ha Hb]. now exists a, b.
Qed.

Lemma frames_two_bots (s s' : GameState) : frames s s' -> two_bots s -> two_bots s'.
Proof. intros F. rewrite !two_bots_ids. now rewrite (fr_ids _ _ F). Qed.

(** The tick up to the visibility phase, and from it on. *)
Definition beforeVisibility (inp : GameLoop.Input) (s : GameState) : GameState :=
  let s := set_tick (tick s + 1)%Z (clearEvents s) in
  GameLoop.physics (fold_left (GameLoop.applyAction inp) (seq 0 (length (bots s))) s).

Definition afterVisibility (inp : GameLoop.Input) (s : GameState) : GameState :=
  GameLoop.checkMaxTicks
    (checkKO
       (GameLoop.sweepTraps
          (checkTraps
             (checkPickups
                (trySpawnPickup (GameLoop.draws inp) (GameLoop.moveProjectiles s)))))).

Lemma stepState_phases (inp : GameLoop.Input) (s : GameState) :
  GameLoop.stepState inp s
  = afterVisibility inp (GameLoop.visibility (beforeVisibility inp s)).
Proof.
  unfold GameLoop.stepState, afterVisibility, beforeVisibility. cbv zeta. reflexivity.
Qed.

Lemma frames_beforeVisibility (inp : GameLoop.Input) (s : GameState) :
  frames (set_tick (tick s + 1)%Z (clearEvents s)) (beforeVisibility inp s).
Proof.
  unfold beforeVisibility. apply frames_physics, frames_fold; [|apply frames_refl].
  intros y i Hy. now apply frames_applyAction.
Qed.

Lemma frames_afterVisibility (inp : GameLoop.Input) (s : GameState) :
  frames s (afterVisibility inp s).
Proof.
  unfold afterVisibility.
  apply frames_checkMaxTicks, frames_checkKO, frames_sweepTraps, frames_checkTraps,
    frames_checkPickups, frames_trySpawnPickup, frames_moveProjectiles, frames_refl.
Qed.

(** One tick, seen from the visibility phase: the flags and the cache of the
    state handed to [onTick], and its events, in terms of the state [x] that
    [updateVisibility] ran on. *)
Lemma stepState_visibility (inp : GameLoop.Input) (s : GameState) :
  well_formed s ->
  exists x a b v0 v1 p0 p1 new1 new2,
    x = beforeVisibility inp s
    /\ bots x = [a; b]
    /\ enemyVisible s = [v0; v1] /\ lastKnownEnemyPos s = [p0; p1]
    /\ no_sight new1 /\ no_sight new2
    /\ ids (GameLoop.stepState inp s) = ids s
    /\ enemyVisible (GameLoop.stepState inp s) = [sees x a b; sees x b a]
    /\ lastKnownEnemyPos (GameLoop.stepState inp s)
       = [ if sees x a b then mkVec2 (vx (position b)) (vy (position b)) else p0;
           if sees x b a then mkVec2 (vx (position a)) (vy (position a)) else p1 ]
    /\ events (GameLoop.stepState inp s)
       = new1 ++ (transition x 0 v0 (sees x a b) ++ transition x 1 v1 (sees x b a))
         ++ new2.
Proof.
  intros (Htwo & Hlv & Hll).
  pose proof (frames_beforeVisibility inp s) as F1.
  rewrite stepState_phases.
  remember (beforeVisibility inp s) as x eqn:Hxdef.
  destruct F1 as [I1 V1 L1 A1 T1 (new1 & E1 & N1)].
  change (ids x = ids s) in I1.
  change (enemyVisible x = enemyVisible s) in V1.
  change (lastKnownEnemyPos x = lastKnownEnemyPos s) in L1.
  change (events x = [] ++ new1) in E1.
  assert (Hx : two_bots x).
  { apply two_bots_ids. rewrite I1. now apply two_bots_ids. }
  destruct Hx as (a & b & Hb & _ & _).
  destruct (enemyVisible s) as [|v0 [|v1 [|? ?]]] eqn:Ev; try discriminate Hlv.
  destruct (lastKnownEnemyPos s) as [|p0 [|p1 [|? ?]]] eqn:El; try discriminate Hll.
  destruct (visibility_spec x a b v0 v1 p0 p1 Hb V1 L1) as (B2 & A2 & T2 & V2 & L2 & E2).
  pose proof (frames_afterVisibility inp (GameLoop.visibility x)) as F3.
  remember (GameLoop.visibility x) as xv eqn:Hxv.
  remember (afterVisibility inp xv) as s' eqn:Hs'.
  destruct F3 as [I3 V3 L3 A3 T3 (new2 & E3 & N3)].
  exists x, a, b, v0, v1, p0, p1, new1, new2.
  split; [reflexivity|]. split; [exact Hb|].
  split; [reflexivity|]. split; [reflexivity|].
  split; [exact N1|]. split; [exact N3|].
  split; [rewrite I3; unfold ids; rewrite B2; exact I1|].
  split; [rewrite V3; exact V2|].
  split; [rewrite L3; exact L2|].
  rewrite E3, E2, E1. simpl. now rewrite <- !app_assoc.
Qed.



Lemma well_formed_stepState (inp : GameLoop.Input) (s : GameState) :
  well_formed s -> well_formed (GameLoop.stepState inp s).
Proof.
  intros Hwf.
  destruct (stepState_visibility inp s Hwf)
    as (x & a & b & v0 & v1 & p0 & p1 & new1 & new2 & _ & _ & _ & _ & _ & _
        & Hids & Hv & Hl & _).
  destruct Hwf as (Htwo & _ & _).
  split; [|split].
  - apply two_bots_ids. rewrite Hids. now apply two_bots_ids.
  - now rewrite Hv.
  - now rewrite Hl.
Qed.




(** ** Health and energy stay in range *)

(** What holds between any two statements of a tick: hp may have gone
    below 0 (it is clamped by [checkKO] at the end of the tick) but never
    above [BOT_HP]; energy is in range; every projectile in flight carries
    [RANGED_DAMAGE]. *)
Definition bot_ok (b : BotData) : Prop :=
  (hp b <= BOT_HP)%Z /\ (0 <= energy b <= BOT_ENERGY)%Z.

Definition proj_ok (p : Projectile) : Prop := p_damage p = RANGED_DAMAGE.

Definition bounded (s : GameState) : Prop :=
  Forall bot_ok (bots s) /\ Forall proj_ok (projectiles s).

(** What holds of the state a tick publishes. *)
Definition in_range (b : BotData) : Prop :=
  (0 <= hp b <= BOT_HP)%Z /\ (0 <= energy b <= BOT_ENERGY)%Z.

Definition published_ok (s : GameState) : Prop :=
  Forall in_range (bots s) /\ Forall proj_ok (projectiles s).

Lemma defended_nonneg (target : BotData) (dmg : Z) :
  dmg = MELEE_DAMAGE \/ dmg = SPECIAL_DAMAGE \/ dmg = RANGED_DAMAGE ->
  (0 <= defended target dmg)%Z.
Proof.
  unfold defended. intros [->|[->| ->]]; destruct (isDefending target);
    vm_compute; discriminate.
Qed.

Lemma bounded_upd_bot (f : BotData -> BotData) (i : nat) (x : GameState) :
  (forall b, bots x !! i = Some b -> bot_ok b -> bot_ok (f b)) ->
  bounded x -> bounded (upd_bot i f x).
Proof.
  intros Hf [Hb Hp]. split; [|exact Hp]. simpl. now apply Forall_alter.
Qed.

Lemma bounded_push_event (e : GameEvent) (x : GameState) :
  bounded x -> bounded (push_event e x).
Proof. intros H. exact H. Qed.

(** A change of a field other than [bots] and [projectiles]. *)
Lemma bounded_other (x y : GameState) :
  bots y = bots x -> projectiles y = projectiles x -> bounded x -> bounded y.
Proof. intros Hb Hp [H1 H2]. split; [now rewrite Hb|now rewrite Hp]. Qed.

Lemma bounded_fold {A} (f : GameState -> A -> GameState) (l : list A) (x : GameState) :
  (forall y a, bounded y -> bounded (f y a)) -> bounded x -> bounded (fold_left f l x).
Proof.
  intros Hf. revert x. induction l as [|a l IH]; intros x Hx; simpl; auto.
Qed.

(** The gate of a handler, once it is known to be open. *)
Ltac gate_facts :=
  repeat match goal with
    | H : (_ || _) = false |- _ => apply orb_false_elim in H; destruct H
    | H : (_ <? _)%Z = false |- _ => apply Z.ltb_ge in H
    | H : (_ <=? _)%Z = true |- _ => apply Z.leb_le in H
    | H : (_ <=? _)%Z = false |- _ => apply Z.leb_gt in H
    end.

Ltac unfold_consts :=
  unfold BOT_HP, BOT_ENERGY, ENERGY_REGEN, MELEE_ENERGY, RANGED_ENERGY, SPECIAL_ENERGY,
    DEFEND_ENERGY_PER_TICK, DASH_ENERGY, HEAL_ENERGY, TRAP_ENERGY, HEAL_AMOUNT,
    BURN_DAMAGE, OOC_REGEN_RATE, TRAP_DAMAGE, HEALTH_PICKUP_AMOUNT,
    ENERGY_PICKUP_AMOUNT in *.

(** [f] maps a bot that is in bounds to one that is: the goal of
    [bounded_upd_bot], with the bot the handler has read in the context. *)
Ltac bot_ok_tac :=
  let b := fresh "b" in
  let Hl := fresh "Hl" in
  let Hok := fresh "Hok" in
  intros b Hl Hok;
  try match goal with
    | H : bots ?x !! ?i = Some ?bot |- _ =>
        rewrite H in Hl; injection Hl as <-
    end;
  destruct Hok as (? & ? & ?);
  gate_facts;
  unfold bot_ok, oocRegen, grantPickup, dec;
  repeat case_match; simpl; unfold_consts; lia.

Ltac bounded_setter :=
  lazymatch goal with
  | |- bounded (set_pickups _ ?x) => apply (bounded_other x)
  | |- bounded (set_traps _ ?x) => apply (bounded_other x)
  | |- bounded (set_nextProjectileId _ ?x) => apply (bounded_other x)
  | |- bounded (set_nextPickupId _ ?x) => apply (bounded_other x)
  | |- bounded (set_nextTrapId _ ?x) => apply (bounded_other x)
  | |- bounded (set_gameOver _ ?x) => apply (bounded_other x)
  | |- bounded (set_winner _ ?x) => apply (bounded_other x)
  end; [reflexivity..|].

Ltac bounded_tac :=
  repeat first
    [ assumption
    | apply bounded_push_event
    | apply bounded_upd_bot; [solve [bot_ok_tac]|]
    | bounded_setter
    | case_match ].

Lemma bounded_takeHit (dmg now : Z) (i : nat) (x : GameState) :
  (0 <= dmg)%Z -> bounded x -> bounded (upd_bot i (takeHit dmg now) x).
Proof.
  intros Hd Hx. apply bounded_upd_bot; [|assumption].
  intros b _ (? & ? & ?). unfold bot_ok. simpl. lia.
Qed.

Lemma bounded_burnHit (dmg now : Z) (i : nat) (x : GameState) :
  (0 <= dmg)%Z -> bounded x -> bounded (upd_bot i (burnHit dmg now) x).
Proof.
  intros Hd Hx. apply bounded_upd_bot; [|assumption].
  intros b _ (? & ? & ?). unfold bot_ok. simpl. lia.
Qed.

Lemma bounded_statusEffects (i : nat) (x : GameState) :
  bounded x -> bounded (statusEffects i x).
Proof. intros Hx. unfold statusEffects. bounded_tac. Qed.

Lemma bounded_processMelee (i j : nat) (x : GameState) :
  bounded x -> bounded (processMelee i j x).
Proof.
  intros Hx. unfold processMelee.
  destruct (bots x !! i) as [bot|] eqn:Hb; [|assumption].
  destruct (bots x !! j) as [enemy|] eqn:He; [|assumption].
  destruct (_ || _)%bool eqn:Hg; [assumption|].
  assert (Hs : bounded (upd_bot i swingMelee x)) by bounded_tac.
  repeat case_match; try (apply bounded_push_event; assumption).
  apply bounded_push_event. apply bounded_upd_bot; [bot_ok_tac|].
  apply bounded_takeHit; [|assumption]. apply defended_nonneg. auto.
Qed.

Lemma bounded_addProjectile (owner : nat) (pos vel : Vec2) (x : GameState) :
  bounded x -> bounded (addProjectile owner pos vel RANGED_DAMAGE x).
Proof.
  intros [Hb Hp]. split; [exact Hb|]. simpl.
  apply Forall_app. split; [exact Hp|]. now repeat constructor.
Qed.

Lemma bounded_processRanged (i j : nat) (x : GameState) :
  bounded x -> bounded (processRanged i j x).
Proof.
  intros Hx. unfold processRanged.
  destruct (bots x !! i) as [bot|] eqn:Hb; [|assumption].
  destruct (_ || _)%bool eqn:Hg; [assumption|].
  apply bounded_push_event, bounded_addProjectile. bounded_tac.
Qed.

Lemma bounded_processSpecial (i j : nat) (x : GameState) :
  bounded x -> bounded (processSpecial i j x).
Proof.
  intros Hx. unfold processSpecial.
  destruct (bots x !! i) as [bot|] eqn:Hb; [|assumption].
  destruct (bots x !! j) as [enemy|] eqn:He; [|assumption].
  destruct (_ || _)%bool eqn:Hg; [assumption|].
  assert (Hs : bounded (upd_bot i swingSpecial x)) by bounded_tac.
  case_match; [|apply bounded_push_event; assumption].
  apply bounded_push_event. apply bounded_upd_bot; [bot_ok_tac|].
  apply bounded_burnHit; [|apply bounded_push_event; assumption].
  apply defended_nonneg. auto.
Qed.

Lemma bounded_processDefend (i : nat) (x : GameState) :
  bounded x -> bounded (processDefend i x).
Proof.
  intros Hx. unfold processDefend.
  destruct (bots x !! i) as [bot|] eqn:Hb; [|assumption].
  destruct (_ <? _)%Z eqn:Hg; [assumption|]. bounded_tac.
Qed.

Lemma bounded_processDash (i : nat) (x : GameState) :
  bounded x -> bounded (processDash i x).
Proof.
  intros Hx. unfold processDash.
  destruct (bots x !! i) as [bot|] eqn:Hb; [|assumption].
  destruct (_ || _)%bool eqn:Hg; [assumption|]. bounded_tac.
Qed.

Lemma bounded_processHeal (i : nat) (x : GameState) :
  bounded x -> bounded (processHeal i x).
Proof.
  intros Hx. unfold processHeal.
  destruct (bots x !! i) as [bot|] eqn:Hb; [|assumption].
  destruct (_ || _)%bool eqn:Hg; [assumption|]. bounded_tac.
Qed.

Lemma bounded_processTrap (i : nat) (x : GameState) :
  bounded x -> bounded (processTrap i x).
Proof.
  intros Hx. unfold processTrap.
  destruct (bots x !! i) as [bot|] eqn:Hb; [|assumption].
  destruct (_ || _)%bool eqn:Hg; [assumption|].
  case_match; [assumption|].
  apply bounded_push_event. unfold addTrap. bounded_tac.
Qed.

Lemma bounded_processAction (i : nat) (act : option ActionKind) (x : GameState) :
  bounded x -> bounded (processAction i act x).
Proof.
  intros Hx. unfold processAction.
  destruct (bots x !! i) as [bot|] eqn:Hb; [|assumption].
  set (x1 := statusEffects i (upd_bot i beginTurn x)).
  assert (H1 : bounded x1).
  { apply bounded_statusEffects. clear x1. bounded_tac. }
  destruct act as [a|]; [|assumption].
  destruct (firstEnemy bot x1) as [[j e]|]; [|assumption].
  destruct a; auto using bounded_processMelee, bounded_processRanged,
    bounded_processSpecial, bounded_processDefend, bounded_processDash,
    bounded_processHeal, bounded_processTrap.
Qed.

Lemma applyMovement_vitals (b : BotData) (mv : Vec2) (terrain : option TerrainData) :
  hp (applyMovement b mv terrain) = hp b /\ energy (applyMovement b mv terrain) = energy b.
Proof. unfold applyMovement. repeat case_match; split; reflexivity. Qed.

Lemma applyFacing_vitals (b : BotData) (am : Vec2) :
  hp (applyFacing b am) = hp b /\ energy (applyFacing b am) = energy b.
Proof. unfold applyFacing. case_match; split; reflexivity. Qed.

Lemma resolveObstacleCollision_vitals (b : BotData) (dyn : option (list ObstacleData)) :
  hp (resolveObstacleCollision b dyn) = hp b
  /\ energy (resolveObstacleCollision b dyn) = energy b.
Proof.
  unfold resolveObstacleCollision. generalize (obstacle_circles dyn). intros l.
  revert b. induction l as [|o l IH]; intros b; simpl; [now split|].
  destruct (IH (pushOutOf b o)) as [-> ->]. unfold pushOutOf. now case_match.
Qed.

Lemma resolveBotCollision_vitals (a b : BotData) :
  (hp (fst (resolveBotCollision a b)) = hp a
   /\ energy (fst (resolveBotCollision a b)) = energy a)
  /\ (hp (snd (resolveBotCollision a b)) = hp b
      /\ energy (snd (resolveBotCollision a b)) = energy b).
Proof. unfold resolveBotCollision. case_match; repeat split; reflexivity. Qed.

Lemma bot_ok_vitals (b b' : BotData) :
  hp b' = hp b /\ energy b' = energy b -> bot_ok b -> bot_ok b'.
Proof. unfold bot_ok. intros [-> ->]. auto. Qed.

Lemma bounded_applyAction (inp : GameLoop.Input) (i : nat) (x : GameState) :
  bounded x -> bounded (GameLoop.applyAction inp x i).
Proof.
  intros Hx. unfold GameLoop.applyAction.
  apply bounded_processAction, bounded_upd_bot; [|assumption].
  intros b _. apply bot_ok_vitals.
  destruct (applyFacing_vitals (applyMovement b (move (GameLoop.actionOf inp i))
                                  (option_map terrain (arenaConfig x)))
                               (aim (GameLoop.actionOf inp i))) as [-> ->].
  apply applyMovement_vitals.
Qed.

Lemma bounded_physics (x : GameState) : bounded x -> bounded (GameLoop.physics x).
Proof.
  intros [Hb Hp]. unfold GameLoop.physics.
  set (x1 := set_bots _ x).
  assert (H1 : bounded x1).
  { split; [|exact Hp]. simpl. apply Forall_fmap.
    eapply Forall_impl; [exact Hb|]. intros b Hok. simpl.
    eapply bot_ok_vitals; [|exact Hok].
    destruct (resolveObstacleCollision_vitals b (option_map obstacles (arenaConfig x)))
      as [E1 E2].
    now rewrite <- E1, <- E2. }
  destruct (bots x1 !! 0%nat) as [a|] eqn:Ea; [|assumption].
  destruct (bots x1 !! 1%nat) as [b|] eqn:Eb; [|assumption].
  destruct (resolveBotCollision_vitals a b) as [Va Vb].
  destruct (resolveBotCollision a b) as [a' b']. simpl in Va, Vb.
  destruct H1 as [H1 H2]. split; [|exact H2]. simpl.
  apply Forall_insert; [apply Forall_insert; [exact H1|]|].
  - eapply bot_ok_vitals; [exact Va|]. eapply Forall_lookup_1; eauto.
  - eapply bot_ok_vitals; [exact Vb|]. eapply Forall_lookup_1; eauto.
Qed.

Lemma proj_ok_updateProjectiles (ps : list Projectile)
    (dyn : option (list ObstacleData)) :
  Forall proj_ok ps -> Forall proj_ok (updateProjectiles ps dyn).
Proof.
  intros H. unfold updateProjectiles. apply Forall_forall. intros p Hp.
  apply list_elem_of_filter in Hp as [_ Hp].
  apply list_elem_of_fmap in Hp as (q & -> & Hq).
  rewrite Forall_forall in H. exact (H q Hq).
Qed.

Lemma bounded_projectileHit (acc : GameState * list Projectile) (proj : Projectile) :
  proj_ok proj -> bounded (fst acc) -> Forall proj_ok (snd acc) ->
  bounded (fst (projectileHit acc proj)) /\ Forall proj_ok (snd (projectileHit acc proj)).
Proof.
  destruct acc as [x rem]. simpl. intros Hp Hx Hrem. unfold projectileHit.
  destruct (projectileTarget proj x) as [[bi bot]|]; simpl.
  - split; [|assumption]. apply bounded_push_event.
    assert (Hd : (0 <= defended bot (p_damage proj))%Z).
    { apply defended_nonneg. rewrite Hp. auto. }
    pose proof (bounded_takeHit _ (tick x) bi x Hd Hx) as Hhit.
    case_match; [|assumption]. repeat case_match. bounded_tac.
  - split; [assumption|]. apply Forall_app. split; [assumption|]. now constructor.
Qed.

Lemma bounded_moveProjectiles (x : GameState) :
  bounded x -> bounded (GameLoop.moveProjectiles x).
Proof.
  intros [Hb Hp]. unfold GameLoop.moveProjectiles, processProjectileHits.
  set (ps := updateProjectiles _ _).
  assert (Hps : Forall proj_ok ps) by now apply proj_ok_updateProjectiles.
  set (x1 := set_projectiles ps x).
  assert (H1 : bounded x1) by (split; assumption).
  assert (H2 : forall l acc, Forall proj_ok l -> bounded (fst acc) ->
                 Forall proj_ok (snd acc) ->
                 bounded (fst (fold_left projectileHit l acc))
                 /\ Forall proj_ok (snd (fold_left projectileHit l acc))).
  { induction l as [|p l IH]; intros acc Hl Hacc Hrem; simpl; [now split|].
    inversion Hl as [|? ? Hp1 Hl1]; subst.
    destruct (bounded_projectileHit acc p Hp1 Hacc Hrem). now apply IH. }
  specialize (H2 (projectiles x1) (x1, []) Hps H1 (List.Forall_nil _)).
  destruct (fold_left projectileHit (projectiles x1) (x1, [])) as [x2 rem].
  simpl in H2. destruct H2 as [[B2 _] R2]. split; assumption.
Qed.

Lemma bounded_trySpawnPickup (rnd : Draws) (x : GameState) :
  bounded x -> bounded (trySpawnPickup rnd x).
Proof. intros Hx. unfold trySpawnPickup. bounded_tac. Qed.

Lemma bounded_checkPickups (x : GameState) : bounded x -> bounded (checkPickups x).
Proof.
  intros Hx. unfold checkPickups. apply bounded_fold; [|assumption].
  intros y pi Hy. unfold checkPickup.
  destruct (pickups y !! pi) as [pk|]; [|assumption].
  destruct (k_active pk); [|assumption].
  apply bounded_fold; [|assumption].
  intros z bi Hz. unfold collectPickup.
  destruct (bots z !! bi) as [bot|] eqn:Hb; [|assumption].
  case_match; [|assumption].
  apply bounded_push_event, bounded_upd_bot; [|bounded_tac].
  intros b _ (? & ? & ?). unfold bot_ok, grantPickup.
  destruct (k_type pk); simpl; unfold_consts; lia.
Qed.

Lemma bounded_checkTraps (x : GameState) : bounded x -> bounded (checkTraps x).
Proof.
  intros Hx. unfold checkTraps. apply bounded_fold; [|assumption].
  intros y ti Hy. unfold checkTrap.
  destruct (traps y !! ti) as [trap|]; [|assumption].
  destruct (t_active trap); [|assumption].
  apply bounded_fold; [|bounded_tac].
  intros z bi Hz. unfold triggerTrap.
  destruct (bots z !! bi) as [bot|] eqn:Hb; [|assumption].
  case_match; [assumption|]. case_match; [|assumption].
  apply bounded_push_event.
  assert (Hv : bounded (upd_bot bi (trapVictim TRAP_DAMAGE (tick z))
                          (set_traps (alter deactivateTrap ti (traps z)) z))).
  { apply bounded_upd_bot; [|bounded_tac].
    intros b _ (? & ? & ?). unfold bot_ok. simpl. unfold_consts. lia. }
  case_match; [|assumption]. repeat case_match. bounded_tac.
Qed.

Lemma bounded_sweepTraps (x : GameState) : bounded x -> bounded (GameLoop.sweepTraps x).
Proof. intros Hx. unfold GameLoop.sweepTraps. bounded_tac. Qed.

Lemma bounded_knockOut (x : GameState) (i : nat) : bounded x -> bounded (knockOut x i).
Proof.
  intros Hx. unfold knockOut.
  destruct (bots x !! i) as [bot|] eqn:Hb; [|assumption].
  case_match; [|assumption].
  apply bounded_push_event. bounded_setter. bounded_setter.
  apply bounded_upd_bot; [|assumption].
  intros b _ (? & ? & ?). unfold bot_ok. simpl. unfold_consts. lia.
Qed.

Lemma bounded_checkKO (x : GameState) : bounded x -> bounded (checkKO x).
Proof.
  intros Hx. unfold checkKO. apply bounded_fold; [|assumption].
  intros y i Hy. now apply bounded_knockOut.
Qed.

(** [checkKO] clamps: after it no bot has a negative hp. *)
Definition hp_nonneg_upto (k : nat) (y : GameState) : Prop :=
  forall i b, (i < k)%nat -> bots y !! i = Some b -> (0 <= hp b)%Z.

Lemma knockOut_length (y : GameState) (k : nat) :
  length (bots (knockOut y k)) = length (bots y).
Proof.
  unfold knockOut. repeat case_match; simpl; try reflexivity; apply length_alter.
Qed.

Lemma knockOut_step (y : GameState) (k : nat) :
  hp_nonneg_upto k y -> hp_nonneg_upto (S k) (knockOut y k).
Proof.
  intros Hy i b Hi Hl. unfold knockOut in Hl.
  destruct (bots y !! k) as [bot|] eqn:Hk.
  - destruct (hp bot <=? 0)%Z eqn:Hhp.
    + simpl in Hl. destruct (decide (i = k)) as [->|Hne].
      * rewrite list_lookup_alter_eq, Hk in Hl. injection Hl as <-. simpl. lia.
      * rewrite list_lookup_alter_ne in Hl by congruence. apply (Hy i b); [lia|exact Hl].
    + apply Z.leb_gt in Hhp. destruct (decide (i = k)) as [->|Hne].
      * rewrite Hk in Hl. injection Hl as <-. lia.
      * apply (Hy i b); [lia|exact Hl].
  - destruct (decide (i = k)) as [->|Hne]; [congruence|].
    apply (Hy i b); [lia|exact Hl].
Qed.

Lemma checkKO_upto (x : GameState) (n : nat) :
  hp_nonneg_upto n (fold_left knockOut (seq 0 n) x)
  /\ length (bots (fold_left knockOut (seq 0 n) x)) = length (bots x).
Proof.
  induction n as [|n [IH1 IH2]].
  - split; [|reflexivity]. intros i b Hi. lia.
  - rewrite seq_S, fold_left_app. simpl. split.
    + now apply knockOut_step.
    + now rewrite knockOut_length.
Qed.

Lemma checkKO_hp_nonneg (x : GameState) :
  Forall (fun b => (0 <= hp b)%Z) (bots (checkKO x)).
Proof.
  unfold checkKO. destruct (checkKO_upto x (length (bots x))) as [H1 H2].
  apply Forall_lookup. intros i b Hl. apply (H1 i b); [|exact Hl].
  rewrite <- H2. eapply lookup_lt_Some. exact Hl.
Qed.

Lemma checkMaxTicks_bots (x : GameState) :
  bots (GameLoop.checkMaxTicks x) = bots x
  /\ projectiles (GameLoop.checkMaxTicks x) = projectiles x.
Proof. unfold GameLoop.checkMaxTicks. repeat case_match; split; reflexivity. Qed.

Lemma published_ok_bounded (s : GameState) : published_ok s -> bounded s.
Proof.
  intros [Hb Hp]. split; [|exact Hp].
  eapply Forall_impl; [exact Hb|]. intros b [[_ H1] H2]. now split.
Qed.

Lemma bounded_beforeCheckKO (inp : GameLoop.Input) (s : GameState) :
  bounded s ->
  bounded (GameLoop.sweepTraps
             (checkTraps
                (checkPickups
                   (trySpawnPickup (GameLoop.draws inp)
                      (GameLoop.moveProjectiles
                         (GameLoop.visibility (beforeVisibility inp s))))))).
Proof.
  intros Hs.
  apply bounded_sweepTraps, bounded_checkTraps, bounded_checkPickups,
    bounded_trySpawnPickup, bounded_moveProjectiles.
  assert (Hv : forall x, bounded x -> bounded (GameLoop.visibility x)).
  { intros x Hx. unfold GameLoop.visibility, updateVisibility, updateVisibilityOf,
      GameLoop.sightEvent. simpl.
    repeat case_match; try assumption; try (apply bounded_push_event; assumption). }
  apply Hv. unfold beforeVisibility.
  apply bounded_physics, bounded_fold.
  - intros y i Hy. now apply bounded_applyAction.
  - exact Hs.
Qed.

Lemma published_ok_stepState (inp : GameLoop.Input) (s : GameState) :
  published_ok s -> published_ok (GameLoop.stepState inp s).
Proof.
  intros Hs. apply published_ok_bounded in Hs.
  pose proof (bounded_beforeCheckKO inp s Hs) as Hb.
  rewrite stepState_phases. unfold afterVisibility.
  remember (GameLoop.sweepTraps _) as x eqn:Hx. clear Hx.
  destruct (checkMaxTicks_bots (checkKO x)) as [E1 E2].
  destruct (bounded_checkKO x Hb) as [B1 B2].
  pose proof (checkKO_hp_nonneg x) as B3.
  split; [rewrite E1|rewrite E2; exact B2].
  apply Forall_forall. intros b Hin.
  rewrite Forall_forall in B1, B3.
  specialize (B1 b Hin). specialize (B3 b Hin). destruct B1 as [? ?].
  split; [split|]; assumption.
Qed.

Lemma published_ok_init (cfg : option ArenaConfig) (n1 n2 : string) :
  published_ok (init cfg n1 n2).
Proof.
  split; [|constructor]. simpl.
  repeat constructor; simpl; unfold BOT_HP, BOT_ENERGY; lia.
Qed.

Lemma published_ok_tick (inp : GameLoop.Input) (g : GameLoop.t) :
  published_ok (GameLoop.state g) -> published_ok (GameLoop.state (GameLoop.tick inp g)).
Proof.
  intros Hg. unfold GameLoop.tick.
  destruct (negb (GameLoop.running g)); [exact Hg|]. simpl.
  now apply published_ok_stepState.
Qed.

Lemma published_ok_run (inps : list GameLoop.Input) (g : GameLoop.t) :
  published_ok (GameLoop.state g) -> published_ok (GameLoop.state (GameLoop.run inps g)).
Proof.
  revert g. induction inps as [|inp inps IH]; intros g Hg; [exact Hg|].
  apply IH. now apply published_ok_tick.
Qed.

(** C5.  Whatever the arena, the decisions and the random draws, after any
    number of ticks from the start of a match the state the loop holds (the
    one it has handed to [onTick]) has every bot's hp in [0, BOT_HP] and
    every bot's energy in [0, BOT_ENERGY]. *)
Theorem hp_and_energy_in_range (cfg : option ArenaConfig) (n1 n2 : string)
    (inps : list GameLoop.Input) :
  Forall (fun b => (0 <= hp b <= BOT_HP)%Z /\ (0 <= energy b <= BOT_ENERGY)%Z)
         (bots (GameLoop.state (GameLoop.run inps (GameLoop.start cfg n1 n2)))).
Proof.
  apply (published_ok_run inps (GameLoop.start cfg n1 n2)).
  apply published_ok_init.
Qed.

(** ** Determinism *)

(** [trySpawnPickup] asks for random numbers only on a positive multiple of
    [PICKUP_INTERVAL]. *)
Definition spawnTick (t : Z) : bool :=
  (Z.rem t PICKUP_INTERVAL =? 0)%Z && negb (t =? 0)%Z.

(** Two inputs of the tick numbered [t] agree: the same decisions, and the
    same draws when [t] is a spawn tick. *)
Definition agree_at (t : Z) (i1 i2 : GameLoop.Input) : Prop :=
  GameLoop.decisions i1 = GameLoop.decisions i2
  /\ (spawnTick t = true -> GameLoop.draws i1 = GameLoop.draws i2).

(** Two scripts agree from the tick after [t] on. *)
Fixpoint agree_from (t : Z) (l1 l2 : list GameLoop.Input) : Prop :=
  match l1, l2 with
  | [], [] => True
  | i1 :: r1, i2 :: r2 => agree_at (t + 1) i1 i2 /\ agree_from (t + 1) r1 r2
  | _, _ => False
  end.

Lemma applyAction_decisions (i1 i2 : GameLoop.Input) (x : GameState) (i : nat) :
  GameLoop.decisions i1 = GameLoop.decisions i2 ->
  GameLoop.applyAction i1 x i = GameLoop.applyAction i2 x i.
Proof.
  intros H. unfold GameLoop.applyAction, GameLoop.actionOf. now rewrite H.
Qed.

Lemma beforeVisibility_decisions (i1 i2 : GameLoop.Input) (s : GameState) :
  GameLoop.decisions i1 = GameLoop.decisions i2 ->
  beforeVisibility i1 s = beforeVisibility i2 s.
Proof.
  intros H. unfold beforeVisibility. f_equal.
  generalize (set_tick (tick s + 1)%Z (clearEvents s)) at 2 4.
  generalize (seq 0 (length (bots (set_tick (tick s + 1)%Z (clearEvents s))))).
  induction l as [|i l IH]; intros x; simpl; [reflexivity|].
  now rewrite (applyAction_decisions i1 i2 x i H).
Qed.

Lemma tick_visibility (x : GameState) : tick (GameLoop.visibility x) = tick x.
Proof.
  unfold GameLoop.visibility, updateVisibility, updateVisibilityOf, GameLoop.sightEvent.
  simpl. repeat case_match; reflexivity.
Qed.

Lemma tick_beforeSpawn (inp : GameLoop.Input) (s : GameState) :
  tick (GameLoop.moveProjectiles (GameLoop.visibility (beforeVisibility inp s)))
  = (tick s + 1)%Z.
Proof.
  rewrite (fr_tick _ _ (frames_moveProjectiles _ _ (frames_refl _))), tick_visibility.
  now rewrite (fr_tick _ _ (frames_beforeVisibility inp s)).
Qed.

Lemma trySpawnPickup_off_tick (rnd : Draws) (x : GameState) :
  spawnTick (tick x) = false -> trySpawnPickup rnd x = x.
Proof.
  unfold spawnTick, trySpawnPickup. intros H.
  destruct (Z.rem (tick x) PICKUP_INTERVAL =? 0)%Z; simpl in *; [|reflexivity].
  destruct (tick x =? 0)%Z; simpl in *; [reflexivity|discriminate].
Qed.

Lemma stepState_agree (i1 i2 : GameLoop.Input) (s : GameState) :
  agree_at (tick s + 1) i1 i2 -> GameLoop.stepState i1 s = GameLoop.stepState i2 s.
Proof.
  intros [Hd Hr]. rewrite (stepState_phases i1), (stepState_phases i2).
  unfold afterVisibility.
  rewrite (beforeVisibility_decisions i1 i2 s Hd).
  pose proof (tick_beforeSpawn i2 s) as Ht.
  remember (GameLoop.moveProjectiles _) as x eqn:Hx. clear Hx.
  destruct (spawnTick (tick s + 1)) eqn:Hs.
  - rewrite (Hr eq_refl). reflexivity.
  - rewrite <- Ht in Hs.
    rewrite (trySpawnPickup_off_tick (GameLoop.draws i1) x Hs).
    rewrite (trySpawnPickup_off_tick (GameLoop.draws i2) x Hs).
    reflexivity.
Qed.

Lemma tick_stepState (inp : GameLoop.Input) (s : GameState) :
  tick (GameLoop.stepState inp s) = (tick s + 1)%Z.
Proof.
  rewrite stepState_phases.
  rewrite (fr_tick _ _ (frames_afterVisibility inp _)), tick_visibility.
  now rewrite (fr_tick _ _ (frames_beforeVisibility inp s)).
Qed.

Lemma tick_agree (i1 i2 : GameLoop.Input) (g : GameLoop.t) :
  agree_at (tick (GameLoop.state g) + 1) i1 i2 -> GameLoop.tick i1 g = GameLoop.tick i2 g.
Proof.
  intros H. unfold GameLoop.tick. destruct (negb (GameLoop.running g)); [reflexivity|].
  now rewrite (stepState_agree i1 i2 _ H).
Qed.

Arguments GameLoop.stepState : simpl never.
Arguments GameLoop.tick : simpl never.

Lemma run_cons (inp : GameLoop.Input) (l : list GameLoop.Input) (g : GameLoop.t) :
  GameLoop.run (inp :: l) g = GameLoop.run l (GameLoop.tick inp g).
Proof. reflexivity. Qed.

Lemma published_cons (inp : GameLoop.Input) (l : list GameLoop.Input) (g : GameLoop.t) :
  GameLoop.published (inp :: l) g
  = if GameLoop.running g
    then events (GameLoop.state (GameLoop.tick inp g))
         :: GameLoop.published l (GameLoop.tick inp g)
    else [].
Proof. reflexivity. Qed.

Lemma state_tick_running (inp : GameLoop.Input) (g : GameLoop.t) :
  GameLoop.running g = true ->
  GameLoop.state (GameLoop.tick inp g) = GameLoop.stepState inp (GameLoop.state g).
Proof. intros H. unfold GameLoop.tick. rewrite H. cbn [negb GameLoop.state]. reflexivity. Qed.

(** Once the match is over a tick does nothing and publishes nothing. *)
Lemma tick_stopped (inp : GameLoop.Input) (g : GameLoop.t) :
  GameLoop.running g = false -> GameLoop.tick inp g = g.
Proof. intros H. unfold GameLoop.tick. now rewrite H. Qed.

Lemma run_stopped (l : list GameLoop.Input) (g : GameLoop.t) :
  GameLoop.running g = false -> GameLoop.run l g = g.
Proof.
  intros H. induction l as [|inp l IH]; [reflexivity|].
  now rewrite run_cons, (tick_stopped inp g H).
Qed.

Lemma published_stopped (l : list GameLoop.Input) (g : GameLoop.t) :
  GameLoop.running g = false -> GameLoop.published l g = [].
Proof. intros H. destruct l; [reflexivity|]. now rewrite published_cons, H. Qed.

(** C4, as the code has it.  Two runs from the same loop state (so from the
    same arena and spawn points) whose scripts give the same decisions at
    every tick, and the same random draws at every tick that is a positive
    multiple of [PICKUP_INTERVAL], end in the same state (the same hp among
    the rest) and publish the same event lists, as long as the match is
    running.  The draws of the other ticks are never asked for. *)
Theorem runs_agree_given_spawn_draws (l1 l2 : list GameLoop.Input) (g : GameLoop.t) :
  GameLoop.running g = true ->
  agree_from (tick (GameLoop.state g)) l1 l2 ->
  GameLoop.run l1 g = GameLoop.run l2 g
  /\ GameLoop.published l1 g = GameLoop.published l2 g.
Proof.
  revert l2 g. induction l1 as [|i1 r1 IH]; intros [|i2 r2] g Hrun H;
    try contradiction; [now split|].
  destruct H as [Ha Hr]. rewrite !run_cons, !published_cons, Hrun.
  rewrite (tick_agree i1 i2 g Ha).
  remember (GameLoop.tick i2 g) as g2 eqn:Hg2.
  assert (Ht : tick (GameLoop.state g2) = (tick (GameLoop.state g) + 1)%Z).
  { rewrite Hg2, (state_tick_running _ _ Hrun). apply tick_stepState. }
  clear Hg2.
  destruct (GameLoop.running g2) eqn:Hrun'.
  - rewrite <- Ht in Hr. destruct (IH r2 g2 Hrun' Hr) as [E1 E2].
    now rewrite E1, E2.
  - rewrite !(run_stopped _ _ Hrun'). split; [reflexivity|]. f_equal.
    now rewrite !(published_stopped _ _ Hrun').
Qed.

Lemma runs_agree_witness :
  let g := GameLoop.start None "A" "B" in
  let l1 := [GameLoop.mkInput [] (mkDraws 0.1 0.2 0.3)] in
  let l2 := [GameLoop.mkInput [] (mkDraws 0.9 0.8 0.7)] in
  GameLoop.run l1 g = GameLoop.run l2 g
  /\ GameLoop.published l1 g = GameLoop.published l2 g.
Proof.
  intros g l1 l2. apply (runs_agree_given_spawn_draws l1 l2 g).
  - reflexivity.
  - split; [|exact I]. split; [reflexivity|].
    vm_compute. discriminate.
Defined.

(** C4 as stated fails: the pickup that [trySpawnPickup] places at tick 100
    depends on [Math.random()].  An arena without obstacles on flat ground;
    bot 0 stands still and fires along its facing at every tick, bot 1 does
    nothing.  In one run the draws of tick 100 put a health pickup on
    bot 1, in the other an energy pickup in the middle of the arena. *)
Definition flatArena : ArenaConfig :=
  mkArena cyber [] (mkTerrain [0; 0; 0; 0]%float 2 40)
          (mkVec2 (-10) 0, mkVec2 10 0) (40, 40)%float.

Definition shootAhead : BotAction := mkBotAction (mkVec2 0 0) (mkVec2 1 0) (Some Ranged).

Definition scriptWith (rnd : Draws) : list GameLoop.Input :=
  repeat (GameLoop.mkInput [Some shootAhead; Some GameLoop.neutral] rnd) 100.

Definition drawsOnBot1 : Draws := mkDraws 0.9 0.8 0.5.
Definition drawsMidArena : Draws := mkDraws 0.1 0.5 0.5.

Lemma pickup_draws_break_determinism :
  let g := GameLoop.start (Some flatArena) "A" "B" in
  let runA := GameLoop.run (scriptWith drawsOnBot1) g in
  let runB := GameLoop.run (scriptWith drawsMidArena) g in
  map GameLoop.decisions (scriptWith drawsOnBot1)
  = map GameLoop.decisions (scriptWith drawsMidArena)
  /\ map hp (bots (GameLoop.state runA)) = [1000; 972]%Z
  /\ map hp (bots (GameLoop.state runB)) = [1000; 952]%Z
  /\ map e_type (events (GameLoop.state runA)) = [pickup]
  /\ map e_type (events (GameLoop.state runB)) = []
  /\ GameLoop.published (scriptWith drawsOnBot1) g
     <> GameLoop.published (scriptWith drawsMidArena) g.
Proof.
  intros g runA runB.
  split; [reflexivity|].
  split; [vm_compute; reflexivity|].
  split; [vm_compute; reflexivity|].
  split; [vm_compute; reflexivity|].
  split; [vm_compute; reflexivity|].
  intros H.
  apply (f_equal (fun l => map (fun es => length es) l)) in H.
  vm_compute in H. discriminate H.
Qed.

(** ** The sandbox: what the worker answers *)

Section WorkerAnswers.
Context `{Worker.JsEngine}.
Import Worker.

(** The action a tick message is answered with; [None] when the think
    function never returns. *)
Definition answer (fn : option Fn) (data : TickData) : option BotAction :=
  match fn with
  | None => Some neutral
  | Some f =>
      match call f data with
      | (Returns result, _) => Some (default neutral (sanitize result))
      | (Throws, _) => Some neutral
      | (Hangs, _) => None
      end
  end.


Lemma onmessage_tick (fn : option Fn) (req : nat) (data : TickData) :
  match answer fn data with
  | Some act => exists fn', onmessage (MsgTick req data) fn = Done fn' [MsgAction req act]
  | None => onmessage (MsgTick req data) fn = Stuck
  end.
Proof.
  unfold answer, onmessage. destruct fn as [f|]; [|now eexists].
  destruct (call f data) as [[v| |] f']; [|now eexists|reflexivity].
  destruct (sanitize v); now eexists.
Qed.



Lemma orZero_not_nan (n : float) : PrimFloat.is_nan (orZero n) = false.
Proof.
  unfold orZero. destruct (PrimFloat.is_nan n) eqn:Hn; simpl; [reflexivity|].
  destruct (PrimFloat.eqb n PrimFloat.zero); [reflexivity|exact Hn].
Qed.

Lemma orZero_nan (n : float) : PrimFloat.is_nan n = true -> orZero n = PrimFloat.zero.
Proof. unfold orZero. now intros ->. Qed.

Lemma orZero_number (n : float) :
  PrimFloat.is_nan n = false -> PrimFloat.eqb n PrimFloat.zero = false -> orZero n = n.
Proof. unfold orZero. now intros -> ->. Qed.

Lemma coerce_spec (v : JsValue) (x : float) :
  coerce v = Some x ->
  PrimFloat.is_nan x = false
  /\ exists n, toNumber v = Some n /\ x = orZero n.
Proof.
  unfold coerce. destruct (toNumber v) as [n|]; simpl; [|discriminate].
  intros [= <-]. split; [apply orZero_not_nan|]. now exists n.
Qed.



(** The fields of a sanitized action. *)
Lemma sanitize_spec (v : JsValue) (a : BotAction) :
  sanitize v = Some a ->
  coerce (get (get v "move") "x") = Some (vx (move a))
  /\ coerce (get (get v "move") "y") = Some (vy (move a))
  /\ coerce (get (get v "aim") "x") = Some (vx (aim a))
  /\ coerce (get (get v "aim") "y") = Some (vy (aim a))
  /\ action a = restrictAction (get v "action").
Proof.
  unfold sanitize.
  destruct (coerce (get (get v "move") "x")) as [mx|]; [|discriminate].
  destruct (coerce (get (get v "move") "y")) as [my|]; [|discriminate].
  destruct (coerce (get (get v "aim") "x")) as [ax|]; [|discriminate].
  destruct (coerce (get (get v "aim") "y")) as [ay|]; [|discriminate].
  intros [= <-]. repeat split.
Qed.

End WorkerAnswers.
Arguments Worker.onmessage : simpl never.

(** ** The sandbox: the runner *)

Section RunnerProps.
Context `{Worker.JsEngine}.
Import BotRunner.

(** A worker at rest: nothing in flight, not stuck, and the tick handler
    installed (the state [initBot] leaves it in once [ready] has come). *)
Definition idle (w : Proc) : Prop :=
  inbox w = [] /\ outbox w = [] /\ hung w = false /\ onmessage w = OnTick.


(** What the worker does with a [recompile] message: the function it binds,
    if it binds one. *)
Definition accepted (code : string) : option Worker.Fn :=
  match Worker.validateCode code with
  | Some _ => None
  | None =>
      match Worker.compileThinkFn code with
      | Worker.Compiled newFn => Some newFn
      | Worker.CompileError _ => None
      end
  end.

Lemma runner_run_cons (e : Event) (l : list Event) (h : t) :
  run h (e :: l) = run (step h e) l.
Proof. reflexivity. Qed.


Lemma getAction_unavailable (h : t) (b : nat) (d : Worker.TickData) :
  actionResults h !! nextId h = None ->
  workers h !! b = None \/ isReady b h = false ->
  actionResults (getAction b d h) !! nextId h = Some Worker.neutral.
Proof.
  intros Hfresh Hno. unfold getAction, isReady in *. simpl.
  assert (Hs : settle (nextId h) Worker.neutral (actionResults h) !! nextId h
               = Some Worker.neutral).
  { unfold settle. rewrite Hfresh. apply lookup_insert_eq. }
  destruct (workers h !! b) as [w|]; [|exact Hs].
  destruct Hno as [Hno|Hno]; [discriminate|]. rewrite Hno. exact Hs.
Qed.






(** What a [recompile] message does to the worker, by [accepted]. *)
Lemma onmessage_recompile (code : string) (fn : option Worker.Fn) :
  match accepted code with
  | Some newFn =>
      Worker.onmessage (Worker.MsgRecompile code) fn
      = Worker.Done (Some newFn) [Worker.MsgRecompiled]
  | None =>
      exists error,
        Worker.onmessage (Worker.MsgRecompile code) fn
        = Worker.Done fn [Worker.MsgRecompileError error]
  end.
Proof.
  unfold accepted, Worker.onmessage.
  destruct (Worker.validateCode code) as [e|]; [now eexists|].
  destruct (Worker.compileThinkFn code); [reflexivity|now eexists].
Qed.

Lemma hotSwapCode_unavailable (h : t) (b : nat) (code : string) :
  swapResults h !! nextId h = None ->
  workers h !! b = None \/ isReady b h = false ->
  swapResults (hotSwapCode b code h) !! nextId h = Some false
  /\ workers (hotSwapCode b code h) = workers h
  /\ currentCode (hotSwapCode b code h) = currentCode h.
Proof.
  intros Hfresh Hno. unfold hotSwapCode, isReady in *. simpl.
  assert (Hs : settle (nextId h) false (swapResults h) !! nextId h = Some false).
  { unfold settle. rewrite Hfresh. apply lookup_insert_eq. }
  destruct (workers h !! b) as [w|]; [|now repeat split].
  destruct Hno as [Hno|Hno]; [discriminate|]. rewrite Hno. now repeat split.
Qed.



Lemma accepted_none (code : string) :
  accepted code = None
  <-> Worker.validateCode code <> None
      \/ exists message, Worker.compileThinkFn code = Worker.CompileError message.
Proof.
  unfold accepted. destruct (Worker.validateCode code) as [e|].
  - split; [now left|reflexivity].
  - destruct (Worker.compileThinkFn code) as [fn|m].
    + split; [discriminate|]. intros [Hv|[m Hm]]; [now destruct Hv|discriminate].
    + split; [|reflexivity]. intros _. right. now exists m.
Qed.







End RunnerProps.

(** ** A scripted engine, for concrete runs

    Every source compiles to the same think function, which asks for
    [melee] on tick data 1 and for [heal] on any other; tick data 0 makes it
    throw. *)
Definition scriptedThink (d : nat) : Worker.ThinkOutcome :=
  match d with
  | 0%nat => Worker.Throws
  | 1%nat => Worker.Returns (Worker.JsObject [("action", Worker.JsString "melee")])
  | _ => Worker.Returns (Worker.JsObject [("action", Worker.JsString "heal")])
  end.

Definition scriptedEngine : Worker.JsEngine :=
  {| Worker.Fn := unit;
     Worker.TickData := nat;
     Worker.call := fun fn d => (scriptedThink d, fn);
     Worker.compileThinkFn := fun _ => Worker.Compiled tt;
     Worker.stringToNumber := fun _ => PrimFloat.nan |}.

#[local] Existing Instance scriptedEngine.

Definition thinkSource : string := "function think(me, enemies, arena) { return {}; }".

(** Bot 0 initialised and ready. *)
Definition readyRunner : @BotRunner.t scriptedEngine :=
  BotRunner.run BotRunner.empty
    [BotRunner.CallInitBot 0 thinkSource; BotRunner.WorkerStep 0; BotRunner.Deliver 0].

Definition meleeOnly : BotAction := mkBotAction (mkVec2 0 0) (mkVec2 0 0) (Some Melee).
Definition healOnly : BotAction := mkBotAction (mkVec2 0 0) (mkVec2 0 0) (Some Heal).

(** C7 fails on the code.  Request 1 (tick data 1) times out; request 2
    (tick data 2) is then issued; the worker's answer to request 1 arrives
    late, while request 2 is pending, and settles request 2: the decision
    for tick data 2 is the think function's answer to tick data 1. *)
Theorem late_response_settles_next_request :
  let trace :=
    [ @BotRunner.CallGetAction scriptedEngine 0 1%nat; BotRunner.TimerFires 1;
      @BotRunner.CallGetAction scriptedEngine 0 2%nat; BotRunner.WorkerStep 0 ] in
  let h := BotRunner.run readyRunner trace in
  BotRunner.actionResults h !! 1%nat = Some Worker.neutral
  /\ BotRunner.actionResults h !! 2%nat = None
  /\ (BotRunner.outbox <$> BotRunner.workers h !! 0%nat)
     = Some [Worker.MsgAction 1 meleeOnly]
  /\ BotRunner.actionResults (BotRunner.deliver 0 h) !! 2%nat = Some meleeOnly
  /\ @answer scriptedEngine (Some tt) 2%nat = Some healOnly.
Proof. vm_compute. repeat split. Qed.



Example validate_samples :
  Worker.validateCode thinkSource = None
  /\ Worker.validateCode "evaluate(x); my_eval(1); selfish.x; myself.x" = None
  /\ (exists m, Worker.validateCode "x = self.location" = Some m)
  /\ (exists m, Worker.validateCode "setTimeout(f, 1)" = Some m)
  /\ Worker.validateCode "a.postMessage(1)"
     = Some ("Blocked: code contains forbidden pattern " ++ Worker.quote ++ "\bpostMessage\b" ++ Worker.quote)%string.
Proof. vm_compute. repeat split; eexists; reflexivity. Qed.

(** * Further properties of the engine *)

(** ** Gates *)

(** The [switch] of [processAction]. *)
Definition handler (a : ActionKind) (i j : nat) (s : GameState) : GameState :=
  match a with
  | Melee => processMelee i j s
  | Ranged => processRanged i j s
  | Special => processSpecial i j s
  | Defend => processDefend i s
  | Dash => processDash i s
  | Heal => processHeal i s
  | Trap => processTrap i s
  end.

(** The first line of each handler: the ability is cooling down or the
    energy does not cover the cost ([defend] has no cooldown). *)
Definition gateClosed (a : ActionKind) (bot : BotData) : Prop :=
  match a with
  | Melee => (0 < cd_melee (cooldowns bot) \/ energy bot < MELEE_ENERGY)%Z
  | Ranged => (0 < cd_ranged (cooldowns bot) \/ energy bot < RANGED_ENERGY)%Z
  | Special => (0 < cd_special (cooldowns bot) \/ energy bot < SPECIAL_ENERGY)%Z
  | Defend => (energy bot < DEFEND_ENERGY_PER_TICK)%Z
  | Dash => (0 < cd_dash (cooldowns bot) \/ energy bot < DASH_ENERGY)%Z
  | Heal => (0 < cd_heal (cooldowns bot) \/ energy bot < HEAL_ENERGY)%Z
  | Trap => (0 < cd_trap (cooldowns bot) \/ energy bot < TRAP_ENERGY)%Z
  end.

Lemma gate_test (c e cost : Z) :
  (0 < c \/ e < cost)%Z -> (0 <? c)%Z || (e <? cost)%Z = true.
Proof.
  intros [Hc|He]; apply orb_true_iff; [left|right]; now apply Z.ltb_lt.
Qed.

Lemma processAction_none (i : nat) (s : GameState) :
  processAction i None s
  = match bots s !! i with
    | Some _ => statusEffects i (upd_bot i beginTurn s)
    | None => s
    end.
Proof. unfold processAction. now destruct (bots s !! i). Qed.

Lemma processAction_some (i : nat) (a : ActionKind) (s : GameState) (bot : BotData) :
  bots s !! i = Some bot ->
  processAction i (Some a) s
  = match firstEnemy bot (processAction i None s) with
    | Some (j, _) => handler a i j (processAction i None s)
    | None => processAction i None s
    end.
Proof.
  intros Hb. rewrite processAction_none. unfold processAction. rewrite Hb.
  destruct (firstEnemy bot _) as [[j e]|]; [|reflexivity]. now destruct a.
Qed.

(** Behind a closed gate the handler returns the state it was given. *)
Lemma handler_gate_closed (s : GameState) (i j : nat) (bot : BotData)
    (a : ActionKind) :
  bots s !! i = Some bot -> gateClosed a bot ->
  handler a i j s = s.
Proof.
  intros Hb Hg.
  destruct a; simpl in Hg; unfold handler, processMelee, processRanged, processSpecial,
    processDefend, processDash, processHeal, processTrap; rewrite Hb;
    try rewrite (gate_test _ _ _ Hg); try (apply Z.ltb_lt in Hg; rewrite Hg);
    try reflexivity; now destruct (bots s !! j).
Qed.

(** X1.  A request whose gate is closed (the ability is cooling down, or the
    energy left after the upkeep does not cover its cost) is dropped without
    a trace: no cost, no cooldown, no event; the turn of the bot is the turn
    of a bot that asked for nothing. *)
Theorem closed_gate_request_is_no_request (s : GameState) (i : nat) (a : ActionKind)
    (bot1 : BotData) :
  bots (processAction i None s) !! i = Some bot1 -> gateClosed a bot1 ->
  processAction i (Some a) s = processAction i None s.
Proof.
  intros Hb1 Hg. destruct (bots s !! i) as [bot|] eqn:Hb.
  - rewrite (processAction_some i a s bot Hb).
    destruct (firstEnemy bot _) as [[j e]|]; [|reflexivity].
    now apply handler_gate_closed with bot1.
  - unfold processAction. now rewrite Hb.
Qed.

(** Bot 0 has just swung: its melee is cooling down. *)
Definition afterSwing : GameState := processMelee 0 1 (init None "A" "B").

Lemma closed_gate_request_witness :
  processAction 0 (Some Melee) afterSwing = processAction 0 None afterSwing.
Proof.
  eapply (closed_gate_request_is_no_request afterSwing 0 Melee).
  - vm_compute. reflexivity.
  - left. vm_compute. reflexivity.
Defined.

(** ** Hits *)

Lemma defended_values (target : BotData) :
  defended target MELEE_DAMAGE = (if isDefending target then 3 else 9)%Z
  /\ defended target SPECIAL_DAMAGE = (if isDefending target then 4 else 12)%Z
  /\ defended target RANGED_DAMAGE = (if isDefending target then 3 else 8)%Z.
Proof. unfold defended. destruct (isDefending target); vm_compute; auto. Qed.

(** X2.  A melee that passes its gate, in range and on the arc: the target loses
    exactly [MELEE_DAMAGE] = 9 hp, or 3 (9 times the defend reduction,
    rounded) when it is defending; the attacker has swung and is credited
    with the damage; both bots record the contact; one [melee_hit] event
    carries the damage. *)
Theorem melee_hit_damage (s : GameState) (i j : nat) (bot enemy : BotData) :
  bots s !! i = Some bot -> bots s !! j = Some enemy -> i <> j ->
  meleeGate bot ->
  meleeOutOfRange bot enemy = false -> meleeOffArc bot enemy = false ->
  let dmg := (if isDefending enemy then 3 else 9)%Z in
  let s' := processMelee i j s in
  (exists enemy', bots s' !! j = Some enemy'
     /\ hp enemy' = (hp enemy - dmg)%Z
     /\ damageTaken enemy' = (damageTaken enemy + dmg)%Z
     /\ lastCombatTick enemy' = tick s)
  /\ (exists bot', bots s' !! i = Some bot'
        /\ damageDealt bot' = (damageDealt bot + dmg)%Z
        /\ energy bot' = (energy bot - MELEE_ENERGY)%Z
        /\ lastCombatTick bot' = tick s)
  /\ map (fun e => (e_type e, e_attacker e, e_target e, e_damage e)) (events s')
     = map (fun e => (e_type e, e_attacker e, e_target e, e_damage e)) (events s)
       ++ [(melee_hit, Some (id bot), Some (id enemy), Some dmg)].
Proof.
  intros Hb He Hij Hg Hr Hf dmg s'. unfold s', processMelee.
  rewrite Hb, He, (meleeGate_open _ Hg).
  fold (meleeOutOfRange bot enemy) (meleeOffArc bot enemy). rewrite Hr, Hf.
  destruct (defended_values enemy) as (-> & _ & _). fold dmg.
  unfold upd_bot, push_event. simpl. split; [|split].
  - exists (takeHit dmg (tick s) enemy).
    rewrite list_lookup_alter_ne, list_lookup_alter_eq, list_lookup_alter_ne, He
      by congruence.
    repeat split.
  - exists (creditDamage dmg (tick s) (swingMelee bot)).
    rewrite list_lookup_alter_eq, list_lookup_alter_ne, list_lookup_alter_eq, Hb
      by congruence.
    repeat split.
  - now rewrite map_app.
Qed.

(** Bot 1 stands one unit in front of bot 0. *)
Definition faceToFace : GameState :=
  upd_bot 1 (set_position (mkVec2 (-9) 0)) (init None "A" "B").

Lemma melee_hit_witness :
  exists enemy', bots (processMelee 0 1 faceToFace) !! 1%nat = Some enemy'
    /\ hp enemy' = (BOT_HP - 9)%Z.
Proof.
  destruct (melee_hit_damage faceToFace 0 1 (createBot 0 "A" (vec2 (-10) 0))
              (set_position (mkVec2 (-9) 0) (createBot 1 "B" (vec2 10 0)))
              eq_refl eq_refl ltac:(discriminate))
    as ((e & He & Hhp & _) & _).
  - split; [reflexivity|]. vm_compute. discriminate.
  - vm_compute. reflexivity.
  - vm_compute. reflexivity.
  - exists e. split; [exact He|exact Hhp].
Defined.

(** X3.  A special that passes its gate with the target in range: the target
    loses [SPECIAL_DAMAGE] = 12 hp, or 4 when defending, and burns for
    [BURN_DURATION] ticks, wherever the attacker faces. *)
Theorem special_hit_burns (s : GameState) (i j : nat) (bot enemy : BotData) :
  bots s !! i = Some bot -> bots s !! j = Some enemy -> i <> j ->
  specialGate bot -> specialInRange bot enemy = true ->
  let dmg := (if isDefending enemy then 4 else 12)%Z in
  exists enemy', bots (processSpecial i j s) !! j = Some enemy'
    /\ hp enemy' = (hp enemy - dmg)%Z
    /\ burning (status enemy') = BURN_DURATION
    /\ lastCombatTick enemy' = tick s.
Proof.
  intros Hb He Hij Hg Hr dmg.
  destruct (special_in_range s i j bot enemy Hb He Hij Hg Hr) as (_ & Hj & _).
  destruct (defended_values enemy) as (_ & Hd & _). rewrite Hd in Hj. fold dmg in Hj.
  eexists. split; [exact Hj|]. repeat split.
Qed.

Lemma special_hit_witness :
  exists enemy', bots (processSpecial 0 1 faceToFace) !! 1%nat = Some enemy'
    /\ hp enemy' = (BOT_HP - 12)%Z
    /\ burning (status enemy') = BURN_DURATION.
Proof.
  destruct (special_hit_burns faceToFace 0 1 (createBot 0 "A" (vec2 (-10) 0))
              (set_position (mkVec2 (-9) 0) (createBot 1 "B" (vec2 10 0)))
              eq_refl eq_refl ltac:(discriminate))
    as (e & He & Hhp & Hbu & _).
  - split; [reflexivity|]. vm_compute. discriminate.
  - vm_compute. reflexivity.
  - exists e. repeat split; assumption.
Defined.

(** ** The upkeep at the head of [processAction] *)

Lemma lookup_upd_bot (f : BotData -> BotData) (i : nat) (s : GameState) :
  bots (upd_bot i f s) !! i = f <$> bots s !! i.
Proof. unfold upd_bot. simpl. apply list_lookup_alter_eq. Qed.

(** X4.  A bot that burns loses exactly [BURN_DAMAGE] hp in its upkeep, its burn
    counter goes down by one, the contact is recorded (so the out-of-combat
    regeneration cannot fire in the same upkeep), and one [burn_tick] event
    is pushed. *)
Theorem burning_upkeep (s : GameState) (i : nat) (bot : BotData) :
  bots s !! i = Some bot -> (0 < burning (status bot))%Z ->
  let s1 := processAction i None s in
  (exists bot1, bots s1 !! i = Some bot1
     /\ hp bot1 = (hp bot - BURN_DAMAGE)%Z
     /\ burning (status bot1) = (burning (status bot) - 1)%Z
     /\ lastCombatTick bot1 = tick s
     /\ damageTaken bot1 = (damageTaken bot + BURN_DAMAGE)%Z)
  /\ map (fun e => (e_type e, e_target e, e_damage e)) (events s1)
     = map (fun e => (e_type e, e_target e, e_damage e)) (events s)
       ++ [(burn_tick, Some (id bot), Some BURN_DAMAGE)].
Proof.
  intros Hb Hburn s1. unfold s1. rewrite processAction_none, Hb.
  unfold statusEffects. rewrite lookup_upd_bot, Hb. simpl.
  apply Z.ltb_lt in Hburn. rewrite Hburn. split.
  - unfold push_event, upd_bot. simpl.
    rewrite !list_lookup_alter_eq, Hb. simpl.
    eexists. split; [reflexivity|]. unfold oocRegen. simpl.
    replace (tick s - tick s)%Z with 0%Z by lia.
    rewrite andb_false_r. repeat split.
  - unfold upd_bot, push_event. simpl. now rewrite map_app.
Qed.

Definition onFire : GameState :=
  upd_bot 0 (fun b => set_status (set_burning 5%Z (status b)) b) (init None "A" "B").

Lemma burning_upkeep_witness :
  exists bot1, bots (processAction 0 None onFire) !! 0%nat = Some bot1
    /\ hp bot1 = (BOT_HP - BURN_DAMAGE)%Z.
Proof.
  destruct (burning_upkeep onFire 0
              (set_status (set_burning 5%Z (status (createBot 0 "A" (vec2 (-10) 0))))
                 (createBot 0 "A" (vec2 (-10) 0))) eq_refl)
    as ((b1 & Hb1 & Hhp & _) & _).
  - simpl. lia.
  - exists b1. split; [exact Hb1|exact Hhp].
Defined.

(** X5.  A bot that does not burn: the upkeep pushes no event, regenerates
    [ENERGY_REGEN] energy up to 100, and regenerates [OOC_REGEN_RATE] hp up to
    [BOT_HP] exactly when the last contact is [OOC_REGEN_DELAY] ticks old
    or more. *)
Theorem quiet_upkeep (s : GameState) (i : nat) (bot : BotData) :
  bots s !! i = Some bot -> (burning (status bot) <= 0)%Z ->
  let s1 := processAction i None s in
  (exists bot1, bots s1 !! i = Some bot1
     /\ energy bot1 = Z.min 100 (energy bot + ENERGY_REGEN)
     /\ hp bot1
        = (if (burning (status bot) =? 0)%Z
              && (OOC_REGEN_DELAY <=? tick s - lastCombatTick bot)%Z
           then Z.min BOT_HP (hp bot + OOC_REGEN_RATE) else hp bot)
     /\ lastCombatTick bot1 = lastCombatTick bot
     /\ isDefending bot1 = false)
  /\ events s1 = events s.
Proof.
  intros Hb Hburn s1. unfold s1. rewrite processAction_none, Hb.
  unfold statusEffects. rewrite lookup_upd_bot, Hb. simpl.
  assert (Hn : (0 <? burning (status bot))%Z = false) by (apply Z.ltb_ge; lia).
  rewrite Hn. split; [|reflexivity].
  unfold upd_bot. simpl. rewrite !list_lookup_alter_eq, Hb. simpl.
  eexists. split; [reflexivity|]. unfold oocRegen. simpl.
  destruct (_ && _)%bool; repeat split.
Qed.

Lemma quiet_upkeep_witness :
  events (processAction 0 None (init None "A" "B")) = events (init None "A" "B").
Proof.
  refine (proj2 (quiet_upkeep (init None "A" "B") 0 (createBot 0 "A" (vec2 (-10) 0))
                   eq_refl _)).
  simpl. lia.
Defined.

(** ** Defending is granted for one tick *)

Lemma keep_alter {B} (g : BotData -> B) (f : BotData -> BotData) (i : nat)
    (l : list BotData) :
  (forall b, g (f b) = g b) -> map g (alter f i l) = map g l.
Proof.
  intros Hf. revert i. induction l as [|b l IH]; intros [|i]; simpl; auto.
  - now rewrite Hf.
  - f_equal. apply IH.
Qed.

Definition guard (b : BotData) : bool * bool := (isDefending b, shielded (status b)).

Lemma handler_keeps_guard (a : ActionKind) (i j : nat) (s : GameState) :
  a <> Defend -> map guard (bots (handler a i j s)) = map guard (bots s).
Proof.
  intros Ha.
  destruct a; try congruence; unfold handler, processMelee, processRanged,
    processSpecial, processDash, processHeal, processTrap, addProjectile, addTrap;
    repeat case_match; try reflexivity;
    unfold push_event, upd_bot; simpl;
    rewrite ?keep_alter; try reflexivity; intros ?; reflexivity.
Qed.

Lemma statusEffects_keeps_guard (i : nat) (s : GameState) :
  map guard (bots (statusEffects i s)) = map guard (bots s).
Proof.
  unfold statusEffects. repeat case_match; try reflexivity;
    unfold push_event, upd_bot; simpl; rewrite ?keep_alter; try reflexivity;
    intros ?; unfold oocRegen; repeat case_match; reflexivity.
Qed.

(** X6.  After the action phase of a bot that did not ask for [defend] in this
    tick, the bot is neither defending nor shielded, whatever it was
    before: the grant has to be asked for again at every tick. *)
Theorem defending_needs_a_request (s : GameState) (i : nat) (act : option ActionKind)
    (bot bot' : BotData) :
  bots s !! i = Some bot ->
  bots (processAction i act s) !! i = Some bot' ->
  act <> Some Defend ->
  isDefending bot' = false /\ shielded (status bot') = false.
Proof.
  intros Hb Hb' Hact.
  assert (Hg : map guard (bots (processAction i act s))
               = map guard (bots (processAction i None s))).
  { destruct act as [a|]; [|reflexivity].
    rewrite (processAction_some i a s bot Hb).
    destruct (firstEnemy bot _) as [[j e]|]; [|reflexivity].
    apply handler_keeps_guard. congruence. }
  assert (H1 : map guard (bots (processAction i None s)) !! i = Some (false, false)).
  { rewrite processAction_none, Hb, statusEffects_keeps_guard, list_lookup_fmap,
      lookup_upd_bot, Hb. reflexivity. }
  rewrite <- Hg, list_lookup_fmap, Hb' in H1. simpl in H1.
  injection H1 as H1 H2. now split.
Qed.

Definition shieldUp : GameState := processDefend 0 (init None "A" "B").

Lemma defending_witness :
  exists bot', bots (processAction 0 (Some Dash) shieldUp) !! 0%nat = Some bot'
    /\ isDefending bot' = false.
Proof.
  assert (H : exists bot', bots (processAction 0 (Some Dash) shieldUp) !! 0%nat = Some bot').
  { eexists. vm_compute. reflexivity. }
  destruct H as (bot' & Hb'). exists bot'. split; [exact Hb'|].
  refine (proj1 (defending_needs_a_request shieldUp 0 (Some Dash) _ bot' _ Hb' _)).
  - vm_compute. reflexivity.
  - discriminate.
Defined.

(** X7.  A granted [defend]: with an enemy on the field and at least
    [DEFEND_ENERGY_PER_TICK] energy after the upkeep, the bot is defending and
    shielded and has paid the energy. *)
Theorem defend_is_granted (s : GameState) (i : nat) (bot bot1 enemy : BotData) (j : nat) :
  bots s !! i = Some bot ->
  firstEnemy bot (processAction i None s) = Some (j, enemy) ->
  bots (processAction i None s) !! i = Some bot1 ->
  (DEFEND_ENERGY_PER_TICK <= energy bot1)%Z ->
  exists bot', bots (processAction i (Some Defend) s) !! i = Some bot'
    /\ isDefending bot' = true /\ shielded (status bot') = true
    /\ energy bot' = (energy bot1 - DEFEND_ENERGY_PER_TICK)%Z.
Proof.
  intros Hb Hen Hb1 He.
  rewrite (processAction_some i Defend s bot Hb), Hen. simpl.
  unfold processDefend. rewrite Hb1.
  apply Z.ltb_ge in He. rewrite He. rewrite lookup_upd_bot, Hb1.
  eexists. split; [reflexivity|]. repeat split.
Qed.

Lemma defend_is_granted_witness :
  exists bot', bots (processAction 0 (Some Defend) (init None "A" "B")) !! 0%nat = Some bot'
    /\ isDefending bot' = true /\ shielded (status bot') = true.
Proof.
  assert (H1 : exists b1, bots (processAction 0 None (init None "A" "B")) !! 0%nat = Some b1
                          /\ energy b1 = 100%Z).
  { eexists. split; vm_compute; reflexivity. }
  destruct H1 as (b1 & Hb1 & He1).
  assert (H2 : exists e, firstEnemy (createBot 0 "A" (vec2 (-10) 0))
                           (processAction 0 None (init None "A" "B")) = Some (1%nat, e)).
  { eexists. vm_compute. reflexivity. }
  destruct H2 as (e & He).
  destruct (defend_is_granted (init None "A" "B") 0 (createBot 0 "A" (vec2 (-10) 0))
              b1 e 1 eq_refl He Hb1) as (b' & Hb' & Hd & Hs & _).
  - rewrite He1. vm_compute. discriminate.
  - exists b'. repeat split; assumption.
Defined.

(** ** Heal *)

(** X8.  A heal that passes its gate restores [HEAL_AMOUNT] hp up to [BOT_HP],
    and the amount its event reports is the amount the bot gained. *)
Theorem heal_reports_the_gain (s : GameState) (i : nat) (bot : BotData) :
  bots s !! i = Some bot ->
  (cd_heal (cooldowns bot) <= 0)%Z -> (HEAL_ENERGY <= energy bot)%Z ->
  let s' := processHeal i s in
  exists bot' e,
    bots s' !! i = Some bot'
    /\ hp bot' = Z.min BOT_HP (hp bot + HEAL_AMOUNT)
    /\ energy bot' = (energy bot - HEAL_ENERGY)%Z
    /\ cd_heal (cooldowns bot') = HEAL_COOLDOWN
    /\ events s' = events s ++ [e]
    /\ e_type e = heal_use
    /\ e_damage e = Some (hp bot' - hp bot)%Z.
Proof.
  intros Hb Hc He s'. unfold s', processHeal. rewrite Hb.
  assert (Hg : (0 <? cd_heal (cooldowns bot))%Z || (energy bot <? HEAL_ENERGY)%Z = false).
  { apply orb_false_iff. split; apply Z.ltb_ge; lia. }
  rewrite Hg. unfold push_event, upd_bot. simpl. rewrite list_lookup_alter_eq, Hb. simpl.
  eexists _, _. split; [reflexivity|]. simpl. repeat split.
  cbn [e_damage]. f_equal. unfold BOT_HP, HEAL_AMOUNT. lia.
Qed.

Definition wounded : GameState := upd_bot 0 (set_hp 990%Z) (init None "A" "B").

Lemma heal_witness :
  exists bot' e,
    bots (processHeal 0 wounded) !! 0%nat = Some bot'
    /\ hp bot' = Z.min BOT_HP (990 + HEAL_AMOUNT)
    /\ events (processHeal 0 wounded) = events wounded ++ [e]
    /\ e_damage e = Some (hp bot' - 990)%Z.
Proof.
  destruct (heal_reports_the_gain wounded 0 (set_hp 990%Z (createBot 0 "A" (vec2 (-10) 0)))
              eq_refl) as (b' & e & H1 & H2 & _ & _ & H5 & _ & H7).
  - simpl. lia.
  - vm_compute. discriminate.
  - exists b', e. repeat split; assumption.
Defined.

(** ** What the action, physics, visibility and projectile phases leave alone *)

(** The traps, the pickups and the verdict. *)
Definition rest (s : GameState) : list TrapData * list Pickup * (bool * option nat) :=
  (traps s, pickups s, (gameOver s, winner s)).

Definition verdict (s : GameState) : bool * option nat := (gameOver s, winner s).

Lemma fold_keeps {A B} (v : GameState -> B) (f : GameState -> A -> GameState)
    (l : list A) (x : GameState) :
  (forall y a, v (f y a) = v y) -> v (fold_left f l x) = v x.
Proof.
  intros Hf. revert x. induction l as [|a l IH]; intros x; simpl; [reflexivity|].
  now rewrite IH, Hf.
Qed.

Lemma rest_statusEffects (i : nat) (x : GameState) : rest (statusEffects i x) = rest x.
Proof. unfold statusEffects. repeat case_match; reflexivity. Qed.

Lemma rest_handler (a : ActionKind) (i j : nat) (x : GameState) :
  a <> Trap -> rest (handler a i j x) = rest x.
Proof.
  intros Ha. destruct a; try congruence;
    unfold handler, processMelee, processRanged, processSpecial, processDefend,
      processDash, processHeal; repeat case_match; reflexivity.
Qed.

Lemma verdict_processTrap (i : nat) (x : GameState) :
  verdict (processTrap i x) = verdict x /\ pickups (processTrap i x) = pickups x.
Proof. unfold processTrap. repeat case_match; split; reflexivity. Qed.

Lemma processAction_cases (i : nat) (act : option ActionKind) (x : GameState) :
  processAction i act x = processAction i None x
  \/ exists a j, act = Some a /\ processAction i act x = handler a i j (processAction i None x).
Proof.
  destruct act as [a|]; [|now left].
  destruct (bots x !! i) as [bot|] eqn:Hb.
  - rewrite (processAction_some i a x bot Hb).
    destruct (firstEnemy bot _) as [[j e]|]; [|now left]. right. now exists a, j.
  - left. unfold processAction. now rewrite Hb.
Qed.

Lemma rest_upkeep (i : nat) (x : GameState) : rest (processAction i None x) = rest x.
Proof.
  rewrite processAction_none. destruct (bots x !! i); [|reflexivity].
  now rewrite rest_statusEffects.
Qed.

Lemma rest_physics (x : GameState) : rest (GameLoop.physics x) = rest x.
Proof. unfold GameLoop.physics. repeat case_match; reflexivity. Qed.

Lemma rest_visibility (x : GameState) : rest (GameLoop.visibility x) = rest x.
Proof.
  unfold GameLoop.visibility, updateVisibility, updateVisibilityOf, GameLoop.sightEvent.
  simpl. repeat case_match; reflexivity.
Qed.

Lemma rest_moveProjectiles (x : GameState) : rest (GameLoop.moveProjectiles x) = rest x.
Proof.
  unfold GameLoop.moveProjectiles, processProjectileHits.
  set (x1 := set_projectiles _ x).
  assert (H : forall l acc, rest (fst (fold_left projectileHit l acc)) = rest (fst acc)).
  { induction l as [|p l IH]; intros acc; simpl; [reflexivity|]. rewrite IH.
    destruct acc as [y rem]. unfold projectileHit. repeat case_match; reflexivity. }
  specialize (H (projectiles x1) (x1, [])).
  destruct (fold_left projectileHit (projectiles x1) (x1, [])) as [x2 rem].
  simpl in H. unfold rest in *. simpl. exact H.
Qed.

Lemma verdict_rest (x y : GameState) : rest y = rest x -> verdict y = verdict x.
Proof. unfold rest, verdict. now intros [= _ _ -> ->]. Qed.

Lemma verdict_applyAction (inp : GameLoop.Input) (x : GameState) (i : nat) :
  verdict (GameLoop.applyAction inp x i) = verdict x.
Proof.
  unfold GameLoop.applyAction.
  set (x1 := upd_bot i _ x). change (verdict x) with (verdict x1).
  destruct (processAction_cases i (action (GameLoop.actionOf inp i)) x1)
    as [->|(a & j & _ & ->)].
  - apply verdict_rest, rest_upkeep.
  - transitivity (verdict (processAction i None x1)); [|apply verdict_rest, rest_upkeep].
    destruct (decide (a = Trap)) as [->|Ha].
    + apply verdict_processTrap.
    + now apply verdict_rest, rest_handler.
Qed.

Lemma verdict_trySpawnPickup (rnd : Draws) (x : GameState) :
  verdict (trySpawnPickup rnd x) = verdict x /\ traps (trySpawnPickup rnd x) = traps x.
Proof. unfold trySpawnPickup. repeat case_match; split; reflexivity. Qed.

Lemma verdict_checkPickups (x : GameState) :
  verdict (checkPickups x) = verdict x /\ traps (checkPickups x) = traps x.
Proof.
  unfold checkPickups.
  assert (H : forall y pi, (verdict (checkPickup y pi), traps (checkPickup y pi))
                           = (verdict y, traps y)).
  { intros y pi. unfold checkPickup. repeat case_match; try reflexivity.
    apply (fold_keeps (fun s => (verdict s, traps s))).
    intros z bi. unfold collectPickup. repeat case_match; reflexivity. }
  pose proof (fold_keeps (fun s => (verdict s, traps s)) checkPickup
                (seq 0 (length (pickups x))) x H) as E.
  injection E as E1 E2 E3. unfold verdict. now rewrite E1, E2, E3.
Qed.

Lemma verdict_checkTraps (x : GameState) :
  verdict (checkTraps x) = verdict x /\ pickups (checkTraps x) = pickups x.
Proof.
  unfold checkTraps.
  assert (H : forall y ti, (verdict (checkTrap y ti), pickups (checkTrap y ti))
                           = (verdict y, pickups y)).
  { intros y ti. unfold checkTrap. repeat case_match; try reflexivity.
    rewrite (fold_keeps (fun s => (verdict s, pickups s))); [reflexivity|].
    intros z bi. unfold triggerTrap. repeat case_match; reflexivity. }
  pose proof (fold_keeps (fun s => (verdict s, pickups s)) checkTrap
                (seq 0 (length (traps x))) x H) as E.
  injection E as E1 E2 E3. unfold verdict. now rewrite E1, E2, E3.
Qed.

(** The state [checkKO] runs on, in a tick. *)
Definition beforeCheckKO (inp : GameLoop.Input) (s : GameState) : GameState :=
  GameLoop.sweepTraps
    (checkTraps
       (checkPickups
          (trySpawnPickup (GameLoop.draws inp)
             (GameLoop.moveProjectiles (GameLoop.visibility (beforeVisibility inp s)))))).

Lemma stepState_checkKO (inp : GameLoop.Input) (s : GameState) :
  GameLoop.stepState inp s = GameLoop.checkMaxTicks (checkKO (beforeCheckKO inp s)).
Proof. rewrite stepState_phases. reflexivity. Qed.

Lemma verdict_sweepTraps (x : GameState) :
  verdict (GameLoop.sweepTraps x) = verdict x /\ pickups (GameLoop.sweepTraps x) = pickups x.
Proof. split; reflexivity. Qed.

Lemma verdict_beforeVisibility (inp : GameLoop.Input) (s : GameState) :
  verdict (beforeVisibility inp s) = verdict s.
Proof.
  unfold beforeVisibility. rewrite (verdict_rest _ _ (rest_physics _)).
  rewrite (fold_keeps verdict); [reflexivity|].
  intros y i. apply verdict_applyAction.
Qed.

Lemma verdict_beforeCheckKO (inp : GameLoop.Input) (s : GameState) :
  verdict (beforeCheckKO inp s) = verdict s.
Proof.
  unfold beforeCheckKO.
  pose proof (verdict_beforeVisibility inp s) as E0.
  remember (beforeVisibility inp s) as x0 eqn:H0. clear H0.
  pose proof (verdict_rest _ _ (rest_visibility x0)) as E1.
  remember (GameLoop.visibility x0) as x1 eqn:H1. clear H1.
  pose proof (verdict_rest _ _ (rest_moveProjectiles x1)) as E2.
  remember (GameLoop.moveProjectiles x1) as x2 eqn:H2. clear H2.
  pose proof (proj1 (verdict_trySpawnPickup (GameLoop.draws inp) x2)) as E3.
  remember (trySpawnPickup (GameLoop.draws inp) x2) as x3 eqn:H3. clear H3.
  pose proof (proj1 (verdict_checkPickups x3)) as E4.
  remember (checkPickups x3) as x4 eqn:H4. clear H4.
  pose proof (proj1 (verdict_checkTraps x4)) as E5.
  remember (checkTraps x4) as x5 eqn:H5. clear H5.
  rewrite (proj1 (verdict_sweepTraps x5)). congruence.
Qed.

(** ** The end of a match *)

Lemma checkKO_tick (x : GameState) : tick (checkKO x) = tick x.
Proof. exact (fr_tick _ _ (frames_checkKO x x (frames_refl x))). Qed.

Lemma checkMaxTicks_gameOver (x : GameState) :
  (MAX_TICKS <= tick x)%Z -> gameOver (GameLoop.checkMaxTicks x) = true.
Proof.
  intros Ht. unfold GameLoop.checkMaxTicks. apply Z.leb_le in Ht. rewrite Ht.
  destruct (gameOver x) eqn:Hg; simpl; [exact Hg|].
  repeat case_match; reflexivity.
Qed.

Lemma tick_beforeCheckKO (inp : GameLoop.Input) (s : GameState) :
  tick (beforeCheckKO inp s) = (tick s + 1)%Z.
Proof.
  unfold beforeCheckKO.
  rewrite (fr_tick _ _ (frames_sweepTraps _ _ (frames_checkTraps _ _
            (frames_checkPickups _ _ (frames_trySpawnPickup _ _ _ (frames_refl _)))))).
  apply tick_beforeSpawn.
Qed.

Lemma stepState_gameOver_at_max (inp : GameLoop.Input) (s : GameState) :
  (MAX_TICKS <= tick s + 1)%Z -> gameOver (GameLoop.stepState inp s) = true.
Proof.
  intros Ht. rewrite stepState_checkKO. apply checkMaxTicks_gameOver.
  now rewrite checkKO_tick, tick_beforeCheckKO.
Qed.

(** The loop runs exactly as long as the match is not over, and while it
    runs the tick counter is below [MAX_TICKS]. *)
Definition loop_ok (g : GameLoop.t) : Prop :=
  GameLoop.running g = negb (gameOver (GameLoop.state g))
  /\ (GameLoop.running g = true -> (tick (GameLoop.state g) < MAX_TICKS)%Z).

Lemma loop_ok_start (cfg : option ArenaConfig) (n1 n2 : string) :
  loop_ok (GameLoop.start cfg n1 n2).
Proof. split; [reflexivity|]. intros _. simpl. unfold MAX_TICKS. lia. Qed.

Lemma loop_ok_tick (inp : GameLoop.Input) (g : GameLoop.t) :
  loop_ok g -> loop_ok (GameLoop.tick inp g).
Proof.
  intros Hok. destruct (GameLoop.running g) eqn:Hr.
  - unfold loop_ok. rewrite (state_tick_running inp g Hr).
    unfold GameLoop.tick at 1 2. rewrite Hr. cbn [negb GameLoop.running].
    split; [reflexivity|]. intros Hgo. rewrite tick_stepState.
    destruct (Z.lt_ge_cases (tick (GameLoop.state g) + 1) MAX_TICKS) as [|Hge];
      [assumption|].
    rewrite (stepState_gameOver_at_max inp _ Hge) in Hgo. discriminate.
  - now rewrite (tick_stopped inp g Hr).
Qed.

Lemma loop_ok_run (inps : list GameLoop.Input) (g : GameLoop.t) :
  loop_ok g -> loop_ok (GameLoop.run inps g).
Proof.
  revert g. induction inps as [|inp inps IH]; intros g Hg; [exact Hg|].
  rewrite run_cons. apply IH. now apply loop_ok_tick.
Qed.

Lemma run_counter (inps : list GameLoop.Input) (g : GameLoop.t) :
  GameLoop.running (GameLoop.run inps g) = true ->
  tick (GameLoop.state (GameLoop.run inps g))
  = (tick (GameLoop.state g) + Z.of_nat (length inps))%Z.
Proof.
  revert g. induction inps as [|inp inps IH]; intros g Hrun.
  - simpl. lia.
  - rewrite run_cons in *.
    assert (Hr1 : GameLoop.running (GameLoop.tick inp g) = true).
    { destruct (GameLoop.running (GameLoop.tick inp g)) eqn:E; [reflexivity|].
      now rewrite (run_stopped inps _ E), E in Hrun. }
    assert (Hr0 : GameLoop.running g = true).
    { destruct (GameLoop.running g) eqn:E; [reflexivity|].
      now rewrite (tick_stopped inp g E), E in Hr1. }
    rewrite (IH _ Hrun), (state_tick_running inp g Hr0), tick_stepState.
    rewrite length_cons. lia.
Qed.

(** X9.  A match lasts at most [MAX_TICKS] ticks: whatever the arena, the
    decisions and the draws, once the loop has been given [MAX_TICKS] ticks
    it has stopped and the match is over. *)
Theorem match_ends_by_max_ticks (cfg : option ArenaConfig) (n1 n2 : string)
    (inps : list GameLoop.Input) :
  (MAX_TICKS <= Z.of_nat (length inps))%Z ->
  GameLoop.running (GameLoop.run inps (GameLoop.start cfg n1 n2)) = false
  /\ gameOver (GameLoop.state (GameLoop.run inps (GameLoop.start cfg n1 n2))) = true.
Proof.
  intros Hlen.
  destruct (loop_ok_run inps _ (loop_ok_start cfg n1 n2)) as [H1 H2].
  destruct (GameLoop.running (GameLoop.run inps (GameLoop.start cfg n1 n2))) eqn:Hr.
  - specialize (H2 eq_refl). rewrite (run_counter inps _ Hr) in H2.
    simpl in H2. lia.
  - split; [reflexivity|]. now destruct (gameOver _).
Qed.

Lemma match_ends_witness :
  GameLoop.running
    (GameLoop.run (repeat (GameLoop.mkInput [] (mkDraws 0 0 0)) 2400)
       (GameLoop.start None "A" "B")) = false.
Proof.
  refine (proj1 (match_ends_by_max_ticks None "A" "B"
                   (repeat (GameLoop.mkInput [] (mkDraws 0 0 0)) 2400) _)).
  rewrite repeat_length. vm_compute. discriminate.
Defined.

(** As long as the match is not over there is no winner. *)
Definition no_winner_yet (s : GameState) : Prop :=
  gameOver s = false -> winner s = None.

Lemma no_winner_yet_knockOut (y : GameState) (i : nat) :
  no_winner_yet y -> no_winner_yet (knockOut y i).
Proof.
  unfold no_winner_yet, knockOut. intros Hy.
  repeat case_match; try assumption; simpl; discriminate.
Qed.

Lemma no_winner_yet_checkKO (x : GameState) : no_winner_yet x -> no_winner_yet (checkKO x).
Proof.
  unfold checkKO. generalize (seq 0 (length (bots x))). intros l. revert x.
  induction l as [|i l IH]; intros x Hx; simpl; [exact Hx|].
  apply IH. now apply no_winner_yet_knockOut.
Qed.

Lemma no_winner_yet_checkMaxTicks (x : GameState) :
  no_winner_yet x -> no_winner_yet (GameLoop.checkMaxTicks x).
Proof.
  unfold no_winner_yet, GameLoop.checkMaxTicks. intros Hx.
  repeat case_match; simpl; try discriminate; assumption.
Qed.

Lemma no_winner_yet_stepState (inp : GameLoop.Input) (s : GameState) :
  no_winner_yet s -> no_winner_yet (GameLoop.stepState inp s).
Proof.
  intros Hs. rewrite stepState_checkKO.
  pose proof (verdict_beforeCheckKO inp s) as E.
  remember (beforeCheckKO inp s) as x eqn:Hx. clear Hx.
  apply no_winner_yet_checkMaxTicks, no_winner_yet_checkKO.
  unfold verdict in E. injection E as E1 E2. unfold no_winner_yet. now rewrite E1, E2.
Qed.

Lemma no_winner_yet_run (inps : list GameLoop.Input) (g : GameLoop.t) :
  no_winner_yet (GameLoop.state g) -> no_winner_yet (GameLoop.state (GameLoop.run inps g)).
Proof.
  revert g. induction inps as [|inp inps IH]; intros g Hg; [exact Hg|].
  rewrite run_cons. apply IH.
  destruct (GameLoop.running g) eqn:Hr.
  - rewrite (state_tick_running inp g Hr). now apply no_winner_yet_stepState.
  - now rewrite (tick_stopped inp g Hr).
Qed.

(** X10.  In every state a loop started by [start] holds: the loop is running
    exactly when the match is not over, and a match that is not over has
    no winner. *)
Theorem winner_only_when_over (cfg : option ArenaConfig) (n1 n2 : string)
    (inps : list GameLoop.Input) :
  GameLoop.running (GameLoop.run inps (GameLoop.start cfg n1 n2))
  = negb (gameOver (GameLoop.state (GameLoop.run inps (GameLoop.start cfg n1 n2))))
  /\ (gameOver (GameLoop.state (GameLoop.run inps (GameLoop.start cfg n1 n2))) = false ->
      winner (GameLoop.state (GameLoop.run inps (GameLoop.start cfg n1 n2))) = None).
Proof.
  split; [apply (loop_ok_run inps _ (loop_ok_start cfg n1 n2))|].
  apply (no_winner_yet_run inps (GameLoop.start cfg n1 n2)).
  intros _. reflexivity.
Qed.

(** X11.  One bot down.  When exactly one bot is at hp <= 0 at the knockout
    check the other bot wins, whatever the tick counter says (the
    comparison of hp at [MAX_TICKS] is skipped once the match is over); the
    loser's hp is set to 0, the winner's is left alone, and one knockout
    event is pushed. *)
Theorem single_knockout (s : GameState) (a b : BotData) :
  bots s = [a; b] -> id a = 0%nat -> id b = 1%nat ->
  let s' := GameLoop.checkMaxTicks (checkKO s) in
  ((hp a <= 0)%Z -> (0 < hp b)%Z ->
   gameOver s' = true /\ winner s' = Some 1%nat
   /\ map hp (bots s') = [0%Z; hp b] /\ events s' = events s ++ [koEvent a])
  /\ ((0 < hp a)%Z -> (hp b <= 0)%Z ->
      gameOver s' = true /\ winner s' = Some 0%nat
      /\ map hp (bots s') = [hp a; 0%Z] /\ events s' = events s ++ [koEvent b]).
Proof.
  intros Hb Ha Hid.
  destruct s as [bs ps ks ts tk ev go w cfg lk vis n1 n2 n3]; simpl in Hb; subst bs.
  destruct a as [ia na ha ea pa fa va ca sa la ma da aa dda dta ua].
  destruct b as [ib nb hb eb pb fb vb cb sb lb mb db ab ddb dtb ub].
  simpl in *; subst ia ib.
  split; intros H1 H2.
  - assert (E1 : (ha <=? 0)%Z = true) by (apply Z.leb_le; lia).
    assert (E2 : (hb <=? 0)%Z = false) by (apply Z.leb_gt; lia).
    unfold checkKO, knockOut, GameLoop.checkMaxTicks; simpl.
    rewrite E1; simpl. rewrite E2; simpl. rewrite andb_false_r. simpl. auto.
  - assert (E1 : (ha <=? 0)%Z = false) by (apply Z.leb_gt; lia).
    assert (E2 : (hb <=? 0)%Z = true) by (apply Z.leb_le; lia).
    unfold checkKO, knockOut, GameLoop.checkMaxTicks; simpl.
    rewrite E1; simpl. rewrite E2; simpl. rewrite andb_false_r. simpl. auto.
Qed.

Lemma single_knockout_witness :
  let s := set_tick MAX_TICKS
             (set_bots [set_hp (-2)%Z (createBot 0 "A" (vec2 0 0));
                        set_hp 1%Z (createBot 1 "B" (vec2 1 0))] (init None "A" "B")) in
  winner (GameLoop.checkMaxTicks (checkKO s)) = Some 1%nat.
Proof.
  intros s.
  refine (proj1 (proj2 (proj1 (single_knockout s _ _ eq_refl eq_refl eq_refl) _ _)));
    simpl; lia.
Defined.

(** ** Counters stay in range *)

(** Every cooldown is between 0 and the cooldown of its ability, the
    status counters are between 0 and the duration they are set to, and the
    damage totals are not negative. *)
Definition counters_ok (b : BotData) : Prop :=
  (0 <= cd_melee (cooldowns b) <= MELEE_COOLDOWN
   /\ 0 <= cd_ranged (cooldowns b) <= RANGED_COOLDOWN
   /\ 0 <= cd_special (cooldowns b) <= SPECIAL_COOLDOWN
   /\ 0 <= cd_dash (cooldowns b) <= DASH_COOLDOWN
   /\ 0 <= cd_heal (cooldowns b) <= HEAL_COOLDOWN
   /\ 0 <= cd_trap (cooldowns b) <= TRAP_COOLDOWN
   /\ 0 <= burning (status b) <= BURN_DURATION
   /\ 0 <= slowed (status b) <= TRAP_SLOW_DURATION
   /\ 0 <= attackCommit (status b) <= SPECIAL_COMMIT_TICKS
   /\ 0 <= damageDealt b /\ 0 <= damageTaken b)%Z.

(** A projectile in flight has between 1 and 60 ticks left. *)
Definition proj_live (p : Projectile) : Prop :=
  p_damage p = RANGED_DAMAGE /\ (0 < p_lifetime p <= 60)%Z.

Definition counted (s : GameState) : Prop :=
  Forall counters_ok (bots s) /\ Forall proj_live (projectiles s).

Definition counters (b : BotData) : Cooldowns * Status * Z * Z :=
  (cooldowns b, status b, damageDealt b, damageTaken b).

Lemma counters_ok_same (b b' : BotData) :
  counters b' = counters b -> counters_ok b -> counters_ok b'.
Proof. unfold counters, counters_ok. now intros [= -> -> -> ->]. Qed.

Ltac unfold_durations :=
  unfold MELEE_COOLDOWN, RANGED_COOLDOWN, SPECIAL_COOLDOWN, DASH_COOLDOWN, HEAL_COOLDOWN,
    TRAP_COOLDOWN, BURN_DURATION, TRAP_SLOW_DURATION, SPECIAL_COMMIT_TICKS,
    MELEE_COMMIT_TICKS, BURN_DAMAGE, TRAP_DAMAGE in *.

(** [f] keeps a bot's counters in range. *)
Ltac counters_tac :=
  let b := fresh "b" in
  let Hl := fresh "Hl" in
  let Hok := fresh "Hok" in
  intros b Hl Hok;
  try match goal with
    | H : bots ?x !! ?i = Some ?bot |- _ => rewrite H in Hl; injection Hl as <-
    end;
  unfold counters_ok in *; gate_facts;
  repeat match goal with
    | H : (0 <? _)%Z = true |- _ => apply Z.ltb_lt in H
    end;
  unfold oocRegen, grantPickup; simpl; unfold dec;
  repeat case_match; simpl; gate_facts;
  repeat match goal with
    | H : (0 <? _)%Z = true |- _ => apply Z.ltb_lt in H
    end;
  unfold_durations; lia.

Lemma counted_upd_bot (f : BotData -> BotData) (i : nat) (x : GameState) :
  (forall b, bots x !! i = Some b -> counters_ok b -> counters_ok (f b)) ->
  counted x -> counted (upd_bot i f x).
Proof.
  intros Hf [Hb Hp]. split; [|exact Hp]. simpl. now apply Forall_alter.
Qed.

Lemma counted_other (x y : GameState) :
  bots y = bots x -> projectiles y = projectiles x -> counted x -> counted y.
Proof. intros Hb Hp [H1 H2]. split; [now rewrite Hb|now rewrite Hp]. Qed.

Lemma counted_fold {A} (f : GameState -> A -> GameState) (l : list A) (x : GameState) :
  (forall y a, counted y -> counted (f y a)) -> counted x -> counted (fold_left f l x).
Proof.
  intros Hf. revert x. induction l as [|a l IH]; intros x Hx; simpl; auto.
Qed.

Ltac counted_setter :=
  lazymatch goal with
  | |- counted (push_event _ ?x) => apply (counted_other x)
  | |- counted (set_pickups _ ?x) => apply (counted_other x)
  | |- counted (set_traps _ ?x) => apply (counted_other x)
  | |- counted (set_nextProjectileId _ ?x) => apply (counted_other x)
  | |- counted (set_nextPickupId _ ?x) => apply (counted_other x)
  | |- counted (set_nextTrapId _ ?x) => apply (counted_other x)
  | |- counted (set_gameOver _ ?x) => apply (counted_other x)
  | |- counted (set_winner _ ?x) => apply (counted_other x)
  | |- counted (set_enemyVisible _ ?x) => apply (counted_other x)
  | |- counted (set_lastKnownEnemyPos _ ?x) => apply (counted_other x)
  end; [reflexivity..|].

Ltac counted_tac :=
  repeat first
    [ assumption
    | apply counted_upd_bot; [solve [counters_tac]|]
    | counted_setter
    | case_match ].

Lemma counted_hit (f : Z -> Z -> BotData -> BotData) (dmg now : Z) (i : nat)
    (x : GameState) :
  (f = takeHit \/ f = burnHit \/ f = creditDamage \/ f = trapVictim) ->
  (0 <= dmg)%Z -> counted x -> counted (upd_bot i (f dmg now) x).
Proof.
  intros Hf Hd Hx. apply counted_upd_bot; [|assumption].
  intros b _ Hok. unfold counters_ok in *.
  destruct Hf as [->|[->|[->| ->]]]; simpl; unfold_durations; lia.
Qed.

Lemma counted_statusEffects (i : nat) (x : GameState) :
  counted x -> counted (statusEffects i x).
Proof.
  intros Hx. unfold statusEffects.
  destruct (bots x !! i) as [bot|] eqn:Hb; [|assumption].
  assert (H1 : counted (if (0 <? burning (status bot))%Z
                        then push_event
                               {| e_type := burn_tick; e_attacker := None;
                                  e_target := Some (id bot);
                                  e_damage := Some BURN_DAMAGE;
                                  e_position :=
                                    Some (mkVec2 (vx (position bot)) (vy (position bot)));
                                  e_text := name bot +:+ " is burning! -"
                                            +:+ Js.show BURN_DAMAGE |}
                               (upd_bot i (burnTick (tick x)) x)
                        else x)).
  { destruct (0 <? burning (status bot))%Z eqn:Hburn; [|assumption].
    counted_setter. apply counted_upd_bot; [counters_tac|assumption]. }
  apply counted_upd_bot; [clear Hb; counters_tac|].
  apply counted_upd_bot; [clear Hb; counters_tac|]. exact H1.
Qed.

Lemma counted_handler (a : ActionKind) (i j : nat) (x : GameState) :
  counted x -> counted (handler a i j x).
Proof.
  intros Hx. destruct a; unfold handler.
  - unfold processMelee.
    destruct (bots x !! i) as [bot|] eqn:Hb; [|assumption].
    destruct (bots x !! j) as [enemy|] eqn:He; [|assumption].
    destruct (_ || _)%bool eqn:Hg; [assumption|].
    assert (Hs : counted (upd_bot i swingMelee x))
      by (apply counted_upd_bot; [clear Hb He; counters_tac|assumption]).
    repeat case_match; try (counted_setter; assumption).
    counted_setter.
    apply counted_hit; [auto|apply defended_nonneg; auto|].
    apply counted_hit; [auto|apply defended_nonneg; auto|assumption].
  - unfold processRanged, addProjectile.
    destruct (bots x !! i) as [bot|] eqn:Hb; [|assumption].
    destruct (_ || _)%bool eqn:Hg; [assumption|].
    counted_setter.
    assert (Hs : counted (upd_bot i fireRanged x))
      by (apply counted_upd_bot; [clear Hb; counters_tac|assumption]).
    destruct Hs as [Hs1 Hs2]. split; [exact Hs1|]. simpl.
    apply Forall_app. split; [exact Hs2|]. repeat constructor; simpl; lia.
  - unfold processSpecial.
    destruct (bots x !! i) as [bot|] eqn:Hb; [|assumption].
    destruct (bots x !! j) as [enemy|] eqn:He; [|assumption].
    destruct (_ || _)%bool eqn:Hg; [assumption|].
    assert (Hs : counted (upd_bot i swingSpecial x))
      by (apply counted_upd_bot; [clear Hb He; counters_tac|assumption]).
    case_match; [|counted_setter; assumption].
    counted_setter.
    apply counted_hit; [auto|apply defended_nonneg; auto|].
    apply counted_hit; [auto|apply defended_nonneg; auto|].
    counted_setter. assumption.
  - unfold processDefend. clear j.
    destruct (bots x !! i) as [bot|] eqn:Hb; [|assumption].
    case_match; [assumption|].
    apply counted_upd_bot; [clear Hb; counters_tac|assumption].
  - unfold processDash.
    destruct (bots x !! i) as [bot|] eqn:Hb; [|assumption].
    case_match; [assumption|]. counted_setter.
    apply counted_upd_bot; [clear Hb; counters_tac|assumption].
  - unfold processHeal.
    destruct (bots x !! i) as [bot|] eqn:Hb; [|assumption].
    case_match; [assumption|]. counted_setter.
    apply counted_upd_bot; [clear Hb; counters_tac|assumption].
  - unfold processTrap, addTrap.
    destruct (bots x !! i) as [bot|] eqn:Hb; [|assumption].
    case_match; [assumption|]. case_match; [assumption|].
    counted_setter. counted_setter. counted_setter.
    apply counted_upd_bot; [clear Hb; counters_tac|assumption].
Qed.

Lemma counted_processAction (i : nat) (act : option ActionKind) (x : GameState) :
  counted x -> counted (processAction i act x).
Proof.
  intros Hx.
  assert (H0 : counted (processAction i None x)).
  { rewrite processAction_none. destruct (bots x !! i) as [bot|] eqn:Hb; [|assumption].
    apply counted_statusEffects.
    apply counted_upd_bot; [clear Hb; counters_tac|assumption]. }
  destruct (processAction_cases i act x) as [->|(a & j & _ & ->)]; [assumption|].
  now apply counted_handler.
Qed.

Lemma applyMovement_counters (b : BotData) (mv : Vec2) (terrain : option TerrainData) :
  counters (applyMovement b mv terrain) = counters b.
Proof. unfold applyMovement. repeat case_match; reflexivity. Qed.

Lemma applyFacing_counters (b : BotData) (am : Vec2) :
  counters (applyFacing b am) = counters b.
Proof. unfold applyFacing. case_match; reflexivity. Qed.

Lemma resolveObstacleCollision_counters (b : BotData) (dyn : option (list ObstacleData)) :
  counters (resolveObstacleCollision b dyn) = counters b.
Proof.
  unfold resolveObstacleCollision. generalize (obstacle_circles dyn). intros l.
  revert b. induction l as [|o l IH]; intros b; simpl; [reflexivity|].
  rewrite IH. unfold pushOutOf. now case_match.
Qed.

Lemma resolveBotCollision_counters (a b : BotData) :
  counters (fst (resolveBotCollision a b)) = counters a
  /\ counters (snd (resolveBotCollision a b)) = counters b.
Proof. unfold resolveBotCollision. case_match; split; reflexivity. Qed.

Lemma clampToBounds_counters (b : BotData) : counters (clampToBounds b) = counters b.
Proof. reflexivity. Qed.

Lemma counted_applyAction (inp : GameLoop.Input) (i : nat) (x : GameState) :
  counted x -> counted (GameLoop.applyAction inp x i).
Proof.
  intros Hx. unfold GameLoop.applyAction.
  apply counted_processAction, counted_upd_bot; [|assumption].
  intros b _. apply counters_ok_same.
  now rewrite applyFacing_counters, applyMovement_counters.
Qed.

Lemma counted_physics (x : GameState) : counted x -> counted (GameLoop.physics x).
Proof.
  intros [Hb Hp]. unfold GameLoop.physics.
  set (x1 := set_bots _ x).
  assert (H1 : counted x1).
  { split; [|exact Hp]. simpl. apply Forall_fmap.
    eapply Forall_impl; [exact Hb|]. intros b Hok. simpl.
    eapply counters_ok_same; [|exact Hok].
    now rewrite clampToBounds_counters, resolveObstacleCollision_counters. }
  destruct (bots x1 !! 0%nat) as [a|] eqn:Ea; [|assumption].
  destruct (bots x1 !! 1%nat) as [b|] eqn:Eb; [|assumption].
  destruct (resolveBotCollision_counters a b) as [Va Vb].
  destruct (resolveBotCollision a b) as [a' b']. simpl in Va, Vb.
  destruct H1 as [H1 H2]. split; [|exact H2]. simpl.
  apply Forall_insert; [apply Forall_insert; [exact H1|]|].
  - eapply counters_ok_same; [exact Va|]. eapply Forall_lookup_1; eauto.
  - eapply counters_ok_same; [exact Vb|]. eapply Forall_lookup_1; eauto.
Qed.

Lemma proj_live_updateProjectiles (ps : list Projectile)
    (dyn : option (list ObstacleData)) :
  Forall proj_live ps -> Forall proj_live (updateProjectiles ps dyn).
Proof.
  intros H. unfold updateProjectiles. apply Forall_forall. intros p Hp.
  apply list_elem_of_filter in Hp as [Hstay Hp].
  apply list_elem_of_fmap in Hp as (q & -> & Hq).
  rewrite Forall_forall in H. destruct (H q Hq) as [Hd Hl].
  unfold projectileStays in Hstay. unfold proj_live.
  repeat case_match; try discriminate. apply Z.ltb_lt in Hstay.
  simpl in *. split; [assumption|lia].
Qed.

Lemma counted_projectileHit (acc : GameState * list Projectile) (proj : Projectile) :
  proj_live proj -> counted (fst acc) -> Forall proj_live (snd acc) ->
  counted (fst (projectileHit acc proj)) /\ Forall proj_live (snd (projectileHit acc proj)).
Proof.
  destruct acc as [x rem]. simpl. intros Hp Hx Hrem. unfold projectileHit.
  destruct (projectileTarget proj x) as [[bi bot]|]; simpl.
  - split; [|assumption]. counted_setter.
    assert (Hd : (0 <= defended bot (p_damage proj))%Z).
    { apply defended_nonneg. destruct Hp as [-> _]. auto. }
    pose proof (counted_hit takeHit _ (tick x) bi x ltac:(auto) Hd Hx) as Hhit.
    case_match; [|assumption]. repeat case_match.
    apply counted_hit; [auto|assumption|assumption].
  - split; [assumption|]. apply Forall_app. split; [assumption|]. now constructor.
Qed.

Lemma counted_moveProjectiles (x : GameState) :
  counted x -> counted (GameLoop.moveProjectiles x).
Proof.
  intros [Hb Hp]. unfold GameLoop.moveProjectiles, processProjectileHits.
  set (ps := updateProjectiles _ _).
  assert (Hps : Forall proj_live ps) by now apply proj_live_updateProjectiles.
  set (x1 := set_projectiles ps x).
  assert (H1 : counted x1) by (split; assumption).
  assert (H2 : forall l acc, Forall proj_live l -> counted (fst acc) ->
                 Forall proj_live (snd acc) ->
                 counted (fst (fold_left projectileHit l acc))
                 /\ Forall proj_live (snd (fold_left projectileHit l acc))).
  { induction l as [|p l IH]; intros acc Hl Hacc Hrem; simpl; [now split|].
    inversion Hl as [|? ? Hp1 Hl1]; subst.
    destruct (counted_projectileHit acc p Hp1 Hacc Hrem). now apply IH. }
  specialize (H2 (projectiles x1) (x1, []) Hps H1 (List.Forall_nil _)).
  destruct (fold_left projectileHit (projectiles x1) (x1, [])) as [x2 rem].
  simpl in H2. destruct H2 as [[B2 _] R2]. split; assumption.
Qed.

Lemma counted_trySpawnPickup (rnd : Draws) (x : GameState) :
  counted x -> counted (trySpawnPickup rnd x).
Proof. intros Hx. unfold trySpawnPickup. counted_tac. Qed.

Lemma counted_checkPickups (x : GameState) : counted x -> counted (checkPickups x).
Proof.
  intros Hx. unfold checkPickups. apply counted_fold; [|assumption].
  intros y pi Hy. unfold checkPickup.
  destruct (pickups y !! pi) as [pk|]; [|assumption].
  destruct (k_active pk); [|assumption].
  apply counted_fold; [|assumption].
  intros z bi Hz. unfold collectPickup.
  destruct (bots z !! bi) as [bot|] eqn:Hb; [|assumption].
  case_match; [|assumption].
  counted_setter. apply counted_upd_bot; [|counted_setter; assumption].
  intros b _. apply counters_ok_same. unfold grantPickup. now destruct (k_type pk).
Qed.

Lemma counted_checkTraps (x : GameState) : counted x -> counted (checkTraps x).
Proof.
  intros Hx. unfold checkTraps. apply counted_fold; [|assumption].
  intros y ti Hy. unfold checkTrap.
  destruct (traps y !! ti) as [trap|]; [|assumption].
  destruct (t_active trap); [|assumption].
  apply counted_fold; [|counted_setter; assumption].
  intros z bi Hz. unfold triggerTrap.
  destruct (bots z !! bi) as [bot|] eqn:Hb; [|assumption].
  case_match; [assumption|]. case_match; [|assumption].
  counted_setter.
  assert (Hv : counted (upd_bot bi (trapVictim TRAP_DAMAGE (tick z))
                          (set_traps (alter deactivateTrap ti (traps z)) z))).
  { apply counted_hit; [auto|unfold TRAP_DAMAGE; lia|counted_setter; assumption]. }
  case_match; [|assumption]. repeat case_match.
  apply counted_hit; [auto|unfold TRAP_DAMAGE; lia|assumption].
Qed.

Lemma counted_sweepTraps (x : GameState) : counted x -> counted (GameLoop.sweepTraps x).
Proof. intros Hx. unfold GameLoop.sweepTraps. counted_tac. Qed.

Lemma counted_knockOut (x : GameState) (i : nat) : counted x -> counted (knockOut x i).
Proof.
  intros Hx. unfold knockOut.
  destruct (bots x !! i) as [bot|] eqn:Hb; [|assumption].
  case_match; [|assumption].
  counted_setter. counted_setter. counted_setter.
  apply counted_upd_bot; [|assumption].
  intros b _. now apply counters_ok_same.
Qed.

Lemma counted_checkKO (x : GameState) : counted x -> counted (checkKO x).
Proof.
  intros Hx. unfold checkKO. apply counted_fold; [|assumption].
  intros y i Hy. now apply counted_knockOut.
Qed.

Lemma counted_stepState (inp : GameLoop.Input) (s : GameState) :
  counted s -> counted (GameLoop.stepState inp s).
Proof.
  intros Hs. rewrite stepState_checkKO.
  assert (Hb : counted (beforeCheckKO inp s)).
  { unfold beforeCheckKO.
    apply counted_sweepTraps, counted_checkTraps, counted_checkPickups,
      counted_trySpawnPickup, counted_moveProjectiles.
    assert (Hv : forall x, counted x -> counted (GameLoop.visibility x)).
    { intros x Hx. unfold GameLoop.visibility, updateVisibility, updateVisibilityOf,
        GameLoop.sightEvent. simpl.
      repeat case_match; try assumption; try (counted_setter; assumption). }
    apply Hv. unfold beforeVisibility.
    apply counted_physics, counted_fold.
    - intros y i Hy. now apply counted_applyAction.
    - apply (counted_other s); [reflexivity..|exact Hs]. }
  remember (beforeCheckKO inp s) as x eqn:Hx. clear Hx.
  apply (counted_other (checkKO x)); [apply checkMaxTicks_bots..|].
  now apply counted_checkKO.
Qed.

Lemma counted_run (inps : list GameLoop.Input) (g : GameLoop.t) :
  counted (GameLoop.state g) -> counted (GameLoop.state (GameLoop.run inps g)).
Proof.
  revert g. induction inps as [|inp inps IH]; intros g Hg; [exact Hg|].
  rewrite run_cons. apply IH. unfold GameLoop.tick.
  destruct (negb (GameLoop.running g)); [exact Hg|]. cbn [GameLoop.state].
  now apply counted_stepState.
Qed.

(** X12.  Whatever the arena, the decisions and the random draws, in every state
    the loop publishes each cooldown of each bot lies between 0 and the
    cooldown of its ability, the burn, slow and commitment counters lie
    between 0 and the duration they are set to, the damage totals are not
    negative, and every projectile in flight carries [RANGED_DAMAGE] and has
    between 1 and 60 ticks left. *)
Theorem counters_in_range (cfg : option ArenaConfig) (n1 n2 : string)
    (inps : list GameLoop.Input) :
  let s := GameLoop.state (GameLoop.run inps (GameLoop.start cfg n1 n2)) in
  Forall counters_ok (bots s) /\ Forall proj_live (projectiles s).
Proof.
  apply (counted_run inps (GameLoop.start cfg n1 n2)).
  split; [|constructor]. simpl.
  repeat constructor; simpl; unfold_durations; lia.
Qed.

(** ** Traps and pickups on the field *)

(** No owner has more than [TRAP_MAX_PER_BOT] active traps, and no more than
    [MAX_PICKUPS] pickups are active. *)
Definition capped (s : GameState) : Prop :=
  (forall owner, activeTrapsOf owner s <= TRAP_MAX_PER_BOT)%nat
  /\ (count_active_pickups s <= MAX_PICKUPS)%nat.

(** Every trap of the list is armed and younger than [TRAP_LIFETIME]. *)
Definition traps_live (s : GameState) : Prop :=
  Forall (fun t => t_active t = true /\ (t_lifetime t < TRAP_LIFETIME)%Z) (traps s).

Definition field (s : GameState) : list TrapData * list Pickup := (traps s, pickups s).

Lemma capped_field (x y : GameState) : field y = field x -> capped x -> capped y.
Proof.
  unfold field, capped, activeTrapsOf, count_active_pickups. now intros [= -> ->].
Qed.

Lemma field_rest (x y : GameState) : rest y = rest x -> field y = field x.
Proof. unfold rest, field. now intros [= -> -> _ _]. Qed.

Lemma length_filter_alter {A} (P : A -> Prop) `{!forall x, Decision (P x)}
    (f : A -> A) (i : nat) (l : list A) :
  (forall x, P (f x) -> P x) ->
  (length (filter P (alter f i l)) <= length (filter P l))%nat.
Proof.
  intros Hf. revert i. induction l as [|a l IH]; intros i; [destruct i; simpl; lia|].
  destruct i as [|i]; simpl.
  - rewrite !filter_cons. destruct (decide (P (f a))) as [Hfa|Hfa].
    + rewrite decide_True by auto. simpl. lia.
    + destruct (decide (P a)); simpl; lia.
  - rewrite !filter_cons. specialize (IH i).
    change (list_alter f i l) with (alter f i l).
    destruct (decide (P a)); simpl; lia.
Qed.

Lemma length_filter_filter {A} (P Q : A -> Prop) `{!forall x, Decision (P x)}
    `{!forall x, Decision (Q x)} (l : list A) :
  (length (filter P (filter Q l)) <= length (filter P l))%nat.
Proof.
  induction l as [|a l IH]; [simpl; lia|].
  rewrite !filter_cons. destruct (decide (Q a)), (decide (P a)).
  - rewrite filter_cons, decide_True by assumption. simpl. lia.
  - rewrite filter_cons, decide_False by assumption. lia.
  - simpl. lia.
  - lia.
Qed.

Lemma capped_fewer (x y : GameState) :
  (forall owner, activeTrapsOf owner y <= activeTrapsOf owner x)%nat ->
  (count_active_pickups y <= count_active_pickups x)%nat ->
  capped x -> capped y.
Proof.
  intros Ht Hp [H1 H2]. split.
  - intros o. specialize (Ht o). specialize (H1 o). lia.
  - lia.
Qed.

Lemma capped_fold {A} (f : GameState -> A -> GameState) (l : list A) (x : GameState) :
  (forall y a, capped y -> capped (f y a)) -> capped x -> capped (fold_left f l x).
Proof.
  intros Hf. revert x. induction l as [|a l IH]; intros x Hx; simpl; auto.
Qed.

Lemma capped_processTrap (i : nat) (x : GameState) :
  capped x -> capped (processTrap i x).
Proof.
  intros Hx. unfold processTrap.
  destruct (bots x !! i) as [bot|] eqn:Hb; [|assumption].
  case_match; [assumption|].
  destruct (TRAP_MAX_PER_BOT <=? activeTrapsOf (id bot) x)%nat eqn:Hcap; [assumption|].
  apply Nat.leb_gt in Hcap. destruct Hx as [H1 H2]. split; [|exact H2].
  intros o. unfold activeTrapsOf in *. simpl.
  rewrite filter_app, length_app, filter_cons, filter_nil. simpl.
  destruct (decide (id bot = o)) as [<-|Hne].
  - rewrite decide_True by (split; reflexivity). simpl. lia.
  - rewrite decide_False by (intros [? _]; congruence). simpl. specialize (H1 o). lia.
Qed.

Lemma capped_applyAction (inp : GameLoop.Input) (i : nat) (x : GameState) :
  capped x -> capped (GameLoop.applyAction inp x i).
Proof.
  intros Hx. unfold GameLoop.applyAction.
  set (x1 := upd_bot i _ x).
  assert (H1 : capped x1) by (apply (capped_field x); [reflexivity|assumption]).
  assert (H0 : capped (processAction i None x1))
    by (apply (capped_field x1); [apply field_rest, rest_upkeep|assumption]).
  destruct (processAction_cases i (action (GameLoop.actionOf inp i)) x1)
    as [->|(a & j & _ & ->)]; [assumption|].
  destruct (decide (a = Trap)) as [->|Ha].
  - now apply capped_processTrap.
  - apply (capped_field (processAction i None x1)); [|assumption].
    now apply field_rest, rest_handler.
Qed.

Lemma capped_trySpawnPickup (rnd : Draws) (x : GameState) :
  capped x -> capped (trySpawnPickup rnd x).
Proof.
  intros Hx. unfold trySpawnPickup.
  case_match; [assumption|].
  destruct (MAX_PICKUPS <=? count_active_pickups x)%nat eqn:Hcap; [assumption|].
  apply Nat.leb_gt in Hcap. case_match; [assumption|].
  destruct Hx as [H1 H2]. split; [exact H1|].
  unfold count_active_pickups in *. simpl.
  rewrite filter_app, length_app, filter_cons, filter_nil. simpl.
  lia.
Qed.

Lemma capped_checkPickups (x : GameState) : capped x -> capped (checkPickups x).
Proof.
  intros Hx. unfold checkPickups. apply capped_fold; [|assumption].
  intros y pi Hy. unfold checkPickup.
  destruct (pickups y !! pi) as [pk|]; [|assumption].
  destruct (k_active pk); [|assumption].
  apply capped_fold; [|assumption].
  intros z bi Hz. unfold collectPickup.
  destruct (bots z !! bi) as [bot|]; [|assumption].
  case_match; [|assumption].
  apply (capped_fewer z); [reflexivity| |assumption].
  unfold count_active_pickups. simpl. apply length_filter_alter.
  intros p. simpl. discriminate.
Qed.

Lemma capped_checkTraps (x : GameState) : capped x -> capped (checkTraps x).
Proof.
  intros Hx. unfold checkTraps. apply capped_fold; [|assumption].
  intros y ti Hy. unfold checkTrap.
  destruct (traps y !! ti) as [trap|]; [|assumption].
  destruct (t_active trap); [|assumption].
  apply capped_fold.
  - intros z bi Hz. unfold triggerTrap.
    destruct (bots z !! bi) as [bot|]; [|assumption].
    case_match; [assumption|]. case_match; [|assumption].
    apply (capped_fewer z); [| |assumption].
    + intros o. unfold activeTrapsOf.
      transitivity (length (filter (fun t => t_ownerId t = o /\ t_active t = true)
                              (alter deactivateTrap ti (traps z)))).
      * repeat case_match; reflexivity.
      * apply length_filter_alter. intros t [_ Ht]. discriminate Ht.
    + unfold count_active_pickups. repeat case_match; reflexivity.
  - apply (capped_fewer y); [|reflexivity|assumption].
    intros o. unfold activeTrapsOf. simpl. apply length_filter_alter.
    intros t. simpl. auto.
Qed.

Lemma capped_sweepTraps (x : GameState) : capped x -> capped (GameLoop.sweepTraps x).
Proof.
  apply capped_fewer; [|reflexivity].
  intros o. unfold activeTrapsOf, GameLoop.sweepTraps. simpl.
  apply length_filter_filter.
Qed.

Lemma field_checkKO (x : GameState) : field (checkKO x) = field x.
Proof.
  unfold checkKO. apply (fold_keeps field).
  intros y i. unfold knockOut. repeat case_match; reflexivity.
Qed.

Lemma field_checkMaxTicks (x : GameState) : field (GameLoop.checkMaxTicks x) = field x.
Proof. unfold GameLoop.checkMaxTicks. repeat case_match; reflexivity. Qed.

Lemma capped_stepState (inp : GameLoop.Input) (s : GameState) :
  capped s -> capped (GameLoop.stepState inp s).
Proof.
  intros Hs. rewrite stepState_checkKO.
  assert (Hb : capped (beforeCheckKO inp s)).
  { unfold beforeCheckKO.
    apply capped_sweepTraps, capped_checkTraps, capped_checkPickups,
      capped_trySpawnPickup.
    assert (H0 : capped (beforeVisibility inp s)).
    { unfold beforeVisibility.
      apply (capped_field _ _ (field_rest _ _ (rest_physics _))).
      apply capped_fold.
      - intros y i Hy. now apply capped_applyAction.
      - apply (capped_field s); [reflexivity|exact Hs]. }
    remember (beforeVisibility inp s) as x0 eqn:E0. clear E0.
    apply (capped_field _ _ (field_rest _ _ (rest_moveProjectiles _))).
    apply (capped_field _ _ (field_rest _ _ (rest_visibility _))). exact H0. }
  remember (beforeCheckKO inp s) as x eqn:Hx. clear Hx.
  apply (capped_field (checkKO x)); [apply field_checkMaxTicks|].
  apply (capped_field x); [apply field_checkKO|assumption].
Qed.

Lemma traps_live_stepState (inp : GameLoop.Input) (s : GameState) :
  traps_live (GameLoop.stepState inp s).
Proof.
  rewrite stepState_checkKO. unfold beforeCheckKO.
  remember (checkTraps _) as x eqn:Hx. clear Hx.
  unfold traps_live.
  replace (traps (GameLoop.checkMaxTicks (checkKO (GameLoop.sweepTraps x))))
    with (traps (GameLoop.sweepTraps x)).
  - unfold GameLoop.sweepTraps. simpl. apply Forall_forall. intros t Ht.
    apply list_elem_of_filter in Ht as [Ht _]. exact Ht.
  - pose proof (field_checkMaxTicks (checkKO (GameLoop.sweepTraps x))) as E1.
    pose proof (field_checkKO (GameLoop.sweepTraps x)) as E2.
    unfold field in E1, E2. congruence.
Qed.

Lemma field_ok_run (inps : list GameLoop.Input) (g : GameLoop.t) :
  capped (GameLoop.state g) /\ traps_live (GameLoop.state g) ->
  capped (GameLoop.state (GameLoop.run inps g))
  /\ traps_live (GameLoop.state (GameLoop.run inps g)).
Proof.
  revert g. induction inps as [|inp inps IH]; intros g Hg; [exact Hg|].
  rewrite run_cons. apply IH. unfold GameLoop.tick.
  destruct (negb (GameLoop.running g)); [exact Hg|]. cbn [GameLoop.state].
  split; [apply capped_stepState, Hg|apply traps_live_stepState].
Qed.

(** X13.  Whatever the arena, the decisions and the random draws, in every state
    the loop publishes no bot owns more than [TRAP_MAX_PER_BOT] active traps,
    at most [MAX_PICKUPS] pickups are active, and every trap still listed is
    armed and younger than [TRAP_LIFETIME]: a trap that has triggered or has
    aged out is gone by the end of the tick. *)
Theorem field_caps_hold (cfg : option ArenaConfig) (n1 n2 : string)
    (inps : list GameLoop.Input) :
  let s := GameLoop.state (GameLoop.run inps (GameLoop.start cfg n1 n2)) in
  (forall owner, activeTrapsOf owner s <= TRAP_MAX_PER_BOT)%nat
  /\ (count_active_pickups s <= MAX_PICKUPS)%nat
  /\ Forall (fun t => t_active t = true /\ (t_lifetime t < TRAP_LIFETIME)%Z) (traps s).
Proof.
  cbv zeta.
  destruct (field_ok_run inps (GameLoop.start cfg n1 n2)) as [[H1 H2] H3].
  - split; [split|].
    + intros o. unfold activeTrapsOf. simpl. unfold TRAP_MAX_PER_BOT. lia.
    + unfold count_active_pickups. simpl. unfold MAX_PICKUPS. lia.
    + constructor.
  - split; [exact H1|]. split; [exact H2|exact H3].
Qed.

(** ** After the match; interpolation *)

Lemma run_app (l1 l2 : list GameLoop.Input) (g : GameLoop.t) :
  GameLoop.run (l1 ++ l2) g = GameLoop.run l2 (GameLoop.run l1 g).
Proof. apply fold_left_app. Qed.

(** X14.  Once a match that was started has ended, the loop is inert: whatever
    inputs follow, its state, winner included, is the one it ended with, and
    the observer is not called again. *)
Theorem result_is_final (cfg : option ArenaConfig) (n1 n2 : string)
    (inps more : list GameLoop.Input) :
  gameOver (GameLoop.state (GameLoop.run inps (GameLoop.start cfg n1 n2))) = true ->
  GameLoop.run (inps ++ more) (GameLoop.start cfg n1 n2)
  = GameLoop.run inps (GameLoop.start cfg n1 n2)
  /\ GameLoop.published more (GameLoop.run inps (GameLoop.start cfg n1 n2)) = [].
Proof.
  intros Hover.
  destruct (loop_ok_run inps _ (loop_ok_start cfg n1 n2)) as [Hr _].
  rewrite Hover in Hr. simpl in Hr.
  rewrite run_app. split; [now apply run_stopped|now apply published_stopped].
Qed.





Definition idleInput : GameLoop.Input := GameLoop.mkInput [] (mkDraws 0 0 0).

Lemma result_is_final_witness :
  GameLoop.run (repeat idleInput 2400 ++ [idleInput]) (GameLoop.start None "A" "B")
  = GameLoop.run (repeat idleInput 2400) (GameLoop.start None "A" "B").
Proof.
  refine (proj1 (result_is_final None "A" "B" (repeat idleInput 2400) [idleInput] _)).
  vm_compute. reflexivity.
Defined.

(** ** More of the sandbox *)

(** Evaluation of a trace, one event at a time, on a runner whose worker map
    is written [<[b := w]> ws]. *)
Ltac runner_norm E :=
  cbv [BotRunner.step BotRunner.getAction BotRunner.hotSwapCode BotRunner.initBot
       BotRunner.workerStep BotRunner.deliver BotRunner.timerFires BotRunner.dispatch
       BotRunner.terminate BotRunner.postMessage BotRunner.setHandler
       BotRunner.clearTimeout BotRunner.isReady
       BotRunner.set_workers BotRunner.set_pendingActions BotRunner.set_ready
       BotRunner.set_currentCode BotRunner.set_timers BotRunner.set_actionResults
       BotRunner.set_swapResults BotRunner.set_initResults BotRunner.set_nextId
       BotRunner.workers BotRunner.pendingActions BotRunner.ready BotRunner.currentCode
       BotRunner.timers BotRunner.actionResults BotRunner.swapResults
       BotRunner.initResults BotRunner.nextId
       BotRunner.set_thinkFn BotRunner.set_inbox BotRunner.set_outbox BotRunner.set_hung
       BotRunner.set_onmessage
       BotRunner.thinkFn BotRunner.inbox BotRunner.outbox BotRunner.hung
       BotRunner.onmessage BotRunner.settle app negb] in E;
  repeat first
    [ rewrite alter_insert_eq in E
    | rewrite insert_insert_eq in E
    | rewrite lookup_insert_eq in E
    | rewrite lookup_delete_eq in E ];
  cbv beta iota in E.

Ltac runner_step E :=
  first [ rewrite runner_run_cons in E; runner_norm E
        | unfold BotRunner.run in E; cbn [fold_left] in E ].

Section RunnerMore.
Context `{Worker.JsEngine}.
Import BotRunner.

(** What an [init] message does to a fresh worker, by [accepted]. *)
Lemma onmessage_init (code : string) :
  match accepted code with
  | Some fn =>
      Worker.onmessage (Worker.MsgInit code) None = Worker.Done (Some fn) [Worker.MsgReady]
  | None =>
      exists error,
        Worker.onmessage (Worker.MsgInit code) None
        = Worker.Done None [Worker.MsgError ("Init error: " +:+ error)]
  end.
Proof.
  unfold accepted, Worker.onmessage.
  destruct (Worker.validateCode code) as [e|]; [now eexists|].
  destruct (Worker.compileThinkFn code); [reflexivity|now eexists].
Qed.

(** X16.  A call of [initBot] (promise [p]) followed to the delivery of the
    worker's first message.  When the source passes validation and compiles,
    the promise resolves, the bot is ready and its worker is at rest with the
    compiled function bound and the tick handler installed.  Otherwise the
    promise rejects with a message that starts with "Init error: ", the
    worker has no think function and the [ready] flags are the ones before
    the call.  Either way the init timer is cleared and [getCode] returns the
    source that was passed in, rejected or not. *)
Theorem initBot_outcome (h : t) (b : nat) (code : string) :
  initResults h !! nextId h = None ->
  let p := nextId h in
  let h3 := run h [CallInitBot b code; WorkerStep b; Deliver b] in
  getCode b h3 = Some code
  /\ timers h3 !! p = None
  /\ match accepted code with
     | Some fn =>
         initResults h3 !! p = Some None
         /\ isReady b h3 = true
         /\ exists w, workers h3 !! b = Some w /\ idle w /\ thinkFn w = Some fn
     | None =>
         (exists error, initResults h3 !! p = Some (Some ("Init error: " +:+ error)))
         /\ ready h3 = ready h
         /\ thinkFn <$> workers h3 !! b = Some None
     end.
Proof.
  intros Hfresh. cbv zeta.
  pose proof (onmessage_init code) as Hm.
  unfold run. simpl. unfold initBot, postMessage. simpl.
  unfold workerStep. simpl. rewrite lookup_alter_eq, lookup_insert_eq. simpl.
  destruct (accepted code) as [fn|].
  - rewrite Hm. unfold deliver. simpl. rewrite lookup_insert_eq. simpl.
    unfold setHandler, getCode, isReady. simpl.
    rewrite lookup_insert_eq, lookup_delete_eq. simpl.
    split; [reflexivity|]. split; [reflexivity|]. split.
    + unfold settle. rewrite Hfresh. apply lookup_insert_eq.
    + rewrite lookup_insert_eq. split; [reflexivity|].
      rewrite lookup_alter_eq, lookup_insert_eq. simpl.
      eexists. split; [reflexivity|]. now repeat split.
  - destruct Hm as (error & Hm). rewrite Hm. unfold deliver. simpl.
    rewrite lookup_insert_eq. simpl. unfold getCode. simpl.
    rewrite lookup_insert_eq, lookup_delete_eq.
    split; [reflexivity|]. split; [reflexivity|]. split; [|split].
    + exists error. unfold settle. rewrite Hfresh. apply lookup_insert_eq.
    + reflexivity.
    + rewrite lookup_insert_eq. reflexivity.
Qed.

(** X17.  A reply that comes after its request has timed out, with no other
    request issued in between, is dropped: the request stays resolved to the
    neutral action, no other promise is touched, nothing is left pending and
    the worker is at rest again. *)
Theorem late_reply_without_request_is_dropped (h : t) (b : nat) (d : Worker.TickData)
    (w : Proc) (a : BotAction) :
  workers h !! b = Some w -> idle w -> isReady b h = true ->
  actionResults h !! nextId h = None ->
  answer (thinkFn w) d = Some a ->
  let r := nextId h in
  let h4 := run h [CallGetAction b d; TimerFires r; WorkerStep b; Deliver b] in
  actionResults h4 = <[r := Worker.neutral]> (actionResults h)
  /\ pendingActions h4 !! b = None
  /\ timers h4 !! r = None
  /\ exists w4, workers h4 !! b = Some w4 /\ idle w4.
Proof.
  intros Hw (Hin & Hout & Hhung & Hh) Hr Hfresh Ha. cbv zeta.
  pose proof (onmessage_tick (thinkFn w) (nextId h) d) as Hm.
  rewrite Ha in Hm. destruct Hm as (fn' & Hm).
  unfold isReady in Hr.
  remember (run _ _) as hf eqn:E.
  destruct w as [fn inb outb hg om]. simpl in Hin, Hout, Hhung, Hh, Hm. subst inb outb hg om.
  destruct h as [ws pa rd cc tm ar sr ir n]. cbn [nextId] in *.
  simpl in Hw, Hr, Hfresh, Hm.
  rewrite <- (insert_id ws b _ Hw) in E.
  runner_step E. rewrite Hr in E. runner_norm E.
  runner_step E. rewrite Hfresh in E. runner_norm E.
  runner_step E. rewrite Hm in E. runner_norm E.
  runner_step E. runner_step E. subst hf. cbn [actionResults pendingActions timers workers].
  split; [reflexivity|]. split; [apply lookup_delete_eq|]. split; [apply lookup_delete_eq|].
  rewrite lookup_insert_eq. eexists. split; [reflexivity|]. now repeat split.
Qed.

(** X18.  A decision requested just before a hot swap is not lost: the worker
    answers it with the function it had, the temporary handler of
    [hotSwapCode] forwards the reply to the tick handler and the request
    resolves to that answer; the swap then resolves to [true] exactly when
    the source is accepted, and the tick handler is back in place. *)
Theorem decision_survives_hot_swap (h : t) (b : nat) (d : Worker.TickData)
    (code : string) (w : Proc) (a : BotAction) :
  workers h !! b = Some w -> idle w -> isReady b h = true ->
  actionResults h !! nextId h = None ->
  swapResults h !! S (nextId h) = None ->
  answer (thinkFn w) d = Some a ->
  let r := nextId h in
  let h6 := run h [CallGetAction b d; CallHotSwapCode b code;
                   WorkerStep b; WorkerStep b; Deliver b; Deliver b] in
  actionResults h6 !! r = Some a
  /\ swapResults h6 !! S r = Some (bool_decide (is_Some (accepted code)))
  /\ pendingActions h6 !! b = None
  /\ exists w6, workers h6 !! b = Some w6 /\ idle w6
                /\ forall newFn, accepted code = Some newFn -> thinkFn w6 = Some newFn.
Proof.
  intros Hw (Hin & Hout & Hhung & Hh) Hr Hfresh Hfresh2 Ha. cbv zeta.
  pose proof (onmessage_tick (thinkFn w) (nextId h) d) as Hm.
  rewrite Ha in Hm. destruct Hm as (fn' & Hm).
  pose proof (onmessage_recompile code fn') as Hc.
  unfold isReady in Hr.
  remember (run _ _) as hf eqn:E.
  destruct w as [fn inb outb hg om]. simpl in Hin, Hout, Hhung, Hh, Hm. subst inb outb hg om.
  destruct h as [ws pa rd cc tm ar sr ir n]. cbn [nextId] in *.
  simpl in Hw, Hr, Hfresh, Hfresh2, Hm.
  rewrite <- (insert_id ws b _ Hw) in E.
  runner_step E. rewrite Hr in E. runner_norm E.
  runner_step E. rewrite Hr in E. runner_norm E.
  runner_step E. rewrite Hm in E. runner_norm E.
  runner_step E.
  destruct (accepted code) as [newFn|].
  - rewrite Hc in E. runner_norm E.
    runner_step E. rewrite Hfresh in E. runner_norm E.
    runner_step E. rewrite Hfresh2 in E. runner_norm E.
    runner_step E. subst hf. cbn [actionResults swapResults pendingActions workers].
    rewrite !lookup_insert_eq, lookup_delete_eq.
    split; [reflexivity|].
    split; [now rewrite bool_decide_eq_true_2 by (now eexists)|].
    split; [reflexivity|].
    eexists. split; [reflexivity|]. split; [now repeat split|].
    now intros ? [= <-].
  - destruct Hc as (error & Hc). rewrite Hc in E. runner_norm E.
    runner_step E. rewrite Hfresh in E. runner_norm E.
    runner_step E. rewrite Hfresh2 in E. runner_norm E.
    runner_step E. subst hf. cbn [actionResults swapResults pendingActions workers].
    rewrite !lookup_insert_eq, lookup_delete_eq.
    split; [reflexivity|].
    split; [now rewrite bool_decide_eq_false_2 by (intros [? ?]; discriminate)|].
    split; [reflexivity|].
    eexists. split; [reflexivity|]. split; [now repeat split|].
    discriminate.
Qed.

(** X19.  When the five-second timer of [hotSwapCode] fires before the worker's
    verdict is delivered the promise resolves to [false] and stays so; the
    verdict, when it comes, is still acted on: an accepted source is bound in
    the worker and recorded as the bot's code although the caller was told
    the swap had failed.  The tick handler is restored in either case. *)
Theorem hot_swap_timeout_still_swaps (h : t) (b : nat) (code : string) (w : Proc) :
  workers h !! b = Some w -> idle w -> isReady b h = true ->
  swapResults h !! nextId h = None ->
  let p := nextId h in
  let h4 := run h [CallHotSwapCode b code; TimerFires p; WorkerStep b; Deliver b] in
  swapResults h4 !! p = Some false
  /\ exists w4, workers h4 !! b = Some w4 /\ idle w4
       /\ match accepted code with
          | Some newFn => thinkFn w4 = Some newFn /\ getCode b h4 = Some code
          | None => thinkFn w4 = thinkFn w /\ getCode b h4 = getCode b h
          end.
Proof.
  intros Hw (Hin & Hout & Hhung & Hh) Hr Hfresh. cbv zeta.
  pose proof (onmessage_recompile code (thinkFn w)) as Hm.
  unfold getCode.
  unfold isReady in Hr.
  remember (run _ _) as hf eqn:E.
  destruct w as [fn inb outb hg om]. simpl in Hin, Hout, Hhung, Hh, Hm. subst inb outb hg om.
  destruct h as [ws pa rd cc tm ar sr ir n]. cbn [nextId] in *.
  simpl in Hw, Hr, Hfresh, Hm.
  cbn [currentCode thinkFn].
  rewrite <- (insert_id ws b _ Hw) in E.
  runner_step E. rewrite Hr in E. runner_norm E.
  runner_step E. rewrite Hfresh in E. runner_norm E.
  runner_step E.
  destruct (accepted code) as [newFn|].
  - rewrite Hm in E. runner_norm E.
    runner_step E. runner_step E. subst hf. cbn [swapResults workers currentCode].
    rewrite !lookup_insert_eq.
    split; [reflexivity|].
    eexists. split; [reflexivity|]. split; [now repeat split|]. split; reflexivity.
  - destruct Hm as (error & Hm). rewrite Hm in E. runner_norm E.
    runner_step E. runner_step E. subst hf. cbn [swapResults workers currentCode].
    rewrite !lookup_insert_eq.
    split; [reflexivity|].
    eexists. split; [reflexivity|]. split; [now repeat split|]. split; reflexivity.
Qed.

(** X20.  After [terminate] the runner has no worker and no recorded source: a
    decision resolves to the neutral action at once, a hot swap resolves to
    [false] at once, [getCode] returns null, and no worker step or delivery
    does anything.  A decision that was pending when [terminate] was called
    is not lost either: it resolves to the neutral action when its timer
    fires. *)
Theorem terminate_settles (h : t) (b : nat) (d : Worker.TickData) (code : string) :
  actionResults h !! nextId h = None ->
  swapResults h !! nextId h = None ->
  let h' := terminate h in
  actionResults (getAction b d h') !! nextId h = Some Worker.neutral
  /\ swapResults (hotSwapCode b code h') !! nextId h = Some false
  /\ getCode b h' = None
  /\ workerStep b h' = h' /\ deliver b h' = h'
  /\ actionResults (run h [CallGetAction b d; CallTerminate; TimerFires (nextId h)])
       !! nextId h = Some Worker.neutral.
Proof.
  intros Hfresh Hfresh2. cbv zeta.
  split; [|split; [|split; [|split; [|split]]]].
  - apply (getAction_unavailable (terminate h) b d); [exact Hfresh|]. now left.
  - apply (hotSwapCode_unavailable (terminate h) b code); [exact Hfresh2|]. now left.
  - reflexivity.
  - reflexivity.
  - reflexivity.
  - unfold run. simpl. unfold getAction, isReady. simpl.
    assert (Hs : forall m : gmap nat BotAction,
               m !! nextId h = Some Worker.neutral ->
               settle (nextId h) Worker.neutral m !! nextId h = Some Worker.neutral).
    { intros m Hm. unfold settle. now rewrite Hm. }
    assert (H0 : settle (nextId h) Worker.neutral (actionResults h) !! nextId h
                 = Some Worker.neutral).
    { unfold settle. rewrite Hfresh. apply lookup_insert_eq. }
    destruct (workers h !! b) as [w|]; [destruct (default false (ready h !! b))|];
      simpl; unfold timerFires; simpl.
    + rewrite lookup_insert_eq. simpl. exact H0.
    + destruct (timers h !! nextId h) as [[| |]|]; simpl; auto.
    + destruct (timers h !! nextId h) as [[| |]|]; simpl; auto.
Qed.

End RunnerMore.

(** Concrete runs on the scripted engine. *)
Definition readyWorker : @BotRunner.Proc scriptedEngine :=
  @BotRunner.mkProc scriptedEngine (Some (tt : @Worker.Fn scriptedEngine)) [] [] false
    BotRunner.OnTick.

Lemma initBot_outcome_witness :
  BotRunner.getCode 0
    (BotRunner.run BotRunner.empty
       [BotRunner.CallInitBot 0 thinkSource; BotRunner.WorkerStep 0; BotRunner.Deliver 0])
  = Some thinkSource.
Proof.
  pose proof (initBot_outcome BotRunner.empty 0 thinkSource
                ltac:(vm_compute; reflexivity)) as [H1 _].
  exact H1.
Defined.

Lemma late_reply_witness :
  BotRunner.pendingActions
    (BotRunner.run readyRunner
       [@BotRunner.CallGetAction scriptedEngine 0 1%nat;
        BotRunner.TimerFires (BotRunner.nextId readyRunner);
        BotRunner.WorkerStep 0; BotRunner.Deliver 0]) !! 0%nat = None.
Proof.
  pose proof (late_reply_without_request_is_dropped readyRunner 0 1%nat readyWorker
                meleeOnly
                ltac:(vm_compute; reflexivity) ltac:(vm_compute; repeat split)
                ltac:(vm_compute; reflexivity) ltac:(vm_compute; reflexivity)
                ltac:(vm_compute; reflexivity)) as (_ & H2 & _).
  exact H2.
Defined.

Lemma decision_survives_witness :
  BotRunner.actionResults
    (BotRunner.run readyRunner
       [@BotRunner.CallGetAction scriptedEngine 0 1%nat;
        BotRunner.CallHotSwapCode 0 thinkSource;
        BotRunner.WorkerStep 0; BotRunner.WorkerStep 0;
        BotRunner.Deliver 0; BotRunner.Deliver 0]) !! BotRunner.nextId readyRunner
  = Some meleeOnly.
Proof.
  pose proof (decision_survives_hot_swap readyRunner 0 1%nat thinkSource readyWorker
                meleeOnly
                ltac:(vm_compute; reflexivity) ltac:(vm_compute; repeat split)
                ltac:(vm_compute; reflexivity) ltac:(vm_compute; reflexivity)
                ltac:(vm_compute; reflexivity) ltac:(vm_compute; reflexivity)) as (H1 & _).
  exact H1.
Defined.

Lemma hot_swap_timeout_witness :
  BotRunner.swapResults
    (BotRunner.run readyRunner
       [BotRunner.CallHotSwapCode 0 thinkSource;
        BotRunner.TimerFires (BotRunner.nextId readyRunner);
        BotRunner.WorkerStep 0; BotRunner.Deliver 0]) !! BotRunner.nextId readyRunner
  = Some false.
Proof.
  pose proof (hot_swap_timeout_still_swaps readyRunner 0 thinkSource readyWorker
                ltac:(vm_compute; reflexivity) ltac:(vm_compute; repeat split)
                ltac:(vm_compute; reflexivity) ltac:(vm_compute; reflexivity)) as (H1 & _).
  exact H1.
Defined.

Lemma terminate_settles_witness :
  BotRunner.actionResults
    (BotRunner.getAction 0 1%nat (BotRunner.terminate readyRunner))
    !! BotRunner.nextId readyRunner
  = Some Worker.neutral.
Proof.
  pose proof (terminate_settles readyRunner 0 1%nat thinkSource
                ltac:(vm_compute; reflexivity) ltac:(vm_compute; reflexivity)) as (H1 & _).
  exact H1.
Defined.

(** ** The validator and the sanitizer *)

Section Validator.
Import Worker.












End Validator.

Section Sanitizer.
Context `{Worker.JsEngine}.
Import Worker.

(** The object literal [{ move: {x, y}, aim: {x, y}, action }] of an
    action. *)
Definition encodeAction (a : BotAction) : JsValue :=
  JsObject
    [ ("move", JsObject [("x", JsNumber (vx (move a))); ("y", JsNumber (vy (move a)))]);
      ("aim", JsObject [("x", JsNumber (vx (aim a))); ("y", JsNumber (vy (aim a)))]);
      ("action", match action a with
                 | Some k => JsString (action_name k)
                 | None => JsNull
                 end) ].

Lemma orZero_idempotent (n : float) : orZero (orZero n) = orZero n.
Proof.
  assert (H0 : orZero PrimFloat.zero = PrimFloat.zero) by reflexivity.
  destruct (PrimFloat.is_nan n) eqn:Hn.
  - now rewrite (orZero_nan n Hn).
  - destruct (PrimFloat.eqb n PrimFloat.zero) eqn:Hz.
    + assert (E : orZero n = PrimFloat.zero) by (unfold orZero; now rewrite Hn, Hz).
      now rewrite E.
    + rewrite (orZero_number n Hn Hz). now apply orZero_number.
Qed.

Lemma sanitize_encodeAction (a : BotAction) :
  sanitize (encodeAction a)
  = Some (mkBotAction (mkVec2 (orZero (vx (move a))) (orZero (vy (move a))))
                      (mkVec2 (orZero (vx (aim a))) (orZero (vy (aim a))))
                      (action a)).
Proof.
  unfold sanitize, encodeAction, coerce. simpl.
  do 3 f_equal. destruct (action a) as [k|]; [|reflexivity]. now destruct k.
Qed.

(** X22.  Sanitizing is idempotent: an action that came out of the sanitizer,
    handed back as an object literal, passes unchanged, and a think function
    that returns it has it delivered as its decision.  In general the object
    literal of an action passes with its action kept and each number [n]
    replaced by [n || 0]. *)
Theorem sanitize_is_idempotent (v : JsValue) (a : BotAction) :
  sanitize v = Some a ->
  sanitize (encodeAction a) = Some a
  /\ (forall f f' d, call f d = (Returns (encodeAction a), f') -> answer (Some f) d = Some a).
Proof.
  intros Hs.
  assert (He : sanitize (encodeAction a) = Some a).
  { destruct (sanitize_spec v a Hs) as (H1 & H2 & H3 & H4 & _).
    apply coerce_spec in H1 as (_ & n1 & _ & E1).
    apply coerce_spec in H2 as (_ & n2 & _ & E2).
    apply coerce_spec in H3 as (_ & n3 & _ & E3).
    apply coerce_spec in H4 as (_ & n4 & _ & E4).
    rewrite sanitize_encodeAction, E1, E2, E3, E4, !orZero_idempotent.
    rewrite <- E1, <- E2, <- E3, <- E4. now destruct a as [[? ?] [? ?] ?]. }
  split; [exact He|].
  intros f f' d Hc. unfold answer. now rewrite Hc, He.
Qed.

End Sanitizer.

Lemma sanitize_idempotent_witness :
  Worker.sanitize (encodeAction meleeOnly) = Some meleeOnly.
Proof.
  refine (proj1 (sanitize_is_idempotent
                   (Worker.JsObject [("action", Worker.JsString "melee")]) meleeOnly _)).
  vm_compute. reflexivity.
Defined.

(** ** Pickups and traps at close range *)

Definition pickupInReach (bot : BotData) (pk : Pickup) : bool :=
  (distance (position bot) (k_position pk) <? PICKUP_RADIUS + 1.0)%float.

Definition trapInReach (bot : BotData) (trap : TrapData) : bool :=
  (distance (position bot) (t_position trap) <? TRAP_RADIUS + 1.0)%float.

Lemma grantPickup_position (t : PickupType) (bot : BotData) :
  position (grantPickup t bot) = position bot /\ id (grantPickup t bot) = id bot.
Proof. now destruct t. Qed.

Lemma collectPickup_in_reach (pi : nat) (pk : Pickup) (s : GameState) (bi : nat)
    (bot : BotData) :
  bots s !! bi = Some bot -> pickupInReach bot pk = true ->
  collectPickup pi pk s bi
  = push_event
      {| e_type := pickup; e_attacker := None; e_target := Some (id bot);
         e_damage := None;
         e_position := Some (mkVec2 (vx (k_position pk)) (vy (k_position pk)));
         e_text := name bot +:+ " picked up " +:+ pickup_name (k_type pk) +:+ "!" |}
      (upd_bot bi (grantPickup (k_type pk))
         (set_pickups (alter deactivatePickup pi (pickups s)) s)).
Proof.
  intros Hb Hr. unfold collectPickup, pickupInReach in *. now rewrite Hb, Hr.
Qed.

(** X23.  A pickup is not consumed by the first bot that reaches it: the loop
    over the bots has no [break], so when both bots are in reach of an active
    pickup in the same tick, both are granted it (hp or energy, capped) and
    two [pickup] events are pushed; the pickup is inactive afterwards. *)
Theorem pickup_is_shared (s : GameState) (a b : BotData) (pk : Pickup) :
  bots s = [a; b] -> pickups s = [pk] -> k_active pk = true ->
  pickupInReach a pk = true -> pickupInReach b pk = true ->
  let s' := checkPickups s in
  bots s' = [grantPickup (k_type pk) a; grantPickup (k_type pk) b]
  /\ pickups s' = [deactivatePickup pk]
  /\ map (fun e => (e_type e, e_target e)) (events s')
     = map (fun e => (e_type e, e_target e)) (events s)
       ++ [(pickup, Some (id a)); (pickup, Some (id b))].
Proof.
  intros Hb Hp Hact Ha Hb'. cbv zeta.
  assert (E : checkPickups s = collectPickup 0 pk (collectPickup 0 pk s 0) 1).
  { unfold checkPickups. rewrite Hp. cbn [length seq fold_left].
    unfold checkPickup. rewrite Hp. cbn [lookup list_lookup]. rewrite Hact.
    replace (length (bots s)) with 2%nat by (now rewrite Hb). reflexivity. }
  rewrite E.
  rewrite (collectPickup_in_reach 0 pk s 0 a) by (first [assumption|now rewrite Hb]).
  rewrite (collectPickup_in_reach 0 pk _ 1 b).
  - unfold push_event, upd_bot. simpl. rewrite Hb, Hp. simpl.
    split; [reflexivity|]. split; [reflexivity|].
    rewrite !map_app. simpl. now rewrite <- app_assoc.
  - unfold push_event, upd_bot. simpl. now rewrite Hb.
  - exact Hb'.
Qed.

(** X24.  A trap under a bot that is not its owner, with the owner as bot 0:
    the owner walks over its own trap unharmed; the other bot loses
    [TRAP_DAMAGE] hp, whether it is defending or not (the shield does not
    reduce trap damage), and is slowed for [TRAP_SLOW_DURATION] ticks; the
    owner is credited with the damage; the trap has aged by one tick and is
    disarmed; one [trap_trigger] event is pushed. *)
Theorem trap_trigger_effect (s : GameState) (a b : BotData) (trap : TrapData) :
  bots s = [a; b] -> traps s = [trap] -> t_active trap = true ->
  t_ownerId trap = id a -> id b <> id a -> trapInReach b trap = true ->
  let s' := checkTraps s in
  (exists a' b',
     bots s' = [a'; b']
     /\ hp a' = hp a /\ status a' = status a
     /\ damageDealt a' = (damageDealt a + TRAP_DAMAGE)%Z
     /\ hp b' = (hp b - TRAP_DAMAGE)%Z
     /\ damageTaken b' = (damageTaken b + TRAP_DAMAGE)%Z
     /\ slowed (status b') = TRAP_SLOW_DURATION
     /\ isDefending b' = isDefending b)
  /\ traps s' = [deactivateTrap (ageTrap trap)]
  /\ map (fun e => (e_type e, e_attacker e, e_target e, e_damage e)) (events s')
     = map (fun e => (e_type e, e_attacker e, e_target e, e_damage e)) (events s)
       ++ [(trap_trigger, Some (id a), Some (id b), Some TRAP_DAMAGE)].
Proof.
  intros Hb Ht Hact Hown Hne Hr. cbv zeta. unfold trapInReach in Hr.
  set (s1 := set_traps [ageTrap trap] s).
  assert (E : checkTraps s = triggerTrap 0 trap (triggerTrap 0 trap s1 0) 1).
  { unfold checkTraps. rewrite Ht. cbn [length seq fold_left].
    unfold checkTrap. rewrite Ht. cbn [lookup list_lookup]. rewrite Hact.
    change (set_traps (alter ageTrap 0%nat [trap]) s) with s1.
    replace (length (bots s1)) with 2%nat by (unfold s1; simpl; now rewrite Hb).
    reflexivity. }
  assert (E0 : triggerTrap 0 trap s1 0 = s1).
  { unfold triggerTrap. unfold s1 at 1. simpl. rewrite Hb. simpl.
    now rewrite Hown, Nat.eqb_refl. }
  rewrite E, E0. unfold triggerTrap. unfold s1 at 1. simpl. rewrite Hb. simpl.
  rewrite Hown. apply Nat.eqb_neq in Hne. simpl in Hr. rewrite Hne, Hr.
  unfold findBotById, upd_bot, push_event, s1. simpl. rewrite Hb. simpl.
  rewrite decide_True by reflexivity. simpl.
  split; [|split].
  - eexists _, _. split; [reflexivity|]. now repeat split.
  - reflexivity.
  - now rewrite map_app.
Qed.

(** Both bots next to a health pickup in the middle of the arena. *)
Definition midPickup : Pickup := mkPickup 0 (mkVec2 0 0) Health true.

Definition aroundPickup : GameState :=
  set_pickups [midPickup]
    (upd_bot 0 (set_position (mkVec2 (-0.5) 0))
       (upd_bot 1 (set_position (mkVec2 0.5 0)) (init None "A" "B"))).

Lemma pickup_is_shared_witness :
  pickups (checkPickups aroundPickup) = [deactivatePickup midPickup].
Proof.
  refine (proj1 (proj2 (pickup_is_shared aroundPickup
                          (set_position (mkVec2 (-0.5) 0) (createBot 0 "A" (vec2 (-10) 0)))
                          (set_position (mkVec2 0.5 0) (createBot 1 "B" (vec2 10 0)))
                          midPickup eq_refl eq_refl eq_refl _ _)));
    vm_compute; reflexivity.
Defined.

(** A trap of bot 0 one unit from bot 1's spawn point. *)
Definition nearTrap : TrapData := mkTrap 0 0 (mkVec2 9 0) 0 true.

Definition onTrap : GameState := set_traps [nearTrap] (init None "A" "B").

Lemma trap_trigger_witness :
  traps (checkTraps onTrap) = [deactivateTrap (ageTrap nearTrap)].
Proof.
  refine (proj1 (proj2 (trap_trigger_effect onTrap
                          (createBot 0 "A" (vec2 (-10) 0)) (createBot 1 "B" (vec2 10 0))
                          nearTrap eq_refl eq_refl eq_refl eq_refl _ _))).
  - discriminate.
  - vm_compute. reflexivity.
Defined.

(** ** Ids *)

(** The ids of the entries of a list are pairwise distinct and below the
    counter the next id is taken from. *)
Definition pool {A} (key : A -> nat) (next : nat) (l : list A) : Prop :=
  NoDup (key <$> l) /\ Forall (fun x => (key x < next)%nat) l.

Definition fresh_ids (s : GameState) : Prop :=
  pool p_id (nextProjectileId s) (projectiles s)
  /\ pool k_id (nextPickupId s) (pickups s)
  /\ pool t_id (nextTrapId s) (traps s).

Definition pools (s : GameState) :=
  (projectiles s, nextProjectileId s, (pickups s, nextPickupId s), (traps s, nextTrapId s)).

Lemma fresh_ids_pools (x y : GameState) : pools y = pools x -> fresh_ids x -> fresh_ids y.
Proof. unfold pools, fresh_ids. now intros [= -> -> -> -> -> ->]. Qed.

Lemma pool_nil {A} (key : A -> nat) (next : nat) : pool key next [].
Proof. split; constructor. Qed.

Lemma pool_snoc {A} (key : A -> nat) (next : nat) (l : list A) (x : A) :
  key x = next -> pool key next l -> pool key (S next) (l ++ [x]).
Proof.
  intros Hx [Hn Hf]. split.
  - rewrite fmap_app. apply NoDup_app. split; [exact Hn|]. split.
    + intros k Hk Hk'. apply list_elem_of_fmap in Hk as (y & -> & Hy).
      rewrite Forall_forall in Hf. specialize (Hf y Hy).
      simpl in Hk'. apply list_elem_of_singleton in Hk'. lia.
    + simpl. apply NoDup_singleton.
  - apply Forall_app. split.
    + eapply Forall_impl; [exact Hf|]. intros y Hy. simpl in Hy. lia.
    + constructor; [lia|constructor].
Qed.

Lemma pool_drop {A} (key : A -> nat) (next : nat) (l1 l2 : list A) (x : A) :
  pool key next (l1 ++ x :: l2) -> pool key next (l1 ++ l2).
Proof.
  intros [Hn Hf]. split.
  - rewrite fmap_app in *. rewrite fmap_cons in Hn.
    apply NoDup_app in Hn as (H1 & H2 & H3). apply NoDup_cons in H3 as [_ H3].
    apply NoDup_app. split; [exact H1|]. split; [|exact H3].
    intros k Hk Hk'. apply (H2 k Hk). now right.
  - apply Forall_app in Hf as [H1 H2]. apply Forall_cons in H2 as [_ H2].
    apply Forall_app. now split.
Qed.

Lemma pool_filter {A} (key : A -> nat) (next : nat) (P : A -> Prop)
    `{!forall x, Decision (P x)} (l : list A) :
  pool key next l -> pool key next (filter P l).
Proof.
  induction l as [|a l IH]; [auto|]. intros Hp.
  rewrite filter_cons. destruct (decide (P a)).
  - destruct Hp as [Hn Hf]. rewrite fmap_cons in Hn. apply NoDup_cons in Hn as [Ha Hn].
    apply Forall_cons in Hf as [Hfa Hf]. destruct (IH (conj Hn Hf)) as [IH1 IH2].
    split.
    + rewrite fmap_cons. apply NoDup_cons. split; [|exact IH1].
      intros Hin. apply Ha. apply list_elem_of_fmap in Hin as (y & -> & Hy).
      apply list_elem_of_filter in Hy as [_ Hy]. apply list_elem_of_fmap. now exists y.
    + now constructor.
  - apply IH. exact (pool_drop key next [] l a Hp).
Qed.

Lemma pool_same_keys {A} (key : A -> nat) (next : nat) (l l' : list A) :
  key <$> l' = key <$> l -> pool key next l -> pool key next l'.
Proof.
  intros Hk [Hn Hf]. split; [now rewrite Hk|].
  change (Forall ((fun k => (k < next)%nat) ∘ key) l').
  apply Forall_fmap. rewrite Hk. apply Forall_fmap. exact Hf.
Qed.

Lemma pool_alter {A} (key : A -> nat) (next : nat) (f : A -> A) (i : nat) (l : list A) :
  (forall x, key (f x) = key x) -> pool key next l -> pool key next (alter f i l).
Proof.
  intros Hf. apply pool_same_keys. revert i. induction l as [|a l IH]; intros [|i]; simpl;
    try reflexivity.
  - now rewrite Hf.
  - f_equal. apply IH.
Qed.

Lemma pool_fmap {A} (key : A -> nat) (next : nat) (f : A -> A) (l : list A) :
  (forall x, key (f x) = key x) -> pool key next l -> pool key next (f <$> l).
Proof.
  intros Hf. apply pool_same_keys. rewrite <- list_fmap_compose.
  apply list_fmap_ext. intros ? x _. apply Hf.
Qed.

Lemma fresh_ids_fold {A} (f : GameState -> A -> GameState) (l : list A) (x : GameState) :
  (forall y a, fresh_ids y -> fresh_ids (f y a)) -> fresh_ids x -> fresh_ids (fold_left f l x).
Proof.
  intros Hf. revert x. induction l as [|a l IH]; intros x Hx; simpl; auto.
Qed.

Lemma pools_statusEffects (i : nat) (x : GameState) : pools (statusEffects i x) = pools x.
Proof. unfold statusEffects. repeat case_match; reflexivity. Qed.

Lemma pools_upkeep (i : nat) (x : GameState) : pools (processAction i None x) = pools x.
Proof.
  rewrite processAction_none. destruct (bots x !! i); [|reflexivity].
  now rewrite pools_statusEffects.
Qed.

Lemma fresh_ids_handler (a : ActionKind) (i j : nat) (x : GameState) :
  fresh_ids x -> fresh_ids (handler a i j x).
Proof.
  intros Hx.
  assert (Hsame : forall y, pools y = pools x -> fresh_ids y)
    by (intros y Hy; now apply (fresh_ids_pools x)).
  destruct a; unfold handler.
  - apply Hsame. unfold processMelee. repeat case_match; reflexivity.
  - unfold processRanged. repeat case_match; try assumption.
    destruct Hx as (P1 & P2 & P3). split; [|split; assumption].
    simpl. now apply pool_snoc.
  - apply Hsame. unfold processSpecial. repeat case_match; reflexivity.
  - apply Hsame. unfold processDefend. repeat case_match; reflexivity.
  - apply Hsame. unfold processDash. repeat case_match; reflexivity.
  - apply Hsame. unfold processHeal. repeat case_match; reflexivity.
  - unfold processTrap. repeat case_match; try assumption.
    destruct Hx as (P1 & P2 & P3). split; [exact P1|]. split; [exact P2|].
    simpl. now apply pool_snoc.
Qed.

Lemma fresh_ids_applyAction (inp : GameLoop.Input) (i : nat) (x : GameState) :
  fresh_ids x -> fresh_ids (GameLoop.applyAction inp x i).
Proof.
  intros Hx. unfold GameLoop.applyAction.
  set (x1 := upd_bot i _ x).
  assert (H1 : fresh_ids x1) by (apply (fresh_ids_pools x); [reflexivity|assumption]).
  assert (H0 : fresh_ids (processAction i None x1))
    by (apply (fresh_ids_pools x1); [apply pools_upkeep|assumption]).
  destruct (processAction_cases i (action (GameLoop.actionOf inp i)) x1)
    as [->|(a & j & _ & ->)]; [assumption|].
  now apply fresh_ids_handler.
Qed.

Lemma pools_physics (x : GameState) : pools (GameLoop.physics x) = pools x.
Proof. unfold GameLoop.physics. repeat case_match; reflexivity. Qed.

Lemma pools_visibility (x : GameState) : pools (GameLoop.visibility x) = pools x.
Proof.
  unfold GameLoop.visibility, updateVisibility, updateVisibilityOf, GameLoop.sightEvent.
  simpl. repeat case_match; reflexivity.
Qed.

(** What [projectileHit] leaves alone. *)
Definition besides_projectiles (s : GameState) :=
  (nextProjectileId s, (pickups s, nextPickupId s), (traps s, nextTrapId s)).

Lemma projectileHit_besides (acc : GameState * list Projectile) (p : Projectile) :
  besides_projectiles (fst (projectileHit acc p)) = besides_projectiles (fst acc).
Proof. destruct acc as [y rem]. unfold projectileHit. repeat case_match; reflexivity. Qed.

Lemma projectileHit_remaining (acc : GameState * list Projectile) (p : Projectile) :
  snd (projectileHit acc p) = snd acc \/ snd (projectileHit acc p) = snd acc ++ [p].
Proof. destruct acc as [y rem]. unfold projectileHit. repeat case_match; auto. Qed.

Lemma fold_projectileHit (next : nat) (l : list Projectile)
    (acc : GameState * list Projectile) :
  pool p_id next (snd acc ++ l) ->
  pool p_id next (snd (fold_left projectileHit l acc))
  /\ besides_projectiles (fst (fold_left projectileHit l acc)) = besides_projectiles (fst acc).
Proof.
  revert acc. induction l as [|p l IH]; intros acc Hp; simpl.
  - rewrite app_nil_r in Hp. now split.
  - destruct (IH (projectileHit acc p)) as [H1 H2].
    + destruct (projectileHit_remaining acc p) as [-> | ->].
      * exact (pool_drop _ _ _ _ _ Hp).
      * now rewrite <- app_assoc.
    + split; [exact H1|]. now rewrite H2, projectileHit_besides.
Qed.

Lemma fresh_ids_moveProjectiles (x : GameState) :
  fresh_ids x -> fresh_ids (GameLoop.moveProjectiles x).
Proof.
  intros (H1 & H2 & H3). unfold GameLoop.moveProjectiles, processProjectileHits.
  set (ps := updateProjectiles _ _).
  assert (Hps : pool p_id (nextProjectileId x) ps).
  { unfold ps, updateProjectiles. apply pool_filter.
    apply (pool_fmap p_id _ stepProjectile); [reflexivity|exact H1]. }
  set (x1 := set_projectiles ps x).
  destruct (fold_projectileHit (nextProjectileId x) (projectiles x1) (x1, []) Hps)
    as [F1 F2].
  destruct (fold_left projectileHit (projectiles x1) (x1, [])) as [x2 rem].
  simpl in F1, F2. unfold besides_projectiles in F2. simpl in F2.
  injection F2 as E1 E2 E3 E4 E5.
  unfold fresh_ids. simpl. now rewrite E1, E2, E3, E4, E5.
Qed.

Lemma fresh_ids_trySpawnPickup (rnd : Draws) (x : GameState) :
  fresh_ids x -> fresh_ids (trySpawnPickup rnd x).
Proof.
  intros Hx. unfold trySpawnPickup. repeat case_match; try assumption;
    (destruct Hx as (P1 & P2 & P3); split; [exact P1|]; split; [|exact P3];
     simpl; now apply pool_snoc).
Qed.

Lemma fresh_ids_checkPickups (x : GameState) : fresh_ids x -> fresh_ids (checkPickups x).
Proof.
  intros Hx. unfold checkPickups. apply fresh_ids_fold; [|assumption].
  intros y pi Hy. unfold checkPickup.
  destruct (pickups y !! pi) as [pk|]; [|assumption].
  destruct (k_active pk); [|assumption].
  apply fresh_ids_fold; [|assumption].
  intros z bi Hz. unfold collectPickup.
  destruct (bots z !! bi) as [bot|]; [|assumption].
  case_match; [|assumption].
  destruct Hz as (P1 & P2 & P3). split; [exact P1|]. split; [|exact P3].
  simpl. now apply pool_alter.
Qed.

Lemma fresh_ids_checkTraps (x : GameState) : fresh_ids x -> fresh_ids (checkTraps x).
Proof.
  intros Hx. unfold checkTraps. apply fresh_ids_fold; [|assumption].
  intros y ti Hy. unfold checkTrap.
  destruct (traps y !! ti) as [trap|]; [|assumption].
  destruct (t_active trap); [|assumption].
  apply fresh_ids_fold.
  - intros z bi Hz. unfold triggerTrap.
    destruct (bots z !! bi) as [bot|]; [|assumption].
    case_match; [assumption|]. case_match; [|assumption].
    destruct Hz as (P1 & P2 & P3).
    repeat case_match;
      (split; [exact P1|]; split; [exact P2|]; simpl; now apply pool_alter).
  - destruct Hy as (P1 & P2 & P3). split; [exact P1|]. split; [exact P2|].
    simpl. now apply pool_alter.
Qed.

Lemma fresh_ids_sweepTraps (x : GameState) : fresh_ids x -> fresh_ids (GameLoop.sweepTraps x).
Proof.
  intros (H1 & H2 & H3). split; [exact H1|]. split; [exact H2|].
  unfold GameLoop.sweepTraps. simpl. now apply pool_filter.
Qed.

Lemma pools_checkKO (x : GameState) : pools (checkKO x) = pools x.
Proof.
  unfold checkKO. apply (fold_keeps pools).
  intros y i. unfold knockOut. repeat case_match; reflexivity.
Qed.

Lemma pools_checkMaxTicks (x : GameState) : pools (GameLoop.checkMaxTicks x) = pools x.
Proof. unfold GameLoop.checkMaxTicks. repeat case_match; reflexivity. Qed.

Lemma fresh_ids_stepState (inp : GameLoop.Input) (s : GameState) :
  fresh_ids s -> fresh_ids (GameLoop.stepState inp s).
Proof.
  intros Hs. rewrite stepState_checkKO.
  assert (Hb : fresh_ids (beforeCheckKO inp s)).
  { unfold beforeCheckKO.
    apply fresh_ids_sweepTraps, fresh_ids_checkTraps, fresh_ids_checkPickups,
      fresh_ids_trySpawnPickup, fresh_ids_moveProjectiles.
    apply (fresh_ids_pools _ _ (pools_visibility _)).
    unfold beforeVisibility.
    apply (fresh_ids_pools _ _ (pools_physics _)).
    apply fresh_ids_fold.
    - intros y i Hy. now apply fresh_ids_applyAction.
    - apply (fresh_ids_pools s); [reflexivity|exact Hs]. }
  remember (beforeCheckKO inp s) as x eqn:Hx. clear Hx.
  apply (fresh_ids_pools _ _ (pools_checkMaxTicks _)).
  now apply (fresh_ids_pools _ _ (pools_checkKO _)).
Qed.

Lemma fresh_ids_run (inps : list GameLoop.Input) (g : GameLoop.t) :
  fresh_ids (GameLoop.state g) -> fresh_ids (GameLoop.state (GameLoop.run inps g)).
Proof.
  revert g. induction inps as [|inp inps IH]; intros g Hg; [exact Hg|].
  rewrite run_cons. apply IH. unfold GameLoop.tick.
  destruct (negb (GameLoop.running g)); [exact Hg|]. cbn [GameLoop.state].
  now apply fresh_ids_stepState.
Qed.

(** X25.  Ids are never reused within a match: in every state the loop
    publishes the projectiles have pairwise distinct ids, and so have the
    pickups and the traps, spent ones included; every id in use is below the
    counter the next one will be taken from. *)
Theorem ids_are_unique (cfg : option ArenaConfig) (n1 n2 : string)
    (inps : list GameLoop.Input) :
  let s := GameLoop.state (GameLoop.run inps (GameLoop.start cfg n1 n2)) in
  (NoDup (map p_id (projectiles s))
   /\ Forall (fun p => (p_id p < nextProjectileId s)%nat) (projectiles s))
  /\ (NoDup (map k_id (pickups s))
      /\ Forall (fun p => (k_id p < nextPickupId s)%nat) (pickups s))
  /\ (NoDup (map t_id (traps s))
      /\ Forall (fun t => (t_id t < nextTrapId s)%nat) (traps s)).
Proof.
  apply (fresh_ids_run inps (GameLoop.start cfg n1 n2)).
  repeat split; constructor.
Qed.

(** ** The order of the two turns *)

(** The upkeep of one of two bots leaves the other as it is. *)
Lemma upkeep_first (s : GameState) (a b : BotData) :
  bots s = [a; b] ->
  exists a1, bots (processAction 0 None s) = [a1; b] /\ id a1 = id a
             /\ tick (processAction 0 None s) = tick s.
Proof.
  intros Hb. rewrite processAction_none, Hb. cbn [lookup list_lookup].
  unfold statusEffects. rewrite lookup_upd_bot, Hb. cbn [lookup list_lookup fmap option_fmap option_map].
  destruct (0 <? burning (status (beginTurn a)))%Z;
    unfold upd_bot, push_event; simpl; rewrite Hb; simpl;
    (eexists; split; [reflexivity|]; split; [|reflexivity]);
    unfold oocRegen; case_match; reflexivity.
Qed.

Lemma upkeep_second (s : GameState) (a b : BotData) :
  bots s = [a; b] -> burning (status b) = 0%Z ->
  bots (processAction 1 None s) = [a; oocRegen (tick s) (slowTick (beginTurn b))].
Proof.
  intros Hb Hburn. rewrite processAction_none, Hb. cbn [lookup list_lookup].
  unfold statusEffects. rewrite lookup_upd_bot, Hb.
  cbn [lookup list_lookup fmap option_fmap option_map].
  replace (0 <? burning (status (beginTurn b)))%Z with false
    by (simpl; now rewrite Hburn).
  unfold upd_bot. simpl. now rewrite Hb.
Qed.

(** X26.  The two bots take their turns in array order, and a shield is reset
    only at the start of its owner's own turn.  So when bot 0's melee lands,
    the damage bot 1 takes is decided by the shield bot 1 carried over from
    the previous tick, not by the [defend] it asks for in this tick: a bot 1
    that was not defending takes the full [MELEE_DAMAGE] = 9 and ends the
    tick with its shield up; one that was defending takes 3, whatever it
    does now. *)
Theorem bot0_meets_last_ticks_shield (s : GameState) (a b a1 : BotData) :
  bots s = [a; b] -> id a <> id b ->
  burning (status b) = 0%Z -> (DEFEND_ENERGY_PER_TICK <= energy b)%Z ->
  bots (processAction 0 None s) !! 0%nat = Some a1 ->
  meleeGate a1 -> meleeOutOfRange a1 b = false -> meleeOffArc a1 b = false ->
  let dmg := (if isDefending b then 3 else 9)%Z in
  let s2 := processAction 1 (Some Defend) (processAction 0 (Some Melee) s) in
  exists b2, bots s2 !! 1%nat = Some b2
    /\ isDefending b2 = true
    /\ hp b2 = (hp b - dmg)%Z
    /\ damageTaken b2 = (damageTaken b + dmg)%Z.
Proof.
  intros Hb Hid Hburn Hen Ha1 Hg Hr Hf. cbv zeta.
  destruct (upkeep_first s a b Hb) as (a1' & Hu & Hida & Htick).
  rewrite Hu in Ha1. injection Ha1 as ->.
  (* bot 0's turn *)
  assert (E1 : processAction 0 (Some Melee) s = processMelee 0 1 (processAction 0 None s)).
  { rewrite (processAction_some 0 Melee s a) by now rewrite Hb.
    unfold firstEnemy. rewrite Hu. cbn [list_find].
    rewrite decide_False by (intros Hn; now apply Hn).
    rewrite decide_True by congruence. reflexivity. }
  remember (processAction 0 None s) as u eqn:Eu. clear Eu.
  assert (E2 : bots (processMelee 0 1 u)
               = [creditDamage (defended b MELEE_DAMAGE) (tick s) (swingMelee a1);
                  takeHit (defended b MELEE_DAMAGE) (tick s) b]
               /\ tick (processMelee 0 1 u) = tick s).
  { unfold processMelee. rewrite Hu. cbn [lookup list_lookup].
    rewrite (meleeGate_open _ Hg).
    fold (meleeOutOfRange a1 b) (meleeOffArc a1 b). rewrite Hr, Hf.
    unfold upd_bot, push_event. simpl. rewrite Hu, Htick. simpl. now split. }
  rewrite E1. destruct E2 as [E2 E3].
  remember (processMelee 0 1 u) as s1 eqn:Es1. clear Es1 Hu Htick u E1.
  destruct (defended_values b) as (Hd & _ & _). rewrite Hd in E2. clear Hd.
  set (dmg := (if isDefending b then 3 else 9)%Z) in *.
  (* bot 1's turn *)
  pose proof (upkeep_second s1 _ _ E2 Hburn) as Hu1. rewrite E3 in Hu1.
  rewrite (processAction_some 1 Defend s1 (takeHit dmg (tick s) b)) by now rewrite E2.
  unfold firstEnemy. rewrite Hu1. cbn [list_find].
  rewrite decide_True by (simpl; congruence).
  cbn [fmap option_fmap option_map]. unfold handler, processDefend.
  rewrite Hu1. cbn [lookup list_lookup].
  replace (energy (oocRegen (tick s) (slowTick (beginTurn (takeHit dmg (tick s) b))))
           <? DEFEND_ENERGY_PER_TICK)%Z with false.
  - rewrite lookup_upd_bot, Hu1. cbn [lookup list_lookup fmap option_fmap option_map].
    eexists. split; [reflexivity|].
    unfold oocRegen. simpl. rewrite Z.sub_diag, andb_false_r. now repeat split.
  - symmetry. apply Z.ltb_ge. unfold oocRegen. case_match; simpl;
      unfold ENERGY_REGEN, DEFEND_ENERGY_PER_TICK in *; lia.
Qed.

Lemma bot0_meets_last_ticks_shield_witness :
  exists b2,
    bots (processAction 1 (Some Defend) (processAction 0 (Some Melee) faceToFace)) !! 1%nat
    = Some b2
    /\ isDefending b2 = true /\ hp b2 = (BOT_HP - 9)%Z.
Proof.
  pose (a := createBot 0 "A" (vec2 (-10) 0)).
  pose (b := set_position (mkVec2 (-9) 0) (createBot 1 "B" (vec2 10 0))).
  assert (H1 : exists a1, bots (processAction 0 None faceToFace) !! 0%nat = Some a1
                          /\ meleeGate a1 /\ meleeOutOfRange a1 b = false
                          /\ meleeOffArc a1 b = false).
  { eexists. split; [vm_compute; reflexivity|].
    split; [split; vm_compute; [reflexivity|discriminate]|].
    split; vm_compute; reflexivity. }
  destruct H1 as (a1 & Ha1 & Hg & Hr & Hf).
  destruct (bot0_meets_last_ticks_shield faceToFace a b a1 eq_refl
              ltac:(vm_compute; discriminate) eq_refl ltac:(vm_compute; discriminate)
              Ha1 Hg Hr Hf) as (b2 & H2 & Hd & Hhp & _).
  exists b2. split; [exact H2|]. split; [exact Hd|exact Hhp].
Defined.
